(** * Othello Arena: board engine, turn scheduler, analysis pipeline and
    upload validation.

    A shallow embedding of the JavaScript sources (game-core.js,
    game-controller.js, game-ui.js, strategies.js, app.js,
    intelligent-system-loader.js, constant.js, stages.js, game-logger.js,
    game-rollout.js, tournament.js) and the properties the specification
    states about them, followed by further properties of the same code.

    Conventions of the embedding.
    - A JavaScript number that holds a cell state, a player or a coordinate
      is a [Z]; a number that holds milliseconds or the result of
      [Math.random()] is a [Q].
    - A board is a JavaScript array of arrays: [list (list Z)].  Reading
      outside an array yields [undefined], which is [None] here and is
      different from every cell constant.  Reading a column of a row that
      does not exist raises a TypeError in the source; the embedding reads it
      as [None] too, and every theorem below about an operation that indexes
      the board by coordinates assumes the board is a square of the engine's
      BOARD_SIZE, where neither happens.
    - Module-level variables of an IIFE module become the fields of a state
      record that the operations take and return.
    - Calls that only draw, log or store (OthelloUI display updates,
      console, GameLogger, localStorage) leave the modelled state alone and
      are left out; what they are given is returned when a property needs
      it.  The game logger has its own state and its own module below; what
      the engine sends to it is given by [logMakeMove], [logEndGame] and
      [logCheckTimeLimit].
    - A JavaScript object used as a table from names to values is a finite
      map of its own properties.  Where the code reads such a table under a
      name a user can choose (the strategy store, the leaderboard), the read
      also finds the properties every object inherits, such as
      'constructor': module [JsObject] below. *)

From Stdlib Require Import ZArith QArith Qround Lia List Bool String Ascii.
From Stdlib Require Import Sorted.
From stdpp Require Import base list strings gmap sorting.

Local Open Scope Z_scope.

(** ** constant.js *)

Module GAME_CONSTANTS.
Definition EMPTY : Z := 0.
Definition BLACK : Z := 1.
Definition WHITE : Z := 2.
Definition BLOCKED : Z := 3.
Definition MAX_AI_TIME_PER_GAME : Q := 10000.
End GAME_CONSTANTS.
Import GAME_CONSTANTS.

(** ** stages.js *)

(** A placement [{ r, c }] of a stage configuration. *)
Record Pos := mkPos { pos_r : Z; pos_c : Z }.

(** A stage configuration.  The optional fields of the source are total
    here: an absent list is [[]], an absent rule toggle is [false], and
    [boardSize] is [0] when absent (all three are what the source's
    [x || default] idiom makes of them). *)
Record StageConfig := mkStage {
  name : string;
  boardSize : Z;
  initialBlocked : list Pos;
  initialPlayer1 : list Pos;
  initialPlayer2 : list Pos;
  ignoreOcclusion : bool;
  fewerPiecesContinue : bool
}.

Definition stage_standard : StageConfig :=
  mkStage "Standard 8x8" 8 []
    [mkPos 3 4; mkPos 4 3] [mkPos 3 3; mkPos 4 4] false false.

Definition stage_small : StageConfig :=
  mkStage "Small Board (6x6)" 6 []
    [mkPos 2 3; mkPos 3 2] [mkPos 2 2; mkPos 3 3] false false.

Definition stage_csquares : StageConfig :=
  mkStage "8x8 (Partial C-Squares-cw)" 8
    [mkPos 0 1; mkPos 1 7; mkPos 7 6; mkPos 6 0]
    [mkPos 3 4; mkPos 4 3] [mkPos 3 3; mkPos 4 4] false false.

Definition stages : list StageConfig :=
  [stage_standard; stage_small; stage_csquares].

(** [stageConfig || stages[0]] *)
Definition orDefaultStage (cfg : option StageConfig) : StageConfig :=
  match cfg with Some s => s | None => stage_standard end.

(** ** Boards as arrays of arrays *)

Abbreviation Board := (list (list Z)).

(** [b[r][c]]; [None] is [undefined]. *)
Definition cellAt (b : Board) (r c : Z) : option Z :=
  if (r <? 0) || (c <? 0) then None
  else b !! Z.to_nat r ≫= (.!! Z.to_nat c).

(** [b[r][c] === v] *)
Definition cellIs (b : Board) (r c v : Z) : bool :=
  match cellAt b r c with Some x => x =? v | None => false end.

(** [b[r][c] = v] for an index inside the arrays.  (Outside them the source
    would grow the row or raise; every assignment of the engine is guarded by
    [isWithinBoard], and the list update does nothing there.) *)
Definition setCell (b : Board) (r c v : Z) : Board :=
  if (r <? 0) || (c <? 0) then b
  else alter (<[Z.to_nat c := v]>) (Z.to_nat r) b.

(** [Array(n).fill().map(() => Array(n).fill(v))] *)
Definition newSquare (n : Z) (v : Z) : Board :=
  replicate (Z.to_nat n) (replicate (Z.to_nat n) v).

(** A move [{ row, col }]. *)
Record Move := mkMove { row : Z; col : Z }.

(** [player === BLACK ? WHITE : BLACK] *)
Definition otherPlayer (player : Z) : Z :=
  if player =? BLACK then WHITE else BLACK.

Definition directions : list (Z * Z) :=
  [(-1, -1); (-1, 0); (-1, 1); (0, -1); (0, 1); (1, -1); (1, 0); (1, 1)].

(** ** game-core.js *)

Module OthelloCore.

(** The private variables of the module. *)
Record state := mkState {
  board : Board;
  BOARD_SIZE : Z;
  currentStage : option StageConfig;
  currentPlayer : Z;
  gameRunning : bool;
  gameOver : bool
}.

Definition init : state :=
  mkState [] 8 None BLACK false false.

Definition with_board (st : state) (b : Board) : state :=
  mkState b (BOARD_SIZE st) (currentStage st) (currentPlayer st)
    (gameRunning st) (gameOver st).

Definition setCurrentPlayer (st : state) (p : Z) : state :=
  mkState (board st) (BOARD_SIZE st) (currentStage st) p
    (gameRunning st) (gameOver st).

Definition setGameRunning (st : state) (v : bool) : state :=
  mkState (board st) (BOARD_SIZE st) (currentStage st) (currentPlayer st)
    v (gameOver st).

(** [isWithinBoard(r, c)], with the module's BOARD_SIZE made explicit. *)
Definition isWithinBoard (N r c : Z) : bool :=
  (0 <=? r) && (r <? N) && (0 <=? c) && (c <? N).

(** *** createInitialBoard *)

Definition placeBlocked (N : Z) (b : Board) (p : Pos) : Board :=
  if isWithinBoard N (pos_r p) (pos_c p)
  then setCell b (pos_r p) (pos_c p) BLOCKED
  else b.

Definition placePiece (N colour : Z) (b : Board) (p : Pos) : Board :=
  if isWithinBoard N (pos_r p) (pos_c p)
     && cellIs b (pos_r p) (pos_c p) EMPTY
  then setCell b (pos_r p) (pos_c p) colour
  else b.

(** [stageConfig.boardSize || 8] *)
Definition stageBoardSize (cfg : StageConfig) : Z :=
  if boardSize cfg =? 0 then 8 else boardSize cfg.

(** [createInitialBoard(stageConfig)].  The bounds test is the module's
    [isWithinBoard], so it reads the module's BOARD_SIZE ([N]), while the
    arrays are allocated with the configuration's own size. *)
Definition createInitialBoard (N : Z) (stageConfig : option StageConfig)
  : Board :=
  let cfg := orDefaultStage stageConfig in
  let size := stageBoardSize cfg in
  let b0 := newSquare size EMPTY in
  let b1 := fold_left (placeBlocked N) (initialBlocked cfg) b0 in
  let b2 := fold_left (placePiece N BLACK) (initialPlayer1 cfg) b1 in
  fold_left (placePiece N WHITE) (initialPlayer2 cfg) b2.

(** [initializeBoard(stageConfig, isPreview)] *)
Definition initializeBoard (st : state) (stageConfig : option StageConfig)
  (isPreview : bool) : state :=
  let N := match stageConfig with Some s => boardSize s | None => 8 end in
  let b := createInitialBoard N stageConfig in
  if isPreview
  then mkState b N stageConfig (currentPlayer st) (gameRunning st) true
  else mkState b N stageConfig BLACK false false.

(** *** isValidMove *)

Section Scan.

Variable N : Z.                 (* BOARD_SIZE *)
Variable ignoreOcc : bool.      (* stageConfig.ignoreOcclusion || false *)
Variable player : Z.
Variable b : Board.
Variables dr dc : Z.

Let opponent := otherPlayer player.

(** The [while (isWithinBoard(r, c))] loop of [isValidMove] for one
    direction.  The result is [true] when the loop reaches [return true] and
    [false] when it leaves through [break] or through its condition.  One
    unit of [fuel] is one test of the loop condition. *)
Fixpoint validScan (fuel : nat) (r c : Z)
  (foundOpponent foundBlocked : bool) : bool :=
  match fuel with
  | O => false
  | S fuel' =>
    if isWithinBoard N r c then
      if cellIs b r c opponent then
        validScan fuel' (r + dr) (c + dc) true foundBlocked
      else if cellIs b r c BLOCKED then
        if negb ignoreOcc then false
        else validScan fuel' (r + dr) (c + dc) foundOpponent true
      else if cellIs b r c EMPTY then false
      else if cellIs b r c player then
        foundOpponent && (negb foundBlocked || ignoreOcc)
      else validScan fuel' (r + dr) (c + dc) foundOpponent foundBlocked
    else false
  end.

(** The loop of [makeMove] for one direction: [Some toFlip] when the loop
    reaches the mover's disc with the flipping condition true, [None] when it
    leaves without flipping. *)
Fixpoint flipScan (fuel : nat) (r c : Z) (toFlip : list (Z * Z))
  (foundOpponent foundBlocked : bool) : option (list (Z * Z)) :=
  match fuel with
  | O => None
  | S fuel' =>
    if isWithinBoard N r c then
      if cellIs b r c opponent then
        flipScan fuel' (r + dr) (c + dc) (toFlip ++ [(r, c)]) true
          foundBlocked
      else if cellIs b r c BLOCKED then
        if negb ignoreOcc then None
        else flipScan fuel' (r + dr) (c + dc) toFlip foundOpponent true
      else if cellIs b r c EMPTY then None
      else if cellIs b r c player then
        if foundOpponent && (0 <? Z.of_nat (length toFlip))
           && (negb foundBlocked || ignoreOcc)
        then Some toFlip else None
      else flipScan fuel' (r + dr) (c + dc) toFlip foundOpponent foundBlocked
    else None
  end.

End Scan.

(** A scan that starts next to a cell of the board leaves the board after
    at most BOARD_SIZE steps (see [validScan_fuel] and [flipScan_fuel]). *)
Definition scanFuel (N : Z) : nat := Z.to_nat N.

Definition stageIgnoreOcclusion (st : state) : bool :=
  ignoreOcclusion (orDefaultStage (currentStage st)).

(** [isValidMove(row, col, player, currentBoard)] *)
Definition isValidMove (st : state) (row col player : Z)
  (currentBoard : Board) : bool :=
  let N := BOARD_SIZE st in
  if negb (isWithinBoard N row col) || negb (cellIs currentBoard row col EMPTY)
  then false
  else
    existsb
      (fun d : Z * Z =>
         validScan N (stageIgnoreOcclusion st) player currentBoard
           (fst d) (snd d) (scanFuel N)
           (row + fst d) (col + snd d) false false)
      directions.

(** *** getValidMoves *)

(** [getValidMoves(player, currentBoard)]: the two nested [for] loops push
    [{row: r, col: c}] in the order they visit the cells. *)
Definition getValidMoves (st : state) (player : Z) (currentBoard : Board)
  : list Move :=
  let size := Z.of_nat (length currentBoard) in
  r ← seqZ 0 size;
  c ← seqZ 0 size;
  if isValidMove st r c player currentBoard then [mkMove r c] else [].

(** *** makeMove *)

(** [for (const [fr, fc] of toFlip) board[fr][fc] = player] *)
Definition flipAll (b : Board) (player : Z) (toFlip : list (Z * Z)) : Board :=
  fold_left (fun acc p => setCell acc (fst p) (snd p) player) toFlip b.

(** The state of the [for (const [dr, dc] of directions)] loop: the board,
    the [flipped] flag and [capturedPieces]. *)
Record sweep := mkSweep {
  sw_board : Board;
  sw_flipped : bool;
  sw_captured : list (Z * Z)
}.

(** The [while] loop of [makeMove] for direction [d] from [(row, col)]. *)
Definition captureIn (N : Z) (ign : bool) (player row col : Z)
  (b : Board) (d : Z * Z) : option (list (Z * Z)) :=
  flipScan N ign player b (fst d) (snd d) (scanFuel N)
    (row + fst d) (col + snd d) [] false false.

(** One round of the loop over the directions. *)
Definition sweepDir (N : Z) (ign : bool) (player row col : Z)
  (s : sweep) (d : Z * Z) : sweep :=
  match captureIn N ign player row col (sw_board s) d with
  | Some toFlip =>
      mkSweep (flipAll (sw_board s) player toFlip) true
        (sw_captured s ++ toFlip)
  | None => s
  end.

(** What [makeMove] returns and hands to the logger. *)
Record moveResult := mkMoveResult {
  mr_state : state;
  mr_flipped : bool;               (* the return value *)
  mr_captured : list (Z * Z)       (* capturedPieces *)
}.

(** [makeMove(row, col, player)] on the module's own board. *)
Definition makeMove (st : state) (row col player : Z) : moveResult :=
  let N := BOARD_SIZE st in
  if negb (isWithinBoard N row col) || negb (cellIs (board st) row col EMPTY)
  then mkMoveResult st false []
  else
    let b1 := setCell (board st) row col player in
    let s := fold_left (sweepDir N (stageIgnoreOcclusion st) player row col)
               directions (mkSweep b1 false []) in
    mkMoveResult (with_board st (sw_board s)) (sw_flipped s) (sw_captured s).

(** *** countDiscs and determineNextPlayer *)

Record scores := mkScores { black : Z; white : Z }.

(** The body of the inner loop of [countDiscs]. *)
Definition countCell (acc : scores) (v : Z) : scores :=
  if v =? BLACK then mkScores (black acc + 1) (white acc)
  else if v =? WHITE then mkScores (black acc) (white acc + 1)
  else acc.

Definition countDiscs (boardState : Board) : scores :=
  fold_left (fun acc rowCells => fold_left countCell rowCells acc)
    boardState (mkScores 0 0).

Definition stageFewerPiecesContinue (st : state) : bool :=
  fewerPiecesContinue (orDefaultStage (currentStage st)).

Definition determineNextPlayer (st : state) : Z :=
  if negb (stageFewerPiecesContinue st) then otherPlayer (currentPlayer st)
  else
    let sc := countDiscs (board st) in
    if black sc <? white sc then BLACK
    else if white sc <? black sc then WHITE
    else otherPlayer (currentPlayer st).

(** *** endGame *)

(** What [endGame] reports to the status line and to the game logger. *)
Record gameResult := mkGameResult {
  res_black : Z;
  res_white : Z;
  res_winner : option Z          (* [None] is a tie *)
}.

(** [endGame(winner = null)]; nothing happens unless the game is running. *)
Definition endGame (st : state) (winner : option Z)
  : state * option gameResult :=
  if negb (gameRunning st) then (st, None)
  else
    let st' := mkState (board st) (BOARD_SIZE st) (currentStage st)
                 (currentPlayer st) false true in
    let sc := countDiscs (board st) in
    let w :=
      match winner with
      | Some p => Some p
      | None =>
          if white sc <? black sc then Some BLACK
          else if black sc <? white sc then Some WHITE
          else None
      end in
    (st', Some (mkGameResult (black sc) (white sc) w)).

End OthelloCore.


(** ** game-ui.js: the time limit *)

Module OthelloUI.

Import OthelloCore.

(** [timeUsed > GAME_CONSTANTS.MAX_AI_TIME_PER_GAME] *)
Definition overBudget (timeUsed : Q) : bool :=
  negb (Qle_bool timeUsed MAX_AI_TIME_PER_GAME).

(** The body of the two loops of [checkTimeLimit] at one cell. *)
Definition forfeitCell (winningColor v : Z) : Z :=
  if negb (v =? BLOCKED) && negb (v =? winningColor) then winningColor else v.

Definition forfeitBoard (winningColor : Z) (b : Board) : Board :=
  map (map (forfeitCell winningColor)) b.

(** [checkTimeLimit(player, timeUsed)]: the engine state afterwards, the
    return value, and what [endGame] reported. *)
Definition checkTimeLimit (st : state) (player : Z) (timeUsed : Q)
  : state * bool * option gameResult :=
  if overBudget timeUsed then
    let opponent := otherPlayer player in
    let st1 := with_board st (forfeitBoard opponent (board st)) in
    let '(st2, res) := endGame st1 (Some opponent) in
    (st2, true, res)
  else (st, false, None).

End OthelloUI.

(** ** game-controller.js *)

Module GameController.

Import OthelloCore.

(** The private variables of the module, with the engine they drive. *)
Record state := mkCtl {
  core : OthelloCore.state;
  blackTimeUsed : Q;
  whiteTimeUsed : Q
}.

Definition with_core (st : state) (c : OthelloCore.state) : state :=
  mkCtl c (blackTimeUsed st) (whiteTimeUsed st).

(** [player === BLACK ? blackTimeUsed : whiteTimeUsed] *)
Definition timeUsed (st : state) (player : Z) : Q :=
  if player =? BLACK then blackTimeUsed st else whiteTimeUsed st.

(** [if (player === BLACK) blackTimeUsed += dt; else whiteTimeUsed += dt] *)
Definition addTime (st : state) (player : Z) (dt : Q) : state :=
  if player =? BLACK
  then mkCtl (core st) (blackTimeUsed st + dt)%Q (whiteTimeUsed st)
  else mkCtl (core st) (blackTimeUsed st) (whiteTimeUsed st + dt)%Q.

(** [validMoves[Math.floor(Math.random() * validMoves.length)]], where
    [rnd] is what [Math.random()] returned (a number in [0, 1), multiplied
    exactly); [None] is [undefined]. *)
Definition randomMove (validMoves : list Move) (rnd : Q) : option Move :=
  let i := Qfloor (rnd * inject_Z (Z.of_nat (length validMoves))) in
  if i <? 0 then None else validMoves !! Z.to_nat i.

(** [move && validMoves.some(v => v.row === move.row && v.col === move.col)] *)
Definition isReturnedMoveInList (validMoves : list Move) (move : option Move)
  : bool :=
  match move with
  | None => false
  | Some m =>
      existsb (fun v => (row v =? row m) && (col v =? col m)) validMoves
  end.

(** [!move] *)
Definition isNull (move : option Move) : bool :=
  match move with None => true | Some _ => false end.

(** How a call of [makeAIMove] ends: it returns for good, or it has called
    [makeAIMove] again for the next turn. *)
Inductive control := Halt | Reenter.

(** The steps shared by both fallback paths and the normal path:
    [makeMove], [determineNextPlayer], [setCurrentPlayer], then
    [makeAIMove] again. *)
Definition applyAndAdvance (st : state) (m : Move) (player : Z)
  : state * control :=
  let c1 := mr_state (makeMove (core st) (row m) (col m) player) in
  let nextPlayer := determineNextPlayer c1 in
  (with_core st (setCurrentPlayer c1 nextPlayer), Reenter).

(** A player without a legal move: end the game when the opponent has none
    either, otherwise pass. *)
Definition passOrEnd (st : state) (player : Z) : state * control :=
  let opponent := otherPlayer player in
  if Nat.eqb (length (getValidMoves (core st) opponent (board (core st)))) 0
  then (with_core st (fst (endGame (core st) None)), Halt)
  else (with_core st (setCurrentPlayer (core st) opponent), Reenter).

(** [useFallbackMove(player, isTournament)] *)
Definition useFallbackMove (st : state) (player : Z) (rnd : Q)
  : state * control :=
  let validMoves := getValidMoves (core st) player (board (core st)) in
  if Nat.eqb (length validMoves) 0 then passOrEnd st player
  else
    let randomStrategyTime : Q := 100%Q in
    let st1 := addTime st player randomStrategyTime in
    let '(c2, over, _) :=
      OthelloUI.checkTimeLimit (core st1) player (timeUsed st1 player) in
    if over then (with_core st1 c2, Halt)
    else
      match randomMove validMoves rnd with
      | Some m => applyAndAdvance st1 m player
      | None => (st1, Halt)      (* [randomMove.row] of undefined raises *)
      end.

(** A call [makeMove(row, col, player)] that a strategy makes of the function
    it is handed, with whole numbers as arguments. *)
Record moveCall := mkCall {
  call_row : Z;
  call_col : Z;
  call_player : Z
}.

(** The function handed to a strategy as its fourth argument is
    [OthelloCore.makeMove] itself: each call of it acts on the engine of the
    running game. *)
Definition strategyCalls (c : OthelloCore.state) (calls : list moveCall)
  : OthelloCore.state :=
  fold_left
    (fun c k =>
       mr_state (makeMove c (call_row k) (call_col k) (call_player k)))
    calls c.

(** What one invocation of a strategy yields to the scheduler: the value
    the race of the strategy against its deadline resolved to ([None] is
    [null]: the strategy returned nothing, raised, or lost the race), the
    wall-clock time the race took, and the value of [Math.random()] should the
    scheduler draw one.  The strategy is handed a copy of the board, but the
    very array of legal moves that the scheduler goes on to use, and the
    engine's own [makeMove]: [movesLeft] is what that array holds when the
    race has resolved, and [makeMoveCalls] are the calls of [makeMove] the
    strategy has made by then, in order.  (What a strategy does through
    the globals of the page, or after the race has resolved, is not
    modelled.) *)
Record plyInput := mkPly {
  returnedMove : option Move;
  moveTime : Q;
  randomDraw : Q;
  movesLeft : list Move;
  makeMoveCalls : list moveCall
}.

(** The callback that [makeAIMove] schedules once the current player has a
    strategy and legal moves: the body of its [try] block.  The array
    [validMoves] was computed before the strategy ran and handed to it; from
    the call on, the scheduler reads from it what the strategy left there,
    and acts on the engine as the strategy left it.  (OthelloUI is present:
    [makeAIMove] dereferences it at its entry.  The [catch] block, reached only
    when a display call raises, is not modelled.) *)
Definition strategyPly (st : state) (currentPlayer : Z) (inp : plyInput)
  : state * control :=
  if negb (gameRunning (core st)) || gameOver (core st) then (st, Halt)
  else
    let st0 := with_core st (strategyCalls (core st) (makeMoveCalls inp)) in
    let validMoves := movesLeft inp in
    let st1 := addTime st0 currentPlayer (moveTime inp) in
    let '(c2, over, _) :=
      OthelloUI.checkTimeLimit (core st1) currentPlayer
        (timeUsed st1 currentPlayer) in
    if over then (with_core st1 c2, Halt)
    else
      let move := returnedMove inp in
      if isNull move || negb (isReturnedMoveInList validMoves move)
      then
        match randomMove validMoves (randomDraw inp) with
        | Some actualMove => applyAndAdvance st1 actualMove currentPlayer
        | None => useFallbackMove st1 currentPlayer (randomDraw inp)
        end
      else
        match move with
        | Some actualMove => applyAndAdvance st1 actualMove currentPlayer
        | None => (st1, Halt)
        end.

(** What the player's selector is bound to. *)
Inductive controller :=
  | NoSelector                      (* the select element is missing *)
  | Human
  | Strategy (compiled : bool).     (* did getCompiledStrategy yield a function *)

(** [makeAIMove(isTournament)], one call. *)
Definition makeAIMove (st : state) (ctl : controller) (inp : plyInput)
  : state * control :=
  if negb (gameRunning (core st)) || gameOver (core st) then (st, Halt)
  else
    let currentPlayer := OthelloCore.currentPlayer (core st) in
    match ctl with
    | NoSelector => (st, Halt)
    | Human => (st, Halt)
    | Strategy false => useFallbackMove st currentPlayer (randomDraw inp)
    | Strategy true =>
        let validMoves :=
          getValidMoves (core st) currentPlayer (board (core st)) in
        if Nat.eqb (length validMoves) 0 then passOrEnd st currentPlayer
        else strategyPly st currentPlayer inp
    end.

End GameController.


(** ** JavaScript strings *)

(** [hay.includes(needle)] *)
Fixpoint includes (needle hay : string) : bool :=
  String.prefix needle hay
  || match hay with
     | EmptyString => false
     | String _ rest => includes needle rest
     end.

(** [s.replace(/\.js$/, '')] *)
Definition stripJsSuffix (s : string) : string :=
  let n := String.length s in
  if (3 <=? n)%nat && String.eqb (String.substring (n - 3) 3 s) ".js"
  then String.substring 0 (n - 3) s
  else s.

(** [!s] for a string: only the empty string is falsy. *)
Definition isEmptyString (s : string) : bool :=
  match s with EmptyString => true | String _ _ => false end.

(** ** JavaScript objects used as tables *)

Module JsObject.

(** The property names an object literal inherits from [Object.prototype].
    Reading one of them from a table that has no property of its own by that
    name yields the inherited value: a function, or for '__proto__' the
    prototype itself.  That value is truthy and is not a string. *)
Definition inheritedNames : list string :=
  [ "constructor"; "__defineGetter__"; "__defineSetter__"; "hasOwnProperty";
    "__lookupGetter__"; "__lookupSetter__"; "isPrototypeOf";
    "propertyIsEnumerable"; "toString"; "valueOf"; "__proto__";
    "toLocaleString" ].

Definition isInherited (name : string) : bool :=
  existsb (String.eqb name) inheritedNames.

(** What [obj[name]] reads: a property of the table's own, the inherited
    value, or [undefined]. *)
Inductive read (A : Type) :=
  | Own (v : A)
  | Inherited
  | Missing.
Arguments Own {A} v.
Arguments Inherited {A}.
Arguments Missing {A}.

(** [obj[name]], for a table with the own properties [own]; [proto] tells
    whether its prototype is [Object.prototype] (it is, unless it was set to
    [null]). *)
Definition getFrom {A} (proto : bool) (own : gmap string A) (name : string)
  : read A :=
  match own !! name with
  | Some v => Own v
  | None => if proto && isInherited name then Inherited else Missing
  end.

(** [obj[name]] for a table whose prototype is [Object.prototype]. *)
Definition get {A} (own : gmap string A) (name : string) : read A :=
  getFrom true own name.

(** [obj[name] = v] for a value that is not an object (a string), on a table
    whose prototype is [Object.prototype]: under the name '__proto__' the
    assignment reaches the inherited setter, which ignores such a value,
    unless the table has a property of its own by that name. *)
Definition setPrimitive {A} (own : gmap string A) (name : string) (v : A)
  : gmap string A :=
  if String.eqb name "__proto__" && negb (bool_decide (is_Some (own !! name)))
  then own
  else <[name := v]> own.

End JsObject.

(** ** strategies.js: importing strategy files *)

Module OthelloStrategies.

(** [savedStrategies]: strategy name to source text (the table's own
    properties). *)
Record state := mkStrategies {
  savedStrategies : gmap string string
}.

(** The [try] block of [reader.onload] in [importStrategiesFromFiles]:
    [inl name] when the file is stored under [name], [inr message] when one
    of the [throw]s is reached. *)
Definition checkStrategyFile (fileName code : string) : string + string :=
  let name := stripJsSuffix fileName in
  if isEmptyString code || isEmptyString name
  then inr "Empty file or invalid name"
  else if negb (includes "studentStrategy" code)
          && negb (includes "function(" code)
  then inr "The file must implement a 'studentStrategy' function"
  else if includes "analyzeStage" code
  then inr "Do not upload intelligent system here"
  else inl name.

(** One file of [importStrategiesFromFiles]: the registry afterwards and
    whether the file counted as a success. *)
Definition importStrategyFile (st : state) (fileName code : string)
  : state * bool :=
  match checkStrategyFile fileName code with
  | inl name =>
      (mkStrategies (JsObject.setPrimitive (savedStrategies st) name code),
       true)
  | inr _ => (st, false)
  end.

End OthelloStrategies.

(** ** intelligent-system-loader.js and app.js: the analysis pipeline *)

Module IntelligentSystemInterface.

(** What calling a strategy function does: it returns a move or [null], or
    it raises. *)
Inductive callResult :=
  | Returned (m : option Move)
  | Raised.

(** A strategy function [(board, player, validMoves, makeMove) => move].
    The last argument here is the value [Math.random()] takes during the
    call, for the strategies that draw one. *)
Definition StrategyFn := Board -> Z -> list Move -> Q -> callResult.

(** The value an analysis function returns, as far as
    [typeof result === 'function'] tells. *)
Inductive jsValue :=
  | VFunction (f : StrategyFn)
  | VOther.

(** What running the compiled [analyzeStage] on a stage does. *)
Inductive analysisRun :=
  | AnalysisReturned (v : jsValue)
  | AnalysisRaised.

(** The test both [uploadIntelligentSystem] (app.js) and
    [analyzeStageWithSystem] apply to the uploaded text. *)
Definition hasAnalyzeStage (code : string) : bool :=
  includes "function analyzeStage" code || includes "analyzeStage =" code.

(** The strategy [analyzeStageWithSystem] substitutes when the analysis did
    not return a function. *)
Definition fallbackStrategy : StrategyFn :=
  fun _ _ validMoves rnd =>
    if Nat.eqb (length validMoves) 0 then Returned None
    else Returned (GameController.randomMove validMoves rnd).

(** [s.replace(/\s+/g, '_')] for the whitespace of ASCII. *)
Definition isSpace (a : ascii) : bool :=
  let n := nat_of_ascii a in
  ((9 <=? n) && (n <=? 13))%nat || (n =? 32)%nat.

Fixpoint underscoreSpaces (inRun : bool) (s : string) : string :=
  match s with
  | EmptyString => EmptyString
  | String a rest =>
      if isSpace a
      then if inRun then underscoreSpaces true rest
           else String "_" (underscoreSpaces true rest)
      else String a (underscoreSpaces false rest)
  end.

Definition generatedStrategyName (systemName : string) (cfg : StageConfig)
  : string :=
  "intelligent_" +:+ systemName +:+ "_" +:+ underscoreSpaces false (name cfg).

(** [window.compiledIntelligentSystems] *)
Abbreviation registry := (gmap string StrategyFn).

Section Analysis.

(** [compileSystem(systemCode)] evaluates the uploaded text and yields its
    [analyzeStage] when that is a function.  Evaluating JavaScript is outside
    the embedding: the compiler is a parameter, and so is what the compiled
    function does when it is called with the stage, the initial board, the
    initial legal moves and the environment API. *)
Variable compileSystem : string -> option (StageConfig -> analysisRun).

(** [analyzeStageWithSystem(systemName, stageConfig, systemCode)]: the
    registry afterwards and the return value.  (The function also saves, in
    the strategy store, the text of a wrapper that looks the registered
    function up by the generated name; that text is not modelled.) *)
Definition analyzeStageWithSystem (reg : registry) (systemName : string)
  (stageConfig : StageConfig) (systemCode : string) : registry * bool :=
  if isEmptyString systemCode then (reg, false)
  else if negb (hasAnalyzeStage systemCode) then (reg, false)
  else
    match compileSystem systemCode with
    | None => (reg, false)
    | Some analyzeStageFunc =>
        match analyzeStageFunc stageConfig with
        | AnalysisRaised => (reg, false)
        | AnalysisReturned result =>
            let strategyFunction :=
              match result with
              | VFunction f => f
              | VOther => fallbackStrategy
              end in
            (<[generatedStrategyName systemName stageConfig
                 := strategyFunction]> reg, true)
        end
    end.

(** [uploadIntelligentSystem()] of app.js once the file is read: the same
    textual test, then the analysis. *)
Definition uploadIntelligentSystem (reg : registry) (fileName code : string)
  (stageConfig : StageConfig) : registry * bool :=
  let systemName := stripJsSuffix fileName in
  if negb (hasAnalyzeStage code) then (reg, false)
  else analyzeStageWithSystem reg systemName stageConfig code.

End Analysis.

End IntelligentSystemInterface.


(** ** game-controller.js: starting and resetting a game *)

Module GameSession.

Import OthelloCore.

(** [stageConfig], or when it is null [stages[selectedIndex] || stages[0]]
    for the index the stage selector holds. *)
Definition chosenStage (stageConfig : option StageConfig) (selectedIndex : Z)
  : StageConfig :=
  match stageConfig with
  | Some s => s
  | None =>
      match (if selectedIndex <? 0 then None
             else stages !! Z.to_nat selectedIndex) with
      | Some s => s
      | None => stage_standard
      end
  end.

(** [startGame(isTournament, stageConfig)] up to the point where it
    schedules the first [makeAIMove]. *)
Definition startGame (st : GameController.state)
  (stageConfig : option StageConfig) (selectedIndex : Z)
  : GameController.state :=
  let cfg := chosenStage stageConfig selectedIndex in
  let c1 := initializeBoard (GameController.core st) (Some cfg) false in
  let c2 := setGameRunning c1 true in
  let c3 := setCurrentPlayer c2 BLACK in
  GameController.mkCtl c3 0 0.

(** [resetGame(stageConfig, isPreview)]; the two clocks are not touched. *)
Definition resetGame (st : GameController.state)
  (stageConfig : option StageConfig) (selectedIndex : Z) (isPreview : bool)
  : GameController.state :=
  let c0 := setGameRunning (GameController.core st) false in
  let cfg := chosenStage stageConfig selectedIndex in
  let c1 := initializeBoard c0 (Some cfg) isPreview in
  GameController.with_core st (setCurrentPlayer c1 BLACK).

End GameSession.

(** ** game-ui.js: a click on the board *)

Module OthelloUIEvents.

Import OthelloCore.

(** [handleHumanMove(event)].  [blackHuman] and [whiteHuman] tell whether the
    selector of that colour reads 'human', [aiThinking] is the module's flag,
    and [cell] is the cell the click landed on ([None] when
    [event.target.closest('.cell')] is null).  The result tells whether
    [GameController.makeAIMove] is called at the end. *)
Definition handleHumanMove (st : state) (blackHuman whiteHuman : bool)
  (aiThinking : bool) (cell : option (Z * Z))
  : state * GameController.control :=
  let currentPlayer := currentPlayer st in
  let isHumanTurn :=
    ((currentPlayer =? BLACK) && blackHuman)
    || ((currentPlayer =? WHITE) && whiteHuman) in
  if negb isHumanTurn || negb (gameRunning st) || gameOver st
  then (st, GameController.Halt)
  else if negb aiThinking
          && Nat.eqb (length (getValidMoves st currentPlayer (board st))) 0
  then
    let opponent := otherPlayer currentPlayer in
    if Nat.eqb (length (getValidMoves st opponent (board st))) 0
    then (fst (endGame st None), GameController.Halt)
    else (setCurrentPlayer st opponent, GameController.Reenter)
  else
    match cell with
    | None => (st, GameController.Halt)
    | Some (row, col) =>
        if aiThinking then (st, GameController.Halt)
        else if isValidMove st row col currentPlayer (board st) then
          let st1 := mr_state (makeMove st row col currentPlayer) in
          let previousPlayer := currentPlayer in
          let nextPlayer := determineNextPlayer st1 in
          let st2 := setCurrentPlayer st1 nextPlayer in
          let st3 :=
            if (previousPlayer =? nextPlayer)
               && Nat.eqb
                    (length (getValidMoves st2 nextPlayer (board st2))) 0
            then setCurrentPlayer st2 (otherPlayer nextPlayer)
            else st2 in
          if Nat.eqb (length (getValidMoves st3 BLACK (board st3))) 0
             && Nat.eqb (length (getValidMoves st3 WHITE (board st3))) 0
          then (fst (endGame st3 None), GameController.Halt)
          else (st3, GameController.Reenter)
        else (st, GameController.Halt)
    end.

End OthelloUIEvents.

(** ** Runs of opponent discs *)

(** The loop
    [while (r >= 0 && r < size && c >= 0 && c < size && b[r][c] === opponent)]
    that [isValidMove] and [simulateMove] of intelligent-system-loader.js and
    the greedy strategy of strategies.js all run from the cell next to a
    move: the cells it pushes and the position at which it stops.  One unit
    of [fuel] is one test of the loop condition; a run on a board of [size]
    rows leaves it within [size] steps. *)
Fixpoint opponentRun (size : Z) (b : Board) (opponent dr dc : Z)
  (fuel : nat) (r c : Z) (toFlip : list (Z * Z))
  : list (Z * Z) * (Z * Z) :=
  match fuel with
  | O => (toFlip, (r, c))
  | S fuel' =>
      if OthelloCore.isWithinBoard size r c && cellIs b r c opponent
      then opponentRun size b opponent dr dc fuel' (r + dr) (c + dc)
             (toFlip ++ [(r, c)])
      else (toFlip, (r, c))
  end.

(** The loop followed by the test all three put after it,
    [toFlip.length > 0 && (r, c) inside && b[r][c] === player]: the run when
    it is closed by a disc of [player], nothing otherwise.  ([isValidMove]
    keeps a flag [foundOpponent] in place of the array; the flag is set
    exactly when a cell is pushed.) *)
Definition capturedRun (size : Z) (b : Board) (player row col : Z)
  (d : Z * Z) : option (list (Z * Z)) :=
  let run := opponentRun size b (otherPlayer player) (fst d) (snd d)
               (OthelloCore.scanFuel size) (row + fst d) (col + snd d) [] in
  let toFlip := fst run in
  let r := fst (snd run) in
  let c := snd (snd run) in
  if (0 <? Z.of_nat (length toFlip))
     && OthelloCore.isWithinBoard size r c && cellIs b r c player
  then Some toFlip else None.

(** [if (inside) b[p.r][p.c] = v], the body of the [forEach] loops that fill
    a board without looking at what the cell holds. *)
Definition placeOver (size v : Z) (b : Board) (p : Pos) : Board :=
  if OthelloCore.isWithinBoard size (pos_r p) (pos_c p)
  then setCell b (pos_r p) (pos_c p) v
  else b.

(** ** intelligent-system-loader.js: the board functions handed to an
    analysis *)

Module IntelligentSystemBoard.

(** [createInitialBoard(stageConfig)]; [None] is the [null] returned for a
    missing configuration. *)
Definition createInitialBoard (stageConfig : option StageConfig)
  : option Board :=
  match stageConfig with
  | None => None
  | Some cfg =>
      let boardSize := OthelloCore.stageBoardSize cfg in
      let b0 := newSquare boardSize 0 in
      let b1 := fold_left (placeOver boardSize 3) (initialBlocked cfg) b0 in
      let b2 := fold_left (placeOver boardSize 1) (initialPlayer1 cfg) b1 in
      Some (fold_left (placeOver boardSize 2) (initialPlayer2 cfg) b2)
  end.

(** [isValidMove(board, row, col, player)] for a board that is not null. *)
Definition isValidMove (b : Board) (row col player : Z) : bool :=
  let boardSize := Z.of_nat (length b) in
  if (row <? 0) || (boardSize <=? row) || (col <? 0) || (boardSize <=? col)
  then false
  else if negb (cellIs b row col 0) then false
  else
    existsb
      (fun d : Z * Z =>
         match capturedRun boardSize b player row col d with
         | Some _ => true
         | None => false
         end)
      directions.

(** [getValidMoves(board, player)] *)
Definition getValidMoves (b : Board) (player : Z) : list Move :=
  let boardSize := Z.of_nat (length b) in
  r ← seqZ 0 boardSize;
  c ← seqZ 0 boardSize;
  if isValidMove b r c player then [mkMove r c] else [].

(** One round of the loop over the directions in [simulateMove]: the result
    board and [capturedCount]. *)
Definition simulateDir (boardSize player row col : Z)
  (s : Board * Z) (d : Z * Z) : Board * Z :=
  match capturedRun boardSize (fst s) player row col d with
  | Some toFlip =>
      (OthelloCore.flipAll (fst s) player toFlip,
       snd s + Z.of_nat (length toFlip))
  | None => s
  end.

(** [simulateMove(board, player, row, col)]: [None] is [{ valid: false }],
    [Some (resultingBoard, capturedCount)] a valid result.  The argument
    board is copied first and is not changed. *)
Definition simulateMove (b : Board) (player row col : Z)
  : option (Board * Z) :=
  if negb (isValidMove b row col player) then None
  else
    let boardSize := Z.of_nat (length b) in
    let resultBoard := setCell b row col player in
    Some (fold_left (simulateDir boardSize player row col) directions
            (resultBoard, 0)).

End IntelligentSystemBoard.

(** ** strategies.js: the built-in strategies and the strategy store *)

Module Strategies.

Import IntelligentSystemInterface.

(** *** Built-in strategies *)

Definition random : StrategyFn :=
  fun _ _ validMoves rnd =>
    if Nat.eqb (length validMoves) 0 then Returned None
    else Returned (GameController.randomMove validMoves rnd).

(** [currentFlips] of the greedy strategy for one move: the lengths of the
    closed runs around it on the board with the mover's disc placed. *)
Definition countFlips (tempBoard : Board) (player : Z) (move : Move) : Z :=
  fold_left
    (fun currentFlips d =>
       match capturedRun (Z.of_nat (length tempBoard)) tempBoard player
               (row move) (col move) d with
       | Some piecesToFlip => currentFlips + Z.of_nat (length piecesToFlip)
       | None => currentFlips
       end)
    directions 0.

(** The body of the loop over [validMoves]: [bestMove] and [maxFlips], or
    [None] once [tempBoard[move.row][move.col] = player] has raised because
    the board has no row [move.row].  (For a column outside the row the
    source adds a cell to the copy; the runs on a square board never read
    it, and the list update does nothing there.) *)
Definition greedyStep (b : Board) (player : Z)
  (acc : option (option Move * Z)) (move : Move)
  : option (option Move * Z) :=
  match acc with
  | None => None
  | Some (bestMove, maxFlips) =>
      if (row move <? 0) || (Z.of_nat (length b) <=? row move) then None
      else
        let tempBoard := setCell b (row move) (col move) player in
        let currentFlips := countFlips tempBoard player move in
        if maxFlips <? currentFlips then Some (Some move, currentFlips)
        else Some (bestMove, maxFlips)
  end.

Definition greedy : StrategyFn :=
  fun b player validMoves rnd =>
    if Nat.eqb (length validMoves) 0 then Returned None
    else
      match fold_left (greedyStep b player) validMoves (Some (None, -1)) with
      | None => Raised
      | Some (Some bestMove, _) => Returned (Some bestMove)
      | Some (None, _) =>
          Returned (GameController.randomMove validMoves rnd)
      end.

Definition isCorner (boardSize : Z) (mv : Move) : bool :=
  ((row mv =? 0) || (row mv =? boardSize - 1))
  && ((col mv =? 0) || (col mv =? boardSize - 1)).

Definition isEdge (boardSize : Z) (mv : Move) : bool :=
  (row mv =? 0) || (row mv =? boardSize - 1)
  || (col mv =? 0) || (col mv =? boardSize - 1).

Definition corners : StrategyFn :=
  fun b player validMoves rnd =>
    if Nat.eqb (length validMoves) 0 then Returned None
    else
      let boardSize := Z.of_nat (length b) in
      match List.filter (isCorner boardSize) validMoves with
      | corner :: _ => Returned (Some corner)
      | [] =>
          let edges := List.filter (isEdge boardSize) validMoves in
          if negb (Nat.eqb (length edges) 0)
          then Returned (GameController.randomMove edges rnd)
          else greedy b player validMoves rnd
      end.

(** The position weights for the 8x8 board. *)
Definition weights : list (list Z) :=
  [[120; -20; 20; 5; 5; 20; -20; 120];
   [-20; -40; -5; -5; -5; -5; -40; -20];
   [20; -5; 15; 3; 3; 15; -5; 20];
   [5; -5; 3; 3; 3; 3; -5; 5];
   [5; -5; 3; 3; 3; 3; -5; 5];
   [20; -5; 15; 3; 3; 15; -5; 20];
   [-20; -40; -5; -5; -5; -5; -40; -20];
   [120; -20; 20; 5; 5; 20; -20; 120]].

(** [score > bestScore], where [None] is [-Infinity]. *)
Definition exceeds (score : Z) (bestScore : option Z) : bool :=
  match bestScore with
  | None => true
  | Some s => s <? score
  end.

(** The body of the loop of the positional strategy: [bestMove] and
    [bestScore], or [None] once [weights[move.row][move.col]] has raised
    because [weights] has no row [move.row].  A column outside the row reads
    [undefined], which exceeds nothing. *)
Definition positionalStep (acc : option (option Move * option Z))
  (move : Move) : option (option Move * option Z) :=
  match acc with
  | None => None
  | Some (bestMove, bestScore) =>
      if (row move <? 0) || (8 <=? row move) then None
      else
        match cellAt weights (row move) (col move) with
        | Some score =>
            if exceeds score bestScore then Some (Some move, Some score)
            else Some (bestMove, bestScore)
        | None => Some (bestMove, bestScore)
        end
  end.

Definition positional : StrategyFn :=
  fun b player validMoves rnd =>
    if Nat.eqb (length validMoves) 0 then Returned None
    else if negb (Nat.eqb (length b) 8) then greedy b player validMoves rnd
    else
      match fold_left positionalStep validMoves (Some (None, None)) with
      | None => Raised
      | Some (bestMove, _) => Returned bestMove
      end.

(** The table [builtInStrategies]: its own properties. *)
Definition builtInStrategies (controllerId : string) : option StrategyFn :=
  if String.eqb controllerId "random" then Some random
  else if String.eqb controllerId "greedy" then Some greedy
  else if String.eqb controllerId "corners" then Some corners
  else if String.eqb controllerId "positional" then Some positional
  else None.

(** *** The strategy store *)

(** [savedStrategies] and [compiledStudentAIs]: the own properties of the
    two tables.  A text is a string; an entry of the cache is a function or
    [null], which is [None].  Both tables are object literals and inherit
    from [Object.prototype]; the cache stops doing so when [saveStrategy]
    assigns [null] to its '__proto__', which [compiledInherits] records. *)
Record store := mkStore {
  savedStrategies : gmap string string;
  compiledStudentAIs : gmap string (option StrategyFn);
  compiledInherits : bool
}.

(** [savedStrategies[name]] *)
Definition savedCode (st : store) (name : string) : JsObject.read string :=
  JsObject.get (savedStrategies st) name.

(** [compiledStudentAIs[name]] *)
Definition compiledEntry (st : store) (name : string)
  : JsObject.read (option StrategyFn) :=
  JsObject.getFrom (compiledInherits st) (compiledStudentAIs st) name.

(** [compiledStudentAIs[name] = null]: under the name '__proto__', while
    the cache inherits from [Object.prototype] and has no property of its own
    by that name, the assignment reaches the inherited setter and removes the
    prototype of the cache. *)
Definition clearCompiled (st : store) (name : string)
  : gmap string (option StrategyFn) * bool :=
  if String.eqb name "__proto__" && compiledInherits st
     && negb (bool_decide (is_Some (compiledStudentAIs st !! name)))
  then (compiledStudentAIs st, false)
  else (<[name := None]> (compiledStudentAIs st), compiledInherits st).

(** [saveStrategy(name, code)] *)
Definition saveStrategy (st : store) (name code : string) : store * bool :=
  if isEmptyString name || isEmptyString code then (st, false)
  else
    let '(compiled, inherits) := clearCompiled st name in
    (mkStore (JsObject.setPrimitive (savedStrategies st) name code)
       compiled inherits,
     true).

(** [deleteStrategy(name)].  The test [!savedStrategies[name]] passes for
    an inherited value too; [delete] removes own properties only. *)
Definition deleteStrategy (st : store) (name : string) : store * bool :=
  let deleted :=
    mkStore (delete name (savedStrategies st))
      (delete name (compiledStudentAIs st)) (compiledInherits st) in
  match savedCode st name with
  | JsObject.Own code => if isEmptyString code then (st, false)
                         else (deleted, true)
  | JsObject.Inherited => (deleted, true)
  | JsObject.Missing => (st, false)
  end.

(** What a read of the store hands back: a value of the expected kind, a
    value every object inherits (a function of [Object.prototype], or the
    prototype itself), or [null]. *)
Inductive found (A : Type) :=
  | Value (v : A)
  | InheritedValue
  | Null.
Arguments Value {A} v.
Arguments InheritedValue {A}.
Arguments Null {A}.

(** [getStrategyCode(name)]: [savedStrategies[name] || null] *)
Definition getStrategyCode (st : store) (name : string) : found string :=
  match savedCode st name with
  | JsObject.Own code => if isEmptyString code then Null else Value code
  | JsObject.Inherited => InheritedValue
  | JsObject.Missing => Null
  end.

Section Compile.

(** [new Function(...)] on the stored text: the function when the text
    parses, nothing when the constructor raises. *)
Variable compileStrategy : string -> option StrategyFn.

(** [getCompiledStrategy(controllerId, player)]: the store afterwards and
    what is returned.  A truthy cache entry is returned as it is, an
    inherited value included.  When the store reads an inherited value as
    the text, [new Function] is given the text of a native function or
    '[object Object]', which does not parse: the constructor raises and
    [null] is returned. *)
Definition getCompiledStrategy (st : store) (controllerId : string)
  : store * found StrategyFn :=
  if String.prefix "custom_" controllerId then
    let strategyName :=
      String.substring 7 (String.length controllerId - 7) controllerId in
    let compile :=
      match savedCode st strategyName with
      | JsObject.Own code =>
          if isEmptyString code then (st, Null)
          else
            match compileStrategy code with
            | Some compiledFunc =>
                (mkStore (savedStrategies st)
                   (<[strategyName := Some compiledFunc]>
                      (compiledStudentAIs st))
                   (compiledInherits st),
                 Value compiledFunc)
            | None => (st, Null)
            end
      | JsObject.Inherited => (st, Null)
      | JsObject.Missing => (st, Null)
      end in
    match compiledEntry st strategyName with
    | JsObject.Own (Some f) => (st, Value f)
    | JsObject.Inherited => (st, InheritedValue)
    | JsObject.Own None => compile
    | JsObject.Missing => compile
    end
  else
    match builtInStrategies controllerId with
    | Some f => (st, Value f)
    | None =>
        if JsObject.isInherited controllerId then (st, InheritedValue)
        else (st, Null)
    end.

End Compile.

End Strategies.

(** ** game-rollout.js: the board a replay starts from *)

Module GameRollout.

(** [createBasicBoard(stageConfig)] *)
Definition createBasicBoard (stageConfig : StageConfig) : Board :=
  let size := OthelloCore.stageBoardSize stageConfig in
  let b0 := newSquare size 0 in
  let b1 := fold_left (placeOver size 1) (initialPlayer1 stageConfig) b0 in
  let b2 := fold_left (placeOver size 2) (initialPlayer2 stageConfig) b1 in
  fold_left (placeOver size 3) (initialBlocked stageConfig) b2.

End GameRollout.

(** ** game-logger.js *)

Module GameLogger.

(** An entry [{ player, position }] of [moves]. *)
Record moveEntry := mkEntry { player : Z; position : Move }.

(** The fields of the instance.  Dates are left out. *)
Record gameLogs := mkLogs {
  logs_moves : list moveEntry;
  logs_boards : list Board;
  logs_players : list Z;
  logs_capturedCounts : list Z
}.

Record metadata := mkMetadata {
  meta_blackStrategy : string;
  meta_whiteStrategy : string;
  meta_stage : string;
  meta_blackScore : Z;
  meta_whiteScore : Z
}.

(** An element of [previousGames]. *)
Record savedGame := mkSavedGame {
  saved_logs : gameLogs;
  logText : string;
  saved_metadata : metadata
}.

(** An element of [gameResults]. *)
Record result := mkResult {
  blackScore : Z;
  whiteScore : Z;
  blackStrategy : string;
  whiteStrategy : string;
  stage : string;
  winner : Z;
  totalMoves : Z
}.

Record logger := mkLogger {
  moves : list moveEntry;
  boardStates : list Board;
  currentPlayer : list Z;
  capturedCounts : list Z;
  gameResults : list result;
  previousGames : list savedGame
}.

(** [new GameLogger()] *)
Definition create : logger := mkLogger [] [] [] [] [] [].

(** [logMove(player, position, resultingBoard, capturedCount)]; the board is
    copied, so later moves do not change what was logged. *)
Definition logMove (lg : logger) (player : Z) (position : Move)
  (resultingBoard : Board) (capturedCount : Z) : logger :=
  mkLogger (moves lg ++ [mkEntry player position])
    (boardStates lg ++ [resultingBoard])
    (currentPlayer lg ++ [player])
    (capturedCounts lg ++ [capturedCount])
    (gameResults lg) (previousGames lg).

(** [getLogs()] *)
Definition getLogs (lg : logger) : gameLogs :=
  if negb (Nat.eqb (length (moves lg)) 0)
  then mkLogs (moves lg) (boardStates lg) (currentPlayer lg)
         (capturedCounts lg)
  else
    match last (previousGames lg) with
    | Some lastGame => saved_logs lastGame
    | None => mkLogs [] [] [] []
    end.

(** [reset()] *)
Definition reset (lg : logger) : logger :=
  mkLogger [] [] [] [] (gameResults lg) (previousGames lg).

(** [x || fallback] for a string. *)
Definition orDefault (x fallback : string) : string :=
  if isEmptyString x then fallback else x.

(** [saveGameWithLog(blackScore, whiteScore, blackStrategy, whiteStrategy,
    stageConfig, moveLogArray)]: the instance afterwards and the result
    returned. *)
Definition saveGameWithLog (lg : logger) (blackScore whiteScore : Z)
  (blackStrategy whiteStrategy : string) (stageConfig : option StageConfig)
  (moveLogArray : list string) : logger * result :=
  let blackStrategy := orDefault blackStrategy "Black" in
  let whiteStrategy := orDefault whiteStrategy "White" in
  let stageName :=
    match stageConfig with
    | Some cfg => orDefault (name cfg) "Unknown Stage"
    | None => "Unknown Stage"
    end in
  let gameLogText := String.concat (String "010" EmptyString) moveLogArray in
  let game :=
    mkSavedGame
      (mkLogs (moves lg) (boardStates lg) (currentPlayer lg)
         (capturedCounts lg))
      gameLogText
      (mkMetadata blackStrategy whiteStrategy stageName blackScore
         whiteScore) in
  let result :=
    mkResult blackScore whiteScore blackStrategy whiteStrategy stageName
      (if whiteScore <? blackScore then BLACK
       else if blackScore <? whiteScore then WHITE else 0)
      (Z.of_nat (length (moves lg))) in
  (reset
     (mkLogger (moves lg) (boardStates lg) (currentPlayer lg)
        (capturedCounts lg) (gameResults lg ++ [result])
        (previousGames lg ++ [game])),
   result).

(** [getBoardAtMove(moveIndex)] *)
Definition getBoardAtMove (lg : logger) (moveIndex : Z) : option Board :=
  if (0 <=? moveIndex) && (moveIndex <? Z.of_nat (length (boardStates lg)))
  then boardStates lg !! Z.to_nat moveIndex
  else None.

(** [getPlayerAtMove(moveIndex)] *)
Definition getPlayerAtMove (lg : logger) (moveIndex : Z) : option Z :=
  if (0 <=? moveIndex) && (moveIndex <? Z.of_nat (length (currentPlayer lg)))
  then currentPlayer lg !! Z.to_nat moveIndex
  else None.

(** What [OthelloCore.makeMove(row, col, player)] does to the logger: nothing
    when it returns at its guard, one [logMove] with a copy of the board and
    [capturedPieces.length] otherwise, whether or not a disc was flipped. *)
Definition logMakeMove (lg : logger) (st : OthelloCore.state)
  (row col player : Z) : logger :=
  if negb (OthelloCore.isWithinBoard (OthelloCore.BOARD_SIZE st) row col)
     || negb (cellIs (OthelloCore.board st) row col EMPTY)
  then lg
  else
    let res := OthelloCore.makeMove st row col player in
    logMove lg player (mkMove row col)
      (OthelloCore.board (OthelloCore.mr_state res))
      (Z.of_nat (length (OthelloCore.mr_captured res))).

(** What [OthelloCore.endGame(winner)] does to the logger: nothing when the
    game is not running, otherwise one [saveGameWithLog] with the two counts
    of [countDiscs], the names the selectors show, the current stage and the
    text log. *)
Definition logEndGame (lg : logger) (st : OthelloCore.state)
  (blackName whiteName : string) (moveLog : list string) : logger :=
  if negb (OthelloCore.gameRunning st) then lg
  else
    let sc := OthelloCore.countDiscs (OthelloCore.board st) in
    fst (saveGameWithLog lg (OthelloCore.black sc) (OthelloCore.white sc)
           blackName whiteName (OthelloCore.currentStage st) moveLog).

(** What [OthelloUI.checkTimeLimit(player, timeUsed)] does to the logger:
    over the budget it repaints the board and calls [endGame], which saves the
    game. *)
Definition logCheckTimeLimit (lg : logger) (st : OthelloCore.state)
  (player : Z) (timeUsed : Q) (blackName whiteName : string)
  (moveLog : list string) : logger :=
  if OthelloUI.overBudget timeUsed then
    let opponent := otherPlayer player in
    logEndGame lg
      (OthelloCore.with_board st
         (OthelloUI.forfeitBoard opponent (OthelloCore.board st)))
      blackName whiteName moveLog
  else lg.

End GameLogger.

(** ** tournament.js: the leaderboard *)

Module Tournament.

(** An entry of [leaderboardData.results]. *)
Record tally := mkTally {
  wins : Z;
  losses : Z;
  draws : Z;
  totalGames : Z
}.

(** An entry of [leaderboardData.matches], without its date. *)
Record matchRecord := mkMatch {
  match_black : string;
  match_white : string;
  match_winner : Z;
  match_score : OthelloCore.scores
}.

Record leaderboardData := mkLeaderboard {
  matches : list matchRecord;
  results : gmap string tally
}.

(** [if (!results[name]) results[name] = { wins: 0, ... }].  [results] is
    an object literal: under a name every object inherits the read finds the
    inherited value, which is truthy, and no entry is created. *)
Definition ensureEntry (r : gmap string tally) (name : string)
  : gmap string tally :=
  match JsObject.get r name with
  | JsObject.Own _ => r
  | JsObject.Inherited => r
  | JsObject.Missing => <[name := mkTally 0 0 0 0]> r
  end.

Definition addWin (t : tally) : tally :=
  mkTally (wins t + 1) (losses t) (draws t) (totalGames t).
Definition addLoss (t : tally) : tally :=
  mkTally (wins t) (losses t + 1) (draws t) (totalGames t).
Definition addDraw (t : tally) : tally :=
  mkTally (wins t) (losses t) (draws t + 1) (totalGames t).
Definition addGame (t : tally) : tally :=
  mkTally (wins t) (losses t) (draws t) (totalGames t + 1).

(** [recordGameResult(blackName, whiteName, winner)], with the scores
    [countDiscs()] reads off the page.  [results[name].wins++] and the like
    update the entry the table has under the name; where the table has none
    of its own (an inherited name) they set a property of the inherited value
    and the table stays as it is. *)
Definition recordGameResult (data : leaderboardData)
  (blackName whiteName : string) (winner : Z) (scores : OthelloCore.scores)
  : leaderboardData :=
  let r0 := ensureEntry (ensureEntry (results data) blackName) whiteName in
  let r1 :=
    if winner =? 1 then alter addLoss whiteName (alter addWin blackName r0)
    else if winner =? 2
    then alter addWin whiteName (alter addLoss blackName r0)
    else alter addDraw whiteName (alter addDraw blackName r0) in
  let r2 := alter addGame whiteName (alter addGame blackName r1) in
  mkLeaderboard
    (matches data ++ [mkMatch blackName whiteName winner scores])
    r2.

End Tournament.


(** ** Vocabulary of the properties *)

Import OthelloCore.

(** A board is an [N] by [N] square. *)
Definition isSquare (N : Z) (b : Board) : bool :=
  (length b =? Z.to_nat N)%nat
  && forallb (fun cells => (length cells =? Z.to_nat N)%nat) b.

(** A player is Black or White. *)
Definition isPlayer (p : Z) : bool := (p =? BLACK) || (p =? WHITE).

(** Row-major order on moves: top to bottom, then left to right. *)
Definition rowMajorLt (m1 m2 : Move) : Prop :=
  row m1 < row m2 \/ (row m1 = row m2 /\ col m1 < col m2).

(** The list of placements names the coordinate [(x, y)]. *)
Definition listed (x y : Z) (l : list Pos) : bool :=
  existsb (fun p => (pos_r p =? x) && (pos_c p =? y)) l.

(** [needle] occurs in [hay] as a substring. *)
Definition contains (needle hay : string) : Prop :=
  exists pre post, hay = pre +:+ needle +:+ post.

(** The number of cells of a board that hold [v]. *)
Definition discs (v : Z) (b : Board) : Z :=
  Z.of_nat (length (filter (fun x => x = v) (concat b))).

(** What the board holds [k] steps from [(row, col)] in direction [d], and
    whether that cell is on the board. *)
Definition rayAt (b : Board) (row col : Z) (d : Z * Z) (k : Z) : option Z :=
  cellAt b (row + k * fst d) (col + k * snd d).

Definition rayWithin (N row col : Z) (d : Z * Z) (k : Z) : bool :=
  isWithinBoard N (row + k * fst d) (col + k * snd d).

(** The [k]-th cell from [(row, col)] in direction [d]. *)
Definition rayCell (row col : Z) (d : Z * Z) (k : Z) : Z * Z :=
  (row + k * fst d, col + k * snd d).

(** Every cell of a board holds one of the four cell states. *)
Definition cellsOk (b : Board) : bool :=
  forallb (forallb (fun v => (0 <=? v) && (v <=? 3))) b.

(** The engine is in order: its board is a square of its BOARD_SIZE whose
    cells hold cell states, and the player to move is Black or White. *)
Definition engineOk (st : OthelloCore.state) : bool :=
  isSquare (BOARD_SIZE st) (board st) && cellsOk (board st)
  && isPlayer (currentPlayer st).

(** The calls a strategy makes of the [makeMove] it is handed all name
    Black or White as the player. *)
Definition callsNamePlayers (inp : GameController.plyInput) : bool :=
  forallb (fun k => isPlayer (GameController.call_player k))
    (GameController.makeMoveCalls inp).

(** The states a session can be in: [startGame] on a stage of positive
    size, then any number of calls of [makeAIMove] and of clicks handled by
    [handleHumanMove], whatever the selectors and the clock do, and whatever
    the strategies return, leave in the list of moves they are handed or
    play with the [makeMove] they are handed, as long as they call it for
    Black or White. *)
Inductive reachable : GameController.state -> Prop :=
  | reach_start st stageConfig selectedIndex :
      0 < boardSize (GameSession.chosenStage stageConfig selectedIndex) ->
      reachable (GameSession.startGame st stageConfig selectedIndex)
  | reach_ai st ctl inp :
      reachable st ->
      callsNamePlayers inp = true ->
      reachable (fst (GameController.makeAIMove st ctl inp))
  | reach_click st blackHuman whiteHuman aiThinking cell :
      reachable st ->
      reachable
        (GameController.with_core st
           (fst (OthelloUIEvents.handleHumanMove (GameController.core st)
                   blackHuman whiteHuman aiThinking cell))).

(** At most one of the three lists of a stage names the cell [(x, y)]. *)
Definition namedOnce (cfg : StageConfig) (x y : Z) : bool :=
  negb (listed x y (initialBlocked cfg) && listed x y (initialPlayer1 cfg))
  && negb (listed x y (initialBlocked cfg) && listed x y (initialPlayer2 cfg))
  && negb (listed x y (initialPlayer1 cfg) && listed x y (initialPlayer2 cfg)).

(** The four arrays of the current game have one entry per move. *)
Definition aligned (lg : GameLogger.logger) : Prop :=
  length (GameLogger.boardStates lg) = length (GameLogger.moves lg)
  /\ length (GameLogger.currentPlayer lg) = length (GameLogger.moves lg)
  /\ length (GameLogger.capturedCounts lg) = length (GameLogger.moves lg).

(** A leaderboard entry adds up. *)
Definition tallyOk (t : Tournament.tally) : Prop :=
  Tournament.totalGames t
  = Tournament.wins t + Tournament.losses t + Tournament.draws t.

(** * Properties *)

(** ** Cells of a board *)

Lemma isSquare_spec N b :
  isSquare N b = true <->
  length b = Z.to_nat N /\ Forall (fun cells => length cells = Z.to_nat N) b.
Proof.
  unfold isSquare. rewrite andb_true_iff, Nat.eqb_eq, forallb_forall, Forall_forall.
  split; intros [H1 H2]; split; auto; intros x Hx.
  - apply Nat.eqb_eq, H2, list_elem_of_In, Hx.
  - apply Nat.eqb_eq, H2, list_elem_of_In, Hx.
Qed.

Lemma isWithinBoard_spec N r c :
  isWithinBoard N r c = true <-> 0 <= r < N /\ 0 <= c < N.
Proof. unfold isWithinBoard. lia. Qed.

Lemma cellAt_within N b r c :
  isSquare N b = true -> isWithinBoard N r c = true ->
  exists v, cellAt b r c = Some v.
Proof.
  intros [Hlen Hrows]%isSquare_spec [Hr Hc]%isWithinBoard_spec.
  unfold cellAt.
  replace ((r <? 0) || (c <? 0)) with false by lia.
  destruct (lookup_lt_is_Some_2 b (Z.to_nat r)) as [cells Hcells]; [lia|].
  rewrite Hcells. simpl.
  apply lookup_lt_is_Some_2.
  rewrite Forall_forall in Hrows.
  rewrite (Hrows cells); [lia|].
  eapply list_elem_of_lookup_2, Hcells.
Qed.

Lemma cellAt_setCell_ne b r c v r' c' :
  (r, c) <> (r', c') -> cellAt (setCell b r c v) r' c' = cellAt b r' c'.
Proof.
  intros Hne. unfold cellAt, setCell.
  destruct ((r' <? 0) || (c' <? 0)) eqn:Hneg'; [done|].
  destruct ((r <? 0) || (c <? 0)) eqn:Hneg; [done|].
  rewrite list_lookup_alter.
  destruct (decide (Z.to_nat r = Z.to_nat r')) as [Heq|Hd]; [|done].
  rewrite <- Heq.
  destruct (b !! Z.to_nat r) as [cells|]; simpl; [|done].
  apply list_lookup_insert_ne.
  intros Heqc. apply Hne. f_equal; lia.
Qed.

Lemma cellAt_setCell_eq b r c v :
  is_Some (cellAt b r c) -> cellAt (setCell b r c v) r c = Some v.
Proof.
  unfold cellAt, setCell.
  destruct ((r <? 0) || (c <? 0)) eqn:Hneg; [intros [? ?]; done|].
  rewrite list_lookup_alter.
  destruct (decide (Z.to_nat r = Z.to_nat r)); [|done].
  destruct (b !! Z.to_nat r) as [cells|]; simpl; [|intros [? ?]; done].
  intros Hsome. apply list_lookup_insert_eq.
  by apply lookup_lt_is_Some_1.
Qed.

Lemma isSquare_setCell N b r c v :
  isSquare N (setCell b r c v) = isSquare N b.
Proof.
  unfold isSquare, setCell.
  destruct ((r <? 0) || (c <? 0)); [done|].
  rewrite length_alter. f_equal.
  generalize (Z.to_nat r) as i. clear r.
  induction b as [|cells b IH]; intros [|i]; try done.
  - change (alter <[Z.to_nat c:=v]> 0%nat (cells :: b))
      with (<[Z.to_nat c:=v]> cells :: b).
    simpl. by rewrite length_insert.
  - change (alter <[Z.to_nat c:=v]> (S i) (cells :: b))
      with (cells :: alter <[Z.to_nat c:=v]> i b).
    simpl. by rewrite IH.
Qed.

Lemma cellIs_true b r c v : cellIs b r c v = true <-> cellAt b r c = Some v.
Proof.
  unfold cellIs. destruct (cellAt b r c) as [x|]; [|done].
  rewrite Z.eqb_eq. split; congruence.
Qed.

(** ** countDiscs and determineNextPlayer *)

Lemma countCell_fold cells acc :
  fold_left countCell cells acc =
  mkScores (black acc + discs BLACK [cells]) (white acc + discs WHITE [cells]).
Proof.
  unfold discs. simpl. rewrite app_nil_r.
  revert acc. induction cells as [|v cells IH]; intros [bl wh]; simpl.
  - f_equal; lia.
  - rewrite IH. unfold countCell. simpl.
    rewrite !filter_cons.
    destruct (Z.eqb_spec v BLACK) as [->|Hb].
    + simpl. f_equal; lia.
    + destruct (Z.eqb_spec v WHITE) as [->|Hw]; simpl.
      * f_equal; lia.
      * repeat case_decide; done.
Qed.

Lemma countDiscs_fold b acc :
  fold_left (fun acc cells => fold_left countCell cells acc) b acc =
  mkScores (black acc + discs BLACK b) (white acc + discs WHITE b).
Proof.
  revert acc. induction b as [|cells b IH]; intros acc; simpl.
  - unfold discs. simpl. destruct acc. f_equal; simpl; lia.
  - rewrite IH, countCell_fold. unfold discs. simpl.
    rewrite app_nil_r, !filter_app, !length_app. f_equal; lia.
Qed.

Lemma countDiscs_discs b :
  countDiscs b = mkScores (discs BLACK b) (discs WHITE b).
Proof. unfold countDiscs. rewrite countDiscs_fold. simpl. done. Qed.

(** C5.  When the stage's fewerPiecesContinue rule is off, the next player
    is always the other player.  When it is on, the next player is the one
    with strictly fewer discs on the board, so a mover who now has strictly
    fewer discs than the opponent moves again, and with equal counts the
    players alternate. *)
Theorem determineNextPlayer_rule (st : state) :
  isPlayer (currentPlayer st) = true ->
  let mover := currentPlayer st in
  let b := board st in
  otherPlayer BLACK = WHITE /\ otherPlayer WHITE = BLACK
  /\ (stageFewerPiecesContinue st = false ->
      determineNextPlayer st = otherPlayer mover)
  /\ (stageFewerPiecesContinue st = true ->
      (discs BLACK b < discs WHITE b -> determineNextPlayer st = BLACK)
      /\ (discs WHITE b < discs BLACK b -> determineNextPlayer st = WHITE)
      /\ (discs mover b < discs (otherPlayer mover) b ->
          determineNextPlayer st = mover)
      /\ (discs BLACK b = discs WHITE b ->
          determineNextPlayer st = otherPlayer mover)).
Proof.
  intros Hp mover b. unfold determineNextPlayer.
  rewrite countDiscs_discs. simpl. fold b mover.
  split; [done|]. split; [done|]. split.
  - intros ->. done.
  - intros ->. simpl.
    assert (Hm : mover = BLACK \/ mover = WHITE).
    { unfold isPlayer in Hp. fold mover in Hp. lia. }
    split; [|split; [|split]].
    + intros H. by replace (discs BLACK b <? discs WHITE b) with true by lia.
    + intros H.
      replace (discs BLACK b <? discs WHITE b) with false by lia.
      by replace (discs WHITE b <? discs BLACK b) with true by lia.
    + destruct Hm as [-> | ->]; unfold otherPlayer; simpl; intros H.
      * by replace (discs BLACK b <? discs WHITE b) with true by lia.
      * replace (discs BLACK b <? discs WHITE b) with false by lia.
        by replace (discs WHITE b <? discs BLACK b) with true by lia.
    + intros H.
      replace (discs BLACK b <? discs WHITE b) with false by lia.
      by replace (discs WHITE b <? discs BLACK b) with false by lia.
Qed.

Lemma determineNextPlayer_rule_witness :
  let st := mkState [[BLACK; WHITE]; [WHITE; EMPTY]] 2
              (Some (mkStage "two" 2 [] [] [] false true)) BLACK true false in
  determineNextPlayer st = BLACK.
Proof.
  intros st.
  destruct (determineNextPlayer_rule st) as (_ & _ & _ & Hon); [reflexivity|].
  destruct (Hon eq_refl) as (_ & _ & Hmover & _).
  apply Hmover. vm_compute. reflexivity.
Defined.

(** ** The time limit *)

Lemma overBudget_spec t :
  OthelloUI.overBudget t = true <-> (MAX_AI_TIME_PER_GAME < t)%Q.
Proof.
  unfold OthelloUI.overBudget. rewrite negb_true_iff.
  split.
  - intros H. apply Qnot_le_lt. intros Hle.
    apply Qle_bool_iff in Hle. congruence.
  - intros H. destruct (Qle_bool t MAX_AI_TIME_PER_GAME) eqn:E; [|done].
    apply Qle_bool_iff in E. exfalso. eapply Qlt_not_le; eauto.
Qed.

Lemma cellAt_map (f : Z -> Z) b r c :
  cellAt (map (map f) b) r c = f <$> cellAt b r c.
Proof.
  unfold cellAt. destruct ((r <? 0) || (c <? 0)); [done|].
  rewrite list_lookup_fmap.
  destruct (b !! Z.to_nat r) as [cells|]; simpl; [|done].
  apply list_lookup_fmap.
Qed.

(** C3.  When the time a player has used is checked in a running game and
    exceeds 10000 ms, the check reports the limit as exceeded, the game is
    over with the opponent as the winner, and every cell of the board that is
    not Blocked holds the opponent's colour (a Blocked cell stays
    Blocked). *)
Theorem checkTimeLimit_forfeit (st : state) (player : Z) (t : Q) :
  gameRunning st = true ->
  (MAX_AI_TIME_PER_GAME < t)%Q ->
  let out := OthelloUI.checkTimeLimit st player t in
  let st' := out.1.1 in
  out.1.2 = true
  /\ gameRunning st' = false /\ gameOver st' = true
  /\ res_winner <$> out.2 = Some (Some (otherPlayer player))
  /\ forall r c,
       cellAt (board st') r c =
       (fun v => if v =? BLOCKED then BLOCKED else otherPlayer player)
         <$> cellAt (board st) r c.
Proof.
  intros Hrun Ht. apply overBudget_spec in Ht.
  unfold OthelloUI.checkTimeLimit. rewrite Ht.
  unfold endGame. simpl. rewrite Hrun. simpl.
  repeat split.
  intros r c. unfold OthelloUI.forfeitBoard. rewrite cellAt_map.
  destruct (cellAt (board st) r c) as [v|]; simpl; [|done].
  f_equal. unfold OthelloUI.forfeitCell.
  destruct (Z.eqb_spec v BLOCKED); simpl; [done|].
  destruct (Z.eqb_spec v (otherPlayer player)); simpl; done.
Qed.

Lemma checkTimeLimit_forfeit_witness :
  let st := mkState [[BLACK; BLOCKED]; [EMPTY; WHITE]] 2 None BLACK true false in
  let out := OthelloUI.checkTimeLimit st BLACK 10001 in
  gameRunning st = true /\ (MAX_AI_TIME_PER_GAME < 10001)%Q
  /\ out.1.2 = true
  /\ cellAt (board out.1.1) 0 0 = Some WHITE
  /\ cellAt (board out.1.1) 0 1 = Some BLOCKED
  /\ cellAt (board out.1.1) 1 0 = Some WHITE.
Proof.
  intros st out. split; [reflexivity|]. split; [reflexivity|].
  destruct (checkTimeLimit_forfeit st BLACK 10001 eq_refl eq_refl)
    as (Hret & _ & _ & _ & Hcells).
  split; [exact Hret|]. split; [exact (Hcells 0 0)|].
  split; [exact (Hcells 0 1)|exact (Hcells 1 0)].
Defined.

(** ** Scans stay on the board *)

Lemma direction_cases d :
  d ∈ directions ->
  (fst d = -1 \/ fst d = 0 \/ fst d = 1)
  /\ (snd d = -1 \/ snd d = 0 \/ snd d = 1)
  /\ (fst d <> 0 \/ snd d <> 0).
Proof.
  unfold directions. rewrite !elem_of_cons, elem_of_nil.
  intros H. destruct d as [dr dc]. simpl.
  repeat (destruct H as [H|H]; [inversion H; subst; lia|]). done.
Qed.

(** From a cell of the board, the [k]-th cell of a ray is off the board
    as soon as [k] reaches BOARD_SIZE. *)
Lemma ray_leaves_board N row col d k :
  d ∈ directions -> isWithinBoard N row col = true -> N <= k ->
  isWithinBoard N (row + k * fst d) (col + k * snd d) = false.
Proof.
  intros Hd [Hr Hc]%isWithinBoard_spec Hk.
  destruct (direction_cases d Hd) as (Hdr & Hdc & Hnz).
  apply not_true_is_false. rewrite isWithinBoard_spec.
  destruct d as [dr dc]. simpl in *.
  destruct Hdr as [? | [? | ?]], Hdc as [? | [? | ?]]; subst; lia.
Qed.

(** The result of a scan does not depend on the fuel once the fuel covers
    the rest of the ray: running out of fuel and leaving the board
    coincide. *)
Lemma validScan_fuel N ign player b d row col :
  d ∈ directions -> isWithinBoard N row col = true ->
  forall fuel fuel' k fo fb,
    1 <= k -> N <= k + Z.of_nat fuel -> N <= k + Z.of_nat fuel' ->
    validScan N ign player b (fst d) (snd d) fuel
      (row + k * fst d) (col + k * snd d) fo fb
    = validScan N ign player b (fst d) (snd d) fuel'
      (row + k * fst d) (col + k * snd d) fo fb.
Proof.
  intros Hd Hin.
  assert (Hstep : forall k,
    (row + k * fst d + fst d, col + k * snd d + snd d)
    = (row + (k + 1) * fst d, col + (k + 1) * snd d)) by (intros; f_equal; lia).
  induction fuel as [|fuel IH]; intros [|fuel'] k fo fb Hk Hf Hf'; simpl.
  - done.
  - rewrite ray_leaves_board by (done || lia). done.
  - rewrite ray_leaves_board by (done || lia). done.
  - specialize (Hstep k). injection Hstep as -> ->.
    destruct (isWithinBoard N _ _); [|done].
    repeat (match goal with |- context [if ?c then _ else _] =>
              destruct c end; try done);
      apply IH; lia.
Qed.

Lemma flipScan_fuel N ign player b d row col :
  d ∈ directions -> isWithinBoard N row col = true ->
  forall fuel fuel' k acc fo fb,
    1 <= k -> N <= k + Z.of_nat fuel -> N <= k + Z.of_nat fuel' ->
    flipScan N ign player b (fst d) (snd d) fuel
      (row + k * fst d) (col + k * snd d) acc fo fb
    = flipScan N ign player b (fst d) (snd d) fuel'
      (row + k * fst d) (col + k * snd d) acc fo fb.
Proof.
  intros Hd Hin.
  assert (Hstep : forall k,
    (row + k * fst d + fst d, col + k * snd d + snd d)
    = (row + (k + 1) * fst d, col + (k + 1) * snd d)) by (intros; f_equal; lia).
  induction fuel as [|fuel IH]; intros [|fuel'] k acc fo fb Hk Hf Hf'; simpl.
  - done.
  - rewrite ray_leaves_board by (done || lia). done.
  - rewrite ray_leaves_board by (done || lia). done.
  - specialize (Hstep k). injection Hstep as -> ->.
    destruct (isWithinBoard N _ _); [|done].
    repeat (match goal with |- context [if ?c then _ else _] =>
              destruct c end; try done);
      apply IH; lia.
Qed.

(** The scans of the engine start at [k = 1] with BOARD_SIZE units of
    fuel, which is enough: any larger amount gives the same answer. *)
Lemma scanFuel_enough N ign player b d row col fuel :
  d ∈ directions -> isWithinBoard N row col = true ->
  (scanFuel N <= fuel)%nat ->
  validScan N ign player b (fst d) (snd d) fuel
    (row + fst d) (col + snd d) false false
  = validScan N ign player b (fst d) (snd d) (scanFuel N)
    (row + fst d) (col + snd d) false false
  /\ flipScan N ign player b (fst d) (snd d) fuel
    (row + fst d) (col + snd d) [] false false
  = flipScan N ign player b (fst d) (snd d) (scanFuel N)
    (row + fst d) (col + snd d) [] false false.
Proof.
  intros Hd Hin Hfuel. unfold scanFuel in *.
  pose proof (proj1 (isWithinBoard_spec _ _ _) Hin) as [Hr Hc].
  replace (row + fst d) with (row + 1 * fst d) by lia.
  replace (col + snd d) with (col + 1 * snd d) by lia.
  split.
  - apply validScan_fuel; (done || lia).
  - apply flipScan_fuel; (done || lia).
Qed.

(** ** getValidMoves *)

Lemma StronglySorted_bind {A B} (lt : relation A) (R : relation B)
  (f : A -> list B) (l : list A) :
  StronglySorted lt l ->
  (forall x, x ∈ l -> StronglySorted R (f x)) ->
  (forall x y a b, lt x y -> a ∈ f x -> b ∈ f y -> R a b) ->
  StronglySorted R (l ≫= f).
Proof.
  intros Hl Hf Hcross.
  induction Hl as [|x l Hl IH Hx]; [constructor|].
  change ((x :: l) ≫= f) with (f x ++ (l ≫= f)).
  apply StronglySorted_app_2.
  - intros a b Ha [y [Hb Hy]]%list_elem_of_bind.
    rewrite Forall_forall in Hx.
    eapply Hcross; eauto.
  - apply Hf. left.
  - apply IH. intros y Hy. apply Hf. by right.
Qed.

Lemma StronglySorted_seqZ m n : StronglySorted Z.lt (seqZ m n).
Proof.
  remember (Z.to_nat n) as k eqn:Hk.
  revert m n Hk. induction k as [|k IH]; intros m n Hk.
  - rewrite seqZ_nil by lia. constructor.
  - rewrite seqZ_cons by lia. constructor.
    + apply IH. lia.
    + apply Forall_seqZ. lia.
Qed.

Lemma isValidMove_within st r c player b :
  isValidMove st r c player b = true ->
  isWithinBoard (BOARD_SIZE st) r c = true.
Proof.
  unfold isValidMove.
  destruct (isWithinBoard (BOARD_SIZE st) r c); [done|].
  simpl. done.
Qed.

Lemma elem_of_getValidMoves st player b m :
  m ∈ getValidMoves st player b <->
  (0 <= row m < Z.of_nat (length b) /\ 0 <= col m < Z.of_nat (length b))
  /\ isValidMove st (row m) (col m) player b = true.
Proof.
  unfold getValidMoves. rewrite list_elem_of_bind. split.
  - intros (r & (c & Hm & Hc)%list_elem_of_bind & Hr).
    apply elem_of_seqZ in Hr, Hc.
    destruct (isValidMove st r c player b) eqn:Hv.
    + apply list_elem_of_singleton in Hm. subst m. simpl. split; [lia|done].
    + by apply elem_of_nil in Hm.
  - intros [[Hr Hc] Hv]. exists (row m). split; [|apply elem_of_seqZ; lia].
    apply list_elem_of_bind. exists (col m). split; [|apply elem_of_seqZ; lia].
    rewrite Hv. destruct m. simpl. apply list_elem_of_singleton. done.
Qed.

Lemma getValidMoves_sorted st player b :
  StronglySorted rowMajorLt (getValidMoves st player b).
Proof.
  unfold getValidMoves.
  apply StronglySorted_bind with (lt := Z.lt).
  - apply StronglySorted_seqZ.
  - intros r _. apply StronglySorted_bind with (lt := Z.lt).
    + apply StronglySorted_seqZ.
    + intros c _. destruct (isValidMove st r c player b); repeat constructor.
    + intros c1 c2 m1 m2 Hlt H1 H2.
      destruct (isValidMove st r c1 player b); [|by apply elem_of_nil in H1].
      destruct (isValidMove st r c2 player b); [|by apply elem_of_nil in H2].
      apply list_elem_of_singleton in H1, H2. subst. right. simpl. done.
  - intros r1 r2 m1 m2 Hlt (c1 & H1 & _)%list_elem_of_bind
      (c2 & H2 & _)%list_elem_of_bind.
    destruct (isValidMove st r1 c1 player b); [|by apply elem_of_nil in H1].
    destruct (isValidMove st r2 c2 player b); [|by apply elem_of_nil in H2].
    apply list_elem_of_singleton in H1, H2. subst. left. simpl. done.
Qed.

(** C4.  On a board of the engine's size, the list [getValidMoves] returns
    holds exactly the coordinates that [isValidMove] accepts, and it lists
    them in row-major order, top-left to bottom-right (strictly increasing, so
    without repetition). *)
Theorem getValidMoves_consistent (st : state) (player : Z) (b : Board) :
  isSquare (BOARD_SIZE st) b = true ->
  (forall r c,
     mkMove r c ∈ getValidMoves st player b
     <-> isValidMove st r c player b = true)
  /\ StronglySorted rowMajorLt (getValidMoves st player b).
Proof.
  intros [Hlen _]%isSquare_spec. split; [|apply getValidMoves_sorted].
  intros r c. rewrite elem_of_getValidMoves. simpl. split; [tauto|].
  intros Hv. split; [|done].
  apply isValidMove_within, isWithinBoard_spec in Hv. lia.
Qed.

Lemma getValidMoves_consistent_witness :
  let st := initializeBoard init (Some stage_standard) false in
  isSquare (BOARD_SIZE st) (board st) = true
  /\ (mkMove 2 3 ∈ getValidMoves st BLACK (board st)
      <-> isValidMove st 2 3 BLACK (board st) = true).
Proof.
  intros st. split; [reflexivity|].
  apply (getValidMoves_consistent st BLACK (board st)). reflexivity.
Defined.

(** The standard opening: Black's legal moves. *)
Example getValidMoves_standard :
  getValidMoves (initializeBoard init (Some stage_standard) false) BLACK
    (board (initializeBoard init (Some stage_standard) false))
  = [mkMove 2 3; mkMove 3 2; mkMove 4 5; mkMove 5 4].
Proof. reflexivity. Qed.

(** ** createInitialBoard *)

Lemma isSquare_newSquare n v : isSquare n (newSquare n v) = true.
Proof.
  apply isSquare_spec. unfold newSquare. rewrite length_replicate.
  split; [done|]. apply Forall_replicate. by rewrite length_replicate.
Qed.

Lemma cellAt_newSquare n v r c :
  cellAt (newSquare n v) r c = if isWithinBoard n r c then Some v else None.
Proof.
  unfold cellAt, newSquare.
  destruct (isWithinBoard n r c) eqn:Hin.
  - apply isWithinBoard_spec in Hin.
    replace ((r <? 0) || (c <? 0)) with false by lia.
    rewrite lookup_replicate_2 by lia. simpl.
    apply lookup_replicate_2. lia.
  - destruct ((r <? 0) || (c <? 0)) eqn:Hneg; [done|].
    assert (Hout : ~ (0 <= r < n /\ 0 <= c < n)).
    { rewrite <- isWithinBoard_spec. congruence. }
    destruct (decide (r < n)).
    + rewrite lookup_replicate_2 by lia. simpl.
      apply lookup_replicate_None. lia.
    + assert (Hrow : replicate (Z.to_nat n) (replicate (Z.to_nat n) v)
                       !! Z.to_nat r = None)
        by (apply lookup_replicate_None; lia).
      by rewrite Hrow.
Qed.

Lemma within_mono N S x y :
  N <= S -> isWithinBoard N x y = true -> isWithinBoard S x y = true.
Proof. rewrite !isWithinBoard_spec. lia. Qed.

Lemma cellAt_setCell S b r c v x y :
  isSquare S b = true -> isWithinBoard S r c = true ->
  cellAt (setCell b r c v) x y =
  if (r =? x) && (c =? y) then Some v else cellAt b x y.
Proof.
  intros Hsq Hin.
  destruct ((r =? x) && (c =? y)) eqn:E.
  - assert (r = x /\ c = y) as [<- <-] by lia.
    apply cellAt_setCell_eq. destruct (cellAt_within S b r c) as [w Hw]; eauto.
  - apply cellAt_setCell_ne. intros [= -> ->]. lia.
Qed.

Lemma placeBlocked_fold N S l : forall b,
  N <= S -> isSquare S b = true ->
  isSquare S (fold_left (placeBlocked N) l b) = true
  /\ forall x y,
       cellAt (fold_left (placeBlocked N) l b) x y =
       if isWithinBoard N x y && listed x y l
       then Some BLOCKED else cellAt b x y.
Proof.
  induction l as [|p l IH]; intros b HNS Hsq; simpl.
  - split; [done|]. intros x y. by rewrite andb_false_r.
  - assert (Hsq' : isSquare S (placeBlocked N b p) = true).
    { unfold placeBlocked. destruct (isWithinBoard N _ _); [|done].
      by rewrite isSquare_setCell. }
    destruct (IH _ HNS Hsq') as [H1 H2]. split; [done|].
    intros x y. rewrite H2. unfold placeBlocked.
    destruct (isWithinBoard N (pos_r p) (pos_c p)) eqn:Hp.
    + rewrite (cellAt_setCell S) by eauto using within_mono.
      destruct ((pos_r p =? x) && (pos_c p =? y)) eqn:E; simpl.
      * assert (pos_r p = x /\ pos_c p = y) as [<- <-] by lia.
        rewrite Hp. simpl. by destruct (listed _ _ l).
      * done.
    + destruct ((pos_r p =? x) && (pos_c p =? y)) eqn:E; simpl; [|done].
      assert (pos_r p = x /\ pos_c p = y) as [<- <-] by lia.
      rewrite Hp. done.
Qed.

Lemma placePiece_fold N S colour l : forall b,
  N <= S -> isSquare S b = true ->
  isSquare S (fold_left (placePiece N colour) l b) = true
  /\ forall x y,
       cellAt (fold_left (placePiece N colour) l b) x y =
       if cellIs b x y EMPTY && isWithinBoard N x y && listed x y l
       then Some colour else cellAt b x y.
Proof.
  induction l as [|p l IH]; intros b HNS Hsq; simpl.
  - split; [done|]. intros x y. by rewrite andb_false_r.
  - assert (Hsq' : isSquare S (placePiece N colour b p) = true).
    { unfold placePiece. destruct (_ && _); [|done].
      by rewrite isSquare_setCell. }
    destruct (IH _ HNS Hsq') as [H1 H2]. split; [done|].
    intros x y. rewrite H2. clear H1 H2 IH.
    assert (Hcell : cellAt (placePiece N colour b p) x y =
      if (isWithinBoard N (pos_r p) (pos_c p)
          && cellIs b (pos_r p) (pos_c p) EMPTY)
         && ((pos_r p =? x) && (pos_c p =? y))
      then Some colour else cellAt b x y).
    { unfold placePiece.
      destruct (isWithinBoard N (pos_r p) (pos_c p)
                && cellIs b (pos_r p) (pos_c p) EMPTY) eqn:Hp; [|done].
      apply andb_true_iff in Hp as [Hp _].
      simpl. apply (cellAt_setCell S); eauto using within_mono. }
    unfold cellIs at 1. rewrite Hcell.
    destruct ((pos_r p =? x) && (pos_c p =? y)) eqn:E.
    + assert (pos_r p = x /\ pos_c p = y) as [-> ->] by lia.
      rewrite andb_true_r.
      destruct (isWithinBoard N x y) eqn:Hp; simpl.
      * destruct (cellIs b x y EMPTY) eqn:He; simpl.
        -- by destruct ((colour =? EMPTY) && true && listed x y l).
        -- unfold cellIs in He.
           destruct (cellAt b x y); simpl in He; by rewrite ?He.
      * rewrite !andb_false_r. by destruct (cellAt b x y) as [w|].
    + rewrite andb_false_r. simpl. unfold cellIs. done.
Qed.

(** The board [createInitialBoard] builds, cell by cell, whenever the
    engine's BOARD_SIZE does not exceed the size of the arrays it allocates. *)
Lemma createInitialBoard_cells (N : Z) (cfg : StageConfig) :
  N <= stageBoardSize cfg ->
  let S := stageBoardSize cfg in
  let b := createInitialBoard N (Some cfg) in
  isSquare S b = true
  /\ forall x y,
       cellAt b x y =
       if isWithinBoard S x y then
         Some (if negb (isWithinBoard N x y) then EMPTY
               else if listed x y (initialBlocked cfg) then BLOCKED
               else if listed x y (initialPlayer1 cfg) then BLACK
               else if listed x y (initialPlayer2 cfg) then WHITE
               else EMPTY)
       else None.
Proof.
  intros HNS S b. unfold b, createInitialBoard. simpl. fold S.
  destruct (placeBlocked_fold N S (initialBlocked cfg) (newSquare S EMPTY))
    as [Hs1 Hc1]; [done|apply isSquare_newSquare|].
  destruct (placePiece_fold N S BLACK (initialPlayer1 cfg) _ HNS Hs1)
    as [Hs2 Hc2].
  destruct (placePiece_fold N S WHITE (initialPlayer2 cfg) _ HNS Hs2)
    as [Hs3 Hc3].
  split; [done|]. intros x y.
  rewrite Hc3. unfold cellIs. rewrite Hc2. unfold cellIs.
  rewrite Hc1, cellAt_newSquare.
  destruct (isWithinBoard N x y) eqn:HN; simpl.
  - rewrite (within_mono N S x y HNS HN).
    destruct (listed x y (initialBlocked cfg)); simpl; [done|].
    destruct (listed x y (initialPlayer1 cfg)); simpl; [done|].
    destruct (listed x y (initialPlayer2 cfg)); simpl; done.
  - destruct (isWithinBoard S x y); simpl; done.
Qed.

(** ** Rays and scans *)

Lemma rayCell_step row col d k :
  ((rayCell row col d k).1 + fst d, (rayCell row col d k).2 + snd d)
  = rayCell row col d (k + 1).
Proof. unfold rayCell. simpl. f_equal; lia. Qed.

Lemma rayCell_start row col d :
  (row + fst d, col + snd d) = rayCell row col d 1.
Proof. unfold rayCell. f_equal; lia. Qed.

(** The placement cell is on none of its rays, and two different
    directions share no cell. *)
Lemma rayCell_not_origin row col d k :
  d ∈ directions -> 1 <= k -> rayCell row col d k <> (row, col).
Proof.
  intros Hd Hk. destruct (direction_cases d Hd) as (Hdr & Hdc & Hnz).
  destruct d as [dr dc]. unfold rayCell. simpl in *. intros [= H1 H2].
  destruct Hdr as [? | [? | ?]], Hdc as [? | [? | ?]]; subst; lia.
Qed.

Lemma rayCell_disjoint row col d d' k k' :
  d ∈ directions -> d' ∈ directions -> 1 <= k -> 1 <= k' ->
  rayCell row col d k = rayCell row col d' k' -> d = d'.
Proof.
  intros Hd Hd' Hk Hk'.
  destruct (direction_cases d Hd) as (Hdr & Hdc & Hnz).
  destruct (direction_cases d' Hd') as (Hdr' & Hdc' & Hnz').
  destruct d as [dr dc], d' as [dr' dc']. unfold rayCell. simpl in *.
  intros [= H1 H2].
  destruct Hdr as [? | [? | ?]], Hdc as [? | [? | ?]],
    Hdr' as [? | [? | ?]], Hdc' as [? | [? | ?]]; subst;
    try lia; f_equal; lia.
Qed.

Lemma otherPlayer_cases p :
  (otherPlayer p = BLACK \/ otherPlayer p = WHITE) /\ otherPlayer p <> p.
Proof.
  unfold otherPlayer, BLACK, WHITE.
  destruct (Z.eqb_spec p 1); subst; lia.
Qed.

Lemma otherPlayer_not_blocked p : otherPlayer p <> BLOCKED.
Proof. destruct (otherPlayer_cases p) as [[E|E] _]; rewrite E; done. Qed.

Section ScanFacts.

Variable N : Z.
Variable ign : bool.
Variable player : Z.
Variables row col : Z.
Variable d : Z * Z.

Abbreviation rr k := (row + k * fst d).
Abbreviation rc k := (col + k * snd d).
Abbreviation vscan b := (validScan N ign player b (fst d) (snd d)).
Abbreviation fscan b := (flipScan N ign player b (fst d) (snd d)).

Lemma ray_next k : (rr k + fst d, rc k + snd d) = (rr (k + 1), rc (k + 1)).
Proof. f_equal; lia. Qed.

(** A scan reads only the cells of its ray. *)
Lemma validScan_ext b b' :
  (forall k, 1 <= k -> cellAt b (rr k) (rc k) = cellAt b' (rr k) (rc k)) ->
  forall fuel k fo fb, 1 <= k ->
    vscan b fuel (rr k) (rc k) fo fb = vscan b' fuel (rr k) (rc k) fo fb.
Proof.
  intros Hagree. induction fuel as [|fuel IH]; intros k fo fb Hk; [done|].
  simpl. unfold cellIs. rewrite <- (Hagree k Hk).
  pose proof (ray_next k) as Hs. injection Hs as -> ->.
  destruct (isWithinBoard N _ _); [|done].
  repeat (match goal with |- context [if ?c then _ else _] =>
            destruct c end; try done); apply IH; lia.
Qed.

Lemma flipScan_ext b b' :
  (forall k, 1 <= k -> cellAt b (rr k) (rc k) = cellAt b' (rr k) (rc k)) ->
  forall fuel k acc fo fb, 1 <= k ->
    fscan b fuel (rr k) (rc k) acc fo fb
    = fscan b' fuel (rr k) (rc k) acc fo fb.
Proof.
  intros Hagree. induction fuel as [|fuel IH]; intros k acc fo fb Hk; [done|].
  simpl. unfold cellIs. rewrite <- (Hagree k Hk).
  pose proof (ray_next k) as Hs. injection Hs as -> ->.
  destruct (isWithinBoard N _ _); [|done].
  repeat (match goal with |- context [if ?c then _ else _] =>
            destruct c end; try done); apply IH; lia.
Qed.

(** The two loops agree: [makeMove] flips in a direction exactly when
    [isValidMove] accepts that direction. *)
Lemma flipScan_validScan b :
  forall fuel r c acc fo fb,
    (fo = true -> acc <> []) ->
    is_Some (fscan b fuel r c acc fo fb) <-> vscan b fuel r c fo fb = true.
Proof.
  induction fuel as [|fuel IH]; intros r c acc fo fb Hacc; simpl.
  - split; [intros [? ?]; done|done].
  - destruct (isWithinBoard N r c); [|split; [intros [? ?]; done|done]].
    destruct (cellIs b r c (otherPlayer player)).
    { apply IH. intros _. by destruct acc. }
    destruct (cellIs b r c BLOCKED).
    { destruct (negb ign); [split; [intros [? ?]; done|done]|by apply IH]. }
    destruct (cellIs b r c EMPTY); [split; [intros [? ?]; done|done]|].
    destruct (cellIs b r c player); [|by apply IH].
    destruct fo; simpl; [|split; [intros [? ?]; done|done]].
    replace (0 <? Z.of_nat (length acc)) with true
      by (specialize (Hacc eq_refl); destruct acc; [done|];
          cbn [length]; symmetry; apply Z.ltb_lt; lia).
    simpl. destruct (negb fb || ign); split; try done; try (intros [? ?]; done).
Qed.

(** What a flipping scan collects: the cells it was given, followed by
    cells of the ray that lie on the board and hold the opponent. *)
Lemma flipScan_collects b :
  forall fuel k acc fo fb l,
    1 <= k ->
    fscan b fuel (rr k) (rc k) acc fo fb = Some l ->
    forall p, p ∈ l ->
      p ∈ acc
      \/ exists j, k <= j /\ p = (rr j, rc j)
                   /\ isWithinBoard N p.1 p.2 = true
                   /\ cellAt b p.1 p.2 = Some (otherPlayer player).
Proof.
  induction fuel as [|fuel IH]; intros k acc fo fb l Hk; [done|].
  simpl.
  pose proof (ray_next k) as Hs. injection Hs as -> ->.
  destruct (isWithinBoard N _ _) eqn:Hin; [|done].
  destruct (cellIs b _ _ (otherPlayer player)) eqn:Hopp.
  { intros Hl p Hp. destruct (IH (k + 1) _ _ _ _ ltac:(lia) Hl p Hp) as [Hacc|Hray].
    - apply elem_of_app in Hacc as [Hacc|Hnew]; [by left|].
      apply list_elem_of_singleton in Hnew. right. exists k.
      split; [lia|]. split; [done|]. subst p. simpl.
      split; [done|]. by apply cellIs_true.
    - right. destruct Hray as (j & Hj & Hrest). exists j. split; [lia|done]. }
  destruct (cellIs b _ _ BLOCKED).
  { destruct (negb ign); [done|]. intros Hl p Hp.
    destruct (IH (k + 1) _ _ _ _ ltac:(lia) Hl p Hp) as [Hacc|Hray]; [by left|].
    right. destruct Hray as (j & Hj & Hrest). exists j. split; [lia|done]. }
  destruct (cellIs b _ _ EMPTY); [done|].
  destruct (cellIs b _ _ player).
  { destruct (_ && _); [|done]. intros [= <-] p Hp. by left. }
  intros Hl p Hp.
  destruct (IH (k + 1) _ _ _ _ ltac:(lia) Hl p Hp) as [Hacc|Hray]; [by left|].
  right. destruct Hray as (j & Hj & Hrest). exists j. split; [lia|done].
Qed.

End ScanFacts.

(** ** makeMove *)

Lemma flipAll_cells N p l : forall b,
  isSquare N b = true ->
  (forall q, q ∈ l -> isWithinBoard N q.1 q.2 = true) ->
  isSquare N (flipAll b p l) = true
  /\ forall x y,
       cellAt (flipAll b p l) x y =
       if bool_decide ((x, y) ∈ l) then Some p else cellAt b x y.
Proof.
  unfold flipAll.
  induction l as [|q l IH]; intros b Hsq Hin; cbn [fold_left].
  - split; [done|]. intros x y. rewrite bool_decide_eq_false_2; [done|].
    apply not_elem_of_nil.
  - destruct (IH (setCell b q.1 q.2 p)) as [H1 H2].
    { by rewrite isSquare_setCell. }
    { intros q' Hq'. apply Hin. by right. }
    split; [done|]. intros x y. rewrite H2.
    rewrite (cellAt_setCell N) by (done || apply Hin; left).
    destruct (bool_decide ((x, y) ∈ l)) eqn:El.
    + apply bool_decide_eq_true in El.
      rewrite bool_decide_eq_true_2; [done|by right].
    + apply bool_decide_eq_false in El.
      destruct ((q.1 =? x) && (q.2 =? y)) eqn:E.
      * assert (q = (x, y)) as -> by (destruct q; simpl in *; f_equal; lia).
        rewrite bool_decide_eq_true_2; [done|left].
      * rewrite bool_decide_eq_false_2; [done|].
        intros [Hq|Hq]%elem_of_cons; [|done].
        subst q. simpl in E. lia.
Qed.

Lemma NoDup_directions : NoDup directions.
Proof. apply (bool_decide_unpack _). vm_compute. done. Qed.

Section Sweep.

Variable N : Z.
Variable ign : bool.
Variable player : Z.
Variables row col : Z.

(** The board on which the sweep over the directions starts. *)
Variable b1 : Board.

Abbreviation scanOf b d := (captureIn N ign player row col b d).

Lemma scanOf_ext b b' d :
  (forall k, 1 <= k ->
     cellAt b (row + k * fst d) (col + k * snd d)
     = cellAt b' (row + k * fst d) (col + k * snd d)) ->
  scanOf b d = scanOf b' d.
Proof.
  intros Hagree. unfold captureIn.
  replace (row + fst d) with (row + 1 * fst d) by lia.
  replace (col + snd d) with (col + 1 * snd d) by lia.
  by apply flipScan_ext.
Qed.

Lemma scanOf_cells b d l p :
  scanOf b d = Some l -> p ∈ l ->
  exists k, 1 <= k /\ p = rayCell row col d k
            /\ isWithinBoard N p.1 p.2 = true
            /\ cellAt b p.1 p.2 = Some (otherPlayer player).
Proof.
  unfold captureIn.
  replace (row + fst d) with (row + 1 * fst d) by lia.
  replace (col + snd d) with (col + 1 * snd d) by lia.
  intros Hl Hp.
  destruct (flipScan_collects N ign player row col d b _ 1 _ _ _ _
              ltac:(lia) Hl p Hp) as [Hnil|Hray].
  - by apply elem_of_nil in Hnil.
  - done.
Qed.

(** The sweep over a list of distinct directions, started on a board that
    still agrees with [b1] on their rays: every scan collects what it would
    collect on [b1], the collected cells receive the mover's disc, and every
    other cell keeps its value. *)
Lemma sweep_fold ds : forall s,
  NoDup ds -> (forall d, d ∈ ds -> d ∈ directions) ->
  isSquare N (sw_board s) = true ->
  (forall d k, d ∈ ds -> 1 <= k ->
     cellAt (sw_board s) (rayCell row col d k).1 (rayCell row col d k).2
     = cellAt b1 (rayCell row col d k).1 (rayCell row col d k).2) ->
  let s' := fold_left (sweepDir N ign player row col) ds s in
  isSquare N (sw_board s') = true
  /\ ((forall d, d ∈ ds -> scanOf b1 d = None) -> s' = s)
  /\ (forall d, d ∈ ds -> is_Some (scanOf b1 d) -> sw_flipped s' = true)
  /\ (forall d l p, d ∈ ds -> scanOf b1 d = Some l -> p ∈ l ->
        cellAt (sw_board s') p.1 p.2 = Some player)
  /\ (forall x y,
        (forall d l, d ∈ ds -> scanOf b1 d = Some l -> (x, y) ∉ l) ->
        cellAt (sw_board s') x y = cellAt (sw_board s) x y).
Proof.
  induction ds as [|d ds IH]; intros s Hnd Hdirs Hsq Hagree; simpl.
  - split; [done|]. split; [done|]. split; [intros d Hd; by apply elem_of_nil in Hd|].
    split; [intros d l p Hd; by apply elem_of_nil in Hd|done].
  - apply NoDup_cons in Hnd as [Hfresh Hnd].
    assert (Hd : d ∈ directions) by (apply Hdirs; left).
    assert (Hscan : scanOf (sw_board s) d = scanOf b1 d).
    { apply scanOf_ext. intros k Hk. apply (Hagree d k); [left|done]. }
    (* The state after direction [d]. *)
    set (s1 := sweepDir N ign player row col s d).
    assert (Hs1 : isSquare N (sw_board s1) = true
      /\ (scanOf b1 d = None -> s1 = s)
      /\ (is_Some (scanOf b1 d) -> sw_flipped s1 = true)
      /\ (forall x y, cellAt (sw_board s1) x y =
            match scanOf b1 d with
            | Some l => if bool_decide ((x, y) ∈ l) then Some player
                        else cellAt (sw_board s) x y
            | None => cellAt (sw_board s) x y
            end)).
    { pose proof Hscan as Hscan0.
      unfold s1, sweepDir. rewrite Hscan.
      destruct (scanOf b1 d) as [l|] eqn:El; simpl.
      - destruct (flipAll_cells N player l (sw_board s)) as [H1 H2]; [done| |].
        { intros q Hq.
          assert (E0 : scanOf (sw_board s) d = Some l) by congruence.
          by destruct (scanOf_cells _ _ _ _ E0 Hq) as (k & _ & _ & Hin & _). }
        split; [done|]. split; [done|]. split; [done|]. done.
      - split; [done|]. split; [done|]. split; [intros [? ?]; done|done]. }
    destruct Hs1 as (Hsq1 & Hnone1 & Hflip1 & Hcell1).
    assert (Hagree1 : forall d' k, d' ∈ ds -> 1 <= k ->
      cellAt (sw_board s1) (rayCell row col d' k).1 (rayCell row col d' k).2
      = cellAt b1 (rayCell row col d' k).1 (rayCell row col d' k).2).
    { intros d' k Hd' Hk. rewrite Hcell1.
      rewrite <- (Hagree d' k) by (by right || done).
      destruct (scanOf b1 d) as [l|] eqn:El; [|done].
      rewrite bool_decide_eq_false_2; [done|].
      intros Hin. assert (El' : scanOf (sw_board s) d = Some l) by congruence.
      destruct (scanOf_cells _ _ _ _ El' Hin) as (j & Hj & Heq & _).
      destruct (rayCell row col d' k) as [x y] eqn:Er. simpl in Hin.
      rewrite <- Er in Heq.
      apply rayCell_disjoint in Heq; [|by apply Hdirs; right|done|done|done].
      subst d'. done. }
    destruct (IH s1 Hnd ltac:(intros; apply Hdirs; by right) Hsq1 Hagree1)
      as (Hsq' & Hnone' & Hflip' & Hset' & Hkeep').
    split; [done|]. split; [|split; [|split]].
    + intros Hall. rewrite Hnone'; [|intros; apply Hall; by right].
      apply Hnone1, Hall. left.
    + intros d' [->|Hd']%elem_of_cons Hsome.
      * (* flipped in direction [d]: later directions keep the flag *)
        clear - Hflip1 Hsome.
        specialize (Hflip1 Hsome). revert Hflip1. generalize s1.
        induction ds as [|d' ds IHds]; intros s0 Hs0; simpl; [done|].
        apply IHds. unfold sweepDir.
        by destruct (captureIn N ign player row col (sw_board s0) d').
      * by apply (Hflip' d').
    + intros d' l p [->|Hd']%elem_of_cons Hl Hp.
      * rewrite Hkeep'.
        -- rewrite Hcell1, Hl. destruct p as [x y]. simpl.
           by rewrite bool_decide_eq_true_2.
        -- intros d'' l'' Hd'' Hl'' Hin''.
           destruct p as [x y]. simpl in Hin''.
           assert (Hl0 : scanOf (sw_board s) d = Some l) by congruence.
           destruct (scanOf_cells _ _ _ _ Hl0 Hp) as (j & Hj & Heq & _).
           assert (Hl1 : scanOf (sw_board s1) d'' = Some l'').
           { rewrite <- Hl''. apply scanOf_ext. intros k Hk.
             apply (Hagree1 d'' k); done. }
           destruct (scanOf_cells _ _ _ _ Hl1 Hin'') as (j' & Hj' & Heq' & _).
           rewrite Heq in Heq'.
           apply rayCell_disjoint in Heq'; [|done|by apply Hdirs; right|done|done].
           subst d''. done.
      * by apply (Hset' d' l).
    + intros x y Hnot. rewrite Hkeep'.
      * rewrite Hcell1. destruct (scanOf b1 d) as [l|] eqn:El; [|done].
        rewrite bool_decide_eq_false_2; [done|]. apply (Hnot d l); [left|done].
      * intros d' l' Hd' Hl'. apply (Hnot d' l'); [by right|done].
Qed.

End Sweep.

Lemma sweep_none N ign player row col ds : forall s,
  (forall d, d ∈ ds -> captureIn N ign player row col (sw_board s) d = None) ->
  fold_left (sweepDir N ign player row col) ds s = s.
Proof.
  induction ds as [|d ds IH]; intros s Hnone; simpl; [done|].
  assert (Hd : sweepDir N ign player row col s d = s).
  { unfold sweepDir. rewrite Hnone; [done|left]. }
  rewrite Hd. apply IH. intros d' Hd'. apply Hnone. by right.
Qed.

Lemma captureIn_valid N ign player row col b d :
  is_Some (captureIn N ign player row col b d)
  <-> validScan N ign player b (fst d) (snd d) (scanFuel N)
        (row + fst d) (col + snd d) false false = true.
Proof. unfold captureIn. by apply flipScan_validScan. Qed.

(** The disc put on the placement cell is on no ray, so it does not
    change what the scans collect. *)
Lemma captureIn_placed N ign player row col b d v :
  d ∈ directions ->
  captureIn N ign player row col (setCell b row col v) d
  = captureIn N ign player row col b d.
Proof.
  intros Hd. unfold captureIn.
  replace (row + fst d) with (row + 1 * fst d) by lia.
  replace (col + snd d) with (col + 1 * snd d) by lia.
  apply flipScan_ext; [|lia]. intros k Hk.
  apply cellAt_setCell_ne. intros Heq.
  by apply (rayCell_not_origin row col d k Hd Hk).
Qed.

Lemma isValidMove_false st row col player :
  isValidMove st row col player (board st) = false ->
  isWithinBoard (BOARD_SIZE st) row col
  && cellIs (board st) row col EMPTY = false
  \/ forall d, d ∈ directions ->
       captureIn (BOARD_SIZE st) (stageIgnoreOcclusion st) player row col
         (board st) d = None.
Proof.
  unfold isValidMove.
  destruct (isWithinBoard (BOARD_SIZE st) row col); cbn [negb orb andb];
    [|by left].
  destruct (cellIs (board st) row col EMPTY); cbn [negb orb andb]; [|by left].
  intros Hex. right. intros d Hd.
  destruct (captureIn _ _ _ _ _ _ d) as [l|] eqn:El; [|done].
  assert (Hv : is_Some (captureIn (BOARD_SIZE st) (stageIgnoreOcclusion st)
                          player row col (board st) d)) by (by eexists).
  apply captureIn_valid in Hv.
  assert (Htrue : existsb
    (fun d : Z * Z =>
       validScan (BOARD_SIZE st) (stageIgnoreOcclusion st) player (board st)
         (fst d) (snd d) (scanFuel (BOARD_SIZE st))
         (row + fst d) (col + snd d) false false) directions = true).
  { apply existsb_exists. exists d. split; [by apply list_elem_of_In|done]. }
  congruence.
Qed.

(** What an illegal move does in every case: it flips no disc and makes
    [makeMove] return false, and it changes no cell other than the placement
    cell; when the placement cell is off the board or not Empty the engine
    state is left exactly as it was. *)
Lemma makeMove_illegal (st : state) (row col player : Z) :
  isSquare (BOARD_SIZE st) (board st) = true ->
  isValidMove st row col player (board st) = false ->
  let res := makeMove st row col player in
  mr_flipped res = false /\ mr_captured res = []
  /\ (isWithinBoard (BOARD_SIZE st) row col
      && cellIs (board st) row col EMPTY = false -> mr_state res = st)
  /\ (forall x y, (x, y) <> (row, col) ->
        cellAt (board (mr_state res)) x y = cellAt (board st) x y).
Proof.
  intros _ Hillegal res. unfold res, makeMove.
  rewrite <- negb_andb.
  destruct (isWithinBoard (BOARD_SIZE st) row col
            && cellIs (board st) row col EMPTY) eqn:Hguard; cbn [negb].
  - apply isValidMove_false in Hillegal as [Hg|Hnone]; [congruence|].
    rewrite sweep_none.
    + cbn. repeat split; try done.
      intros x y Hne. apply cellAt_setCell_ne. congruence.
    + intros d Hd. simpl. rewrite captureIn_placed by done. by apply Hnone.
  - done.
Qed.

Lemma makeMove_illegal_witness :
  let st := initializeBoard init (Some stage_standard) false in
  isSquare (BOARD_SIZE st) (board st) = true
  /\ isValidMove st 3 3 BLACK (board st) = false
  /\ mr_state (makeMove st 3 3 BLACK) = st.
Proof.
  intros st. split; [reflexivity|]. split; [reflexivity|].
  apply (makeMove_illegal st 3 3 BLACK); reflexivity.
Defined.

(** On the standard opening the corner (0, 0) is not a legal move for
    Black, yet [makeMove] puts a black disc there. *)
Example makeMove_illegal_changes_board :
  let st := initializeBoard init (Some stage_standard) false in
  isValidMove st 0 0 BLACK (board st) = false
  /\ mr_flipped (makeMove st 0 0 BLACK) = false
  /\ cellAt (board st) 0 0 = Some EMPTY
  /\ cellAt (board (mr_state (makeMove st 0 0 BLACK))) 0 0 = Some BLACK
  /\ board (mr_state (makeMove st 0 0 BLACK)) <> board st.
Proof. vm_compute. repeat split; discriminate. Qed.

(** What [makeMove] does to the board when the placement cell is an Empty
    cell of the board: the placement cell and the cells the scans collected on
    the board as it was receive the mover's disc, and every other cell keeps
    its value. *)
Lemma makeMove_cells (st : state) (row col player : Z) :
  let N := BOARD_SIZE st in
  let ign := stageIgnoreOcclusion st in
  let b := board st in
  isSquare N b = true -> isWithinBoard N row col = true ->
  cellAt b row col = Some EMPTY ->
  let res := makeMove st row col player in
  let b' := board (mr_state res) in
  isSquare N b' = true
  /\ cellAt b' row col = Some player
  /\ (forall d, d ∈ directions ->
        is_Some (captureIn N ign player row col b d) -> mr_flipped res = true)
  /\ (forall d l p, d ∈ directions ->
        captureIn N ign player row col b d = Some l -> p ∈ l ->
        cellAt b' p.1 p.2 = Some player)
  /\ (forall x y, (x, y) <> (row, col) ->
        (forall d l, d ∈ directions ->
           captureIn N ign player row col b d = Some l -> (x, y) ∉ l) ->
        cellAt b' x y = cellAt b x y).
Proof.
  intros N ign b Hsq Hin Hempty res b'.
  set (b1 := setCell b row col player).
  assert (Hres : res = let s := fold_left (sweepDir N ign player row col)
                                  directions (mkSweep b1 false []) in
                       mkMoveResult (with_board st (sw_board s))
                         (sw_flipped s) (sw_captured s)).
  { unfold res, makeMove. fold N b ign.
    rewrite Hin. unfold cellIs. rewrite Hempty. done. }
  assert (Hscan : forall d, d ∈ directions ->
            captureIn N ign player row col b1 d
            = captureIn N ign player row col b d).
  { intros d Hd. by apply captureIn_placed. }
  destruct (sweep_fold N ign player row col b1 directions
              (mkSweep b1 false []))
    as (Hsq' & _ & Hflip & Hset & Hkeep).
  { apply NoDup_directions. }
  { done. }
  { simpl. unfold b1. by rewrite isSquare_setCell. }
  { done. }
  unfold b'. rewrite Hres. cbn [mr_state mr_flipped board with_board].
  split; [done|]. split; [|split; [|split]].
  - rewrite Hkeep.
    + simpl. apply cellAt_setCell_eq. by rewrite Hempty.
    + intros d l Hd Hl Hp. rewrite Hscan in Hl by done.
      destruct (scanOf_cells _ _ _ _ _ _ _ _ _ Hl Hp) as (k & Hk & Heq & _).
      symmetry in Heq. by apply rayCell_not_origin in Heq.
  - intros d Hd Hsome. apply (Hflip d Hd). by rewrite Hscan.
  - intros d l p Hd Hl Hp. apply (Hset d l p Hd); [|done]. by rewrite Hscan.
  - intros x y Hne Hnot. rewrite Hkeep.
    + simpl. apply cellAt_setCell_ne. congruence.
    + intros d l Hd Hl. apply (Hnot d l Hd). by rewrite <- Hscan.
Qed.

(** C1, where the code departs from it.  [makeMove] does not check legality:
    it returns early only when the placement cell is off the board or not
    Empty.  For an illegal move on an Empty cell of the board it flips
    nothing and returns false, but it has by then written the mover's disc on
    the placement cell and it goes on to log the move: the board is not what
    it was. *)
Theorem makeMove_illegal_places_disc (st : state) (lg : GameLogger.logger)
  (row col player : Z) :
  isSquare (BOARD_SIZE st) (board st) = true ->
  isWithinBoard (BOARD_SIZE st) row col = true ->
  cellAt (board st) row col = Some EMPTY ->
  player <> EMPTY ->
  isValidMove st row col player (board st) = false ->
  let res := makeMove st row col player in
  mr_flipped res = false
  /\ cellAt (board (mr_state res)) row col = Some player
  /\ board (mr_state res) <> board st
  /\ (forall x y, (x, y) <> (row, col) ->
        cellAt (board (mr_state res)) x y = cellAt (board st) x y)
  /\ length (GameLogger.moves (GameLogger.logMakeMove lg st row col player))
     = S (length (GameLogger.moves lg)).
Proof.
  intros Hsq Hin Hempty Hpl Hillegal res.
  destruct (makeMove_illegal st row col player Hsq Hillegal)
    as (Hflip & _ & _ & Hkeep).
  destruct (makeMove_cells st row col player Hsq Hin Hempty)
    as (_ & Hcell & _).
  fold res in Hflip, Hkeep, Hcell.
  split; [done|]. split; [done|]. split; [|split; [done|]].
  - intros Heq. rewrite Heq, Hempty in Hcell. congruence.
  - unfold GameLogger.logMakeMove. rewrite Hin.
    unfold cellIs. rewrite Hempty. cbn.
    rewrite length_app. simpl. lia.
Qed.

Lemma makeMove_illegal_places_disc_witness :
  let st := initializeBoard init (Some stage_standard) false in
  let res := makeMove st 0 0 BLACK in
  isValidMove st 0 0 BLACK (board st) = false
  /\ mr_flipped res = false
  /\ cellAt (board (mr_state res)) 0 0 = Some BLACK
  /\ board (mr_state res) <> board st
  /\ length (GameLogger.moves
               (GameLogger.logMakeMove GameLogger.create st 0 0 BLACK))
     = 1%nat.
Proof.
  intros st res.
  destruct (makeMove_illegal_places_disc st GameLogger.create 0 0 BLACK)
    as (H1 & H2 & H3 & _ & H5);
    [reflexivity|reflexivity|reflexivity|discriminate|reflexivity|].
  split; [reflexivity|]. split; [exact H1|]. split; [exact H2|].
  split; [exact H3|exact H5].
Defined.

(** Blocked cells never change state: [makeMove] leaves every Blocked cell
    Blocked. *)
Lemma makeMove_keeps_blocked (st : state) (row col player : Z) x y :
  isSquare (BOARD_SIZE st) (board st) = true ->
  cellAt (board st) x y = Some BLOCKED ->
  cellAt (board (mr_state (makeMove st row col player))) x y = Some BLOCKED.
Proof.
  intros Hsq Hb.
  destruct (isWithinBoard (BOARD_SIZE st) row col
            && cellIs (board st) row col EMPTY) eqn:Hguard.
  - apply andb_true_iff in Hguard as [Hin Hempty%cellIs_true].
    destruct (makeMove_cells st row col player Hsq Hin Hempty)
      as (_ & _ & _ & _ & Hkeep).
    rewrite Hkeep; [done| |].
    + intros [= -> ->]. rewrite Hempty in Hb. discriminate.
    + intros d l Hd Hl Hp.
      destruct (scanOf_cells _ _ _ _ _ _ _ _ _ Hl Hp) as (k & _ & _ & _ & Hopp).
      simpl in Hopp. rewrite Hb in Hopp.
      destruct (otherPlayer_cases player) as [[Ho|Ho] _];
        rewrite Ho in Hopp; discriminate.
  - unfold makeMove. rewrite <- negb_andb, Hguard. done.
Qed.

(** ** ignoreOcclusion *)

Section Bridge.

Variable N : Z.
Variable player : Z.
Variables row col : Z.
Variable d : Z * Z.
Variable b : Board.

(** [n] cells lie between the placement cell and the mover's disc, each of
    them on the board and holding the opponent or Blocked. *)
Variable n : Z.

Abbreviation opp := (otherPlayer player).

Hypothesis Hplayer : isPlayer player = true.
Hypothesis Hseg : forall k, 1 <= k <= n ->
  rayWithin N row col d k = true
  /\ (rayAt b row col d k = Some opp \/ rayAt b row col d k = Some BLOCKED).
Hypothesis Hend :
  rayWithin N row col d (n + 1) = true
  /\ rayAt b row col d (n + 1) = Some player.

Lemma bridge_tests_opp k :
  rayAt b row col d k = Some opp ->
  cellIs b (row + k * fst d) (col + k * snd d) opp = true.
Proof. intros H. by apply cellIs_true. Qed.

Lemma bridge_tests_blocked k :
  rayAt b row col d k = Some BLOCKED ->
  cellIs b (row + k * fst d) (col + k * snd d) opp = false
  /\ cellIs b (row + k * fst d) (col + k * snd d) BLOCKED = true.
Proof.
  intros H. unfold cellIs. unfold rayAt in H. rewrite H.
  destruct (otherPlayer_cases player) as [[Ho|Ho] _]; rewrite Ho; done.
Qed.

Lemma bridge_tests_end :
  let r := row + (n + 1) * fst d in
  let c := col + (n + 1) * snd d in
  cellIs b r c opp = false /\ cellIs b r c BLOCKED = false
  /\ cellIs b r c EMPTY = false /\ cellIs b r c player = true.
Proof.
  intros r c. destruct Hend as [_ He]. unfold rayAt in He. fold r c in He.
  unfold cellIs. rewrite He.
  destruct (otherPlayer_cases player) as [_ Hne].
  unfold isPlayer, BLACK, WHITE in Hplayer.
  unfold BLOCKED, EMPTY. repeat split; lia.
Qed.

(** With ignoreOcclusion the scan walks over the Blocked cells, collects
    every opponent cell of the segment and ends on the mover's disc. *)
Lemma bridge_flip : forall (m : nat) fuel k acc fo fb,
  k + Z.of_nat m = n + 1 -> 1 <= k -> (m < fuel)%nat ->
  (fo = true -> acc <> []) ->
  (fo = true \/ exists j, k <= j <= n /\ rayAt b row col d j = Some opp) ->
  exists l,
    flipScan N true player b (fst d) (snd d) fuel
      (row + k * fst d) (col + k * snd d) acc fo fb = Some l
    /\ (forall p, p ∈ acc -> p ∈ l)
    /\ (forall j, k <= j <= n -> rayAt b row col d j = Some opp ->
          (row + j * fst d, col + j * snd d) ∈ l).
Proof.
  induction m as [|m IH]; intros fuel k acc fo fb Hkm Hk Hfuel Hacc Hfound.
  - assert (k = n + 1) as -> by lia.
    destruct fuel as [|fuel]; [lia|]. simpl.
    destruct Hend as [Hw _]. unfold rayWithin in Hw. rewrite Hw.
    destruct bridge_tests_end as (-> & -> & -> & ->).
    assert (fo = true) as ->.
    { destruct Hfound as [?|(j & Hj & _)]; [done|lia]. }
    specialize (Hacc eq_refl).
    replace (0 <? Z.of_nat (length acc)) with true
      by (destruct acc; [done|]; cbn [length]; symmetry; apply Z.ltb_lt; lia).
    rewrite orb_true_r. simpl. exists acc. split; [done|]. split; [done|].
    intros j Hj. lia.
  - destruct fuel as [|fuel]; [lia|]. simpl.
    pose proof (ray_next row col d k) as Hs. injection Hs as -> ->.
    destruct (Hseg k ltac:(lia)) as [Hw Hcell].
    unfold rayWithin in Hw. rewrite Hw.
    destruct Hcell as [Ho|Hb].
    + rewrite (bridge_tests_opp k Ho).
      destruct (IH fuel (k + 1) (acc ++ [(row + k * fst d, col + k * snd d)])
                  true fb) as (l & Hl & Hsub & Hall); try lia.
      { intros _. by destruct acc. }
      exists l. split; [done|]. split.
      * intros p Hp. apply Hsub, elem_of_app. by left.
      * intros j Hj Hjo. destruct (decide (j = k)) as [->|Hne].
        -- apply Hsub, elem_of_app. right. by apply list_elem_of_singleton.
        -- apply Hall; [lia|done].
    + destruct (bridge_tests_blocked k Hb) as [-> ->]. simpl.
      destruct (IH fuel (k + 1) acc fo true) as (l & Hl & Hsub & Hall);
        try lia; try done.
      { destruct Hfound as [?|(j & Hj & Hjo)]; [by left|right].
        exists j. split; [|done].
        destruct (decide (j = k)) as [->|Hne]; [|lia].
        rewrite Hb in Hjo. injection Hjo as Hjo.
        symmetry in Hjo. by apply otherPlayer_not_blocked in Hjo. }
      exists l. split; [done|]. split; [done|].
      intros j Hj Hjo.
      destruct (decide (j = k)) as [->|Hne].
      { rewrite Hb in Hjo. injection Hjo as Hjo.
        symmetry in Hjo. by apply otherPlayer_not_blocked in Hjo. }
      apply Hall; [lia|done].
Qed.

(** Without ignoreOcclusion the scan stops at the first Blocked cell of the
    segment and collects nothing. *)
Lemma bridge_blocked : forall (m : nat) fuel k acc fo fb,
  k + Z.of_nat m = n + 1 -> 1 <= k ->
  (exists j, k <= j <= n /\ rayAt b row col d j = Some BLOCKED) ->
  flipScan N false player b (fst d) (snd d) fuel
    (row + k * fst d) (col + k * snd d) acc fo fb = None.
Proof.
  induction m as [|m IH]; intros fuel k acc fo fb Hkm Hk Hblocked.
  - destruct Hblocked as (j & Hj & _). lia.
  - destruct fuel as [|fuel]; [done|]. simpl.
    pose proof (ray_next row col d k) as Hs. injection Hs as -> ->.
    destruct (Hseg k ltac:(lia)) as [Hw Hcell].
    unfold rayWithin in Hw. rewrite Hw.
    destruct Hcell as [Ho|Hb].
    + rewrite (bridge_tests_opp k Ho). apply IH; [lia|lia|].
      destruct Hblocked as (j & Hj & Hjb). exists j. split; [|done].
      destruct (decide (j = k)) as [->|Hne]; [|lia].
      rewrite Ho in Hjb. injection Hjb as Hjb.
      by apply otherPlayer_not_blocked in Hjb.
    + destruct (bridge_tests_blocked k Hb) as [-> ->]. done.
Qed.

End Bridge.

(** C6.  The placement cell is an Empty cell of the board; from it, in one
    of the eight directions, lie [n] cells that each hold the opponent or
    Blocked, with at least one of each, and then the mover's own disc.  With
    ignoreOcclusion the placement is legal, [makeMove] reports a flip, every
    opponent cell of the segment (before and beyond the Blocked cells) turns
    into the mover's disc, and every Blocked cell stays Blocked.  Without
    ignoreOcclusion the scan of that direction ends at the Blocked cell: the
    direction is not accepted by [isValidMove], collects nothing in
    [makeMove], and no cell of that ray changes. *)
Theorem ignoreOcclusion_bridge (st : state) (row col player : Z)
  (d : Z * Z) (n : Z) :
  let N := BOARD_SIZE st in
  let b := board st in
  let opp := otherPlayer player in
  isSquare N b = true -> isPlayer player = true -> d ∈ directions ->
  isWithinBoard N row col = true -> cellAt b row col = Some EMPTY ->
  (forall k, 1 <= k <= n ->
     rayWithin N row col d k = true
     /\ (rayAt b row col d k = Some opp
         \/ rayAt b row col d k = Some BLOCKED)) ->
  (exists k, 1 <= k <= n /\ rayAt b row col d k = Some opp) ->
  (exists k, 1 <= k <= n /\ rayAt b row col d k = Some BLOCKED) ->
  rayWithin N row col d (n + 1) = true
  /\ rayAt b row col d (n + 1) = Some player ->
  let res := makeMove st row col player in
  let b' := board (mr_state res) in
  (stageIgnoreOcclusion st = true ->
     isValidMove st row col player b = true
     /\ mr_flipped res = true
     /\ forall k, 1 <= k <= n ->
          (rayAt b row col d k = Some opp ->
           rayAt b' row col d k = Some player)
          /\ (rayAt b row col d k = Some BLOCKED ->
              rayAt b' row col d k = Some BLOCKED))
  /\ (stageIgnoreOcclusion st = false ->
     validScan N false player b (fst d) (snd d) (scanFuel N)
       (row + fst d) (col + snd d) false false = false
     /\ captureIn N false player row col b d = None
     /\ forall k, 1 <= k -> rayAt b' row col d k = rayAt b row col d k).
Proof.
  intros N b opp Hsq Hplayer Hd Hin Hempty Hseg Hopp Hblocked Hend res b'.
  assert (Hn : 1 <= n < N - 1).
  { destruct Hopp as (k & Hk & _). split; [lia|].
    destruct (decide (N <= n + 1)) as [Hle|]; [|lia].
    pose proof (ray_leaves_board N row col d (n + 1) Hd Hin Hle) as Hout.
    destruct Hend as [Hw _]. unfold rayWithin in Hw. congruence. }
  destruct (makeMove_cells st row col player Hsq Hin Hempty)
    as (_ & _ & Hflip & Hset & Hkeep).
  fold N b res b' in Hflip, Hset, Hkeep.
  split; intros Hign; rewrite Hign in *.
  - destruct (bridge_flip N player row col d b n Hplayer Hseg Hend
                (Z.to_nat n) (scanFuel N) 1 [] false false)
      as (l & Hl & _ & Hall).
    { lia. } { lia. } { unfold scanFuel. lia. } { done. } { by right. }
    assert (Hcap : captureIn N true player row col b d = Some l).
    { unfold captureIn. rewrite <- Hl. f_equal; lia. }
    split; [|split].
    + unfold isValidMove. fold N b. rewrite Hin. unfold cellIs.
      rewrite Hempty. cbn [negb orb Z.eqb EMPTY]. rewrite Hign.
      apply existsb_exists. exists d. split; [by apply list_elem_of_In|].
      apply captureIn_valid. rewrite Hcap. by eexists.
    + apply (Hflip d Hd). rewrite Hcap. by eexists.
    + intros k Hk. split.
      * intros Hko.
        apply (Hset d l (row + k * fst d, col + k * snd d) Hd Hcap).
        by apply Hall.
      * intros Hkb. by apply makeMove_keeps_blocked.
  - assert (Hcap : captureIn N false player row col b d = None).
    { unfold captureIn.
      replace (row + fst d) with (row + 1 * fst d) by lia.
      replace (col + snd d) with (col + 1 * snd d) by lia.
      apply (bridge_blocked N player row col d b n Hseg (Z.to_nat n));
        [lia|lia|done]. }
    split; [|split; [done|]].
    + destruct (validScan N false player b _ _ _ _ _ _ _) eqn:Ev; [|done].
      apply captureIn_valid in Ev. rewrite Hcap in Ev.
      by destruct Ev.
    + intros k Hk. unfold rayAt. apply Hkeep.
      * intros Heq. by apply (rayCell_not_origin row col d k Hd Hk).
      * intros d' l Hd' Hl Hp.
        destruct (scanOf_cells _ _ _ _ _ _ _ _ _ Hl Hp) as (j & Hj & Heq & _).
        apply (rayCell_disjoint row col d d' k j) in Heq; try done.
        subst d'. congruence.
Qed.

Lemma ignoreOcclusion_bridge_witness :
  let jump := mkStage "jump" 4 [mkPos 0 2] [mkPos 0 3] [mkPos 0 1] true false in
  let st := initializeBoard init (Some jump) false in
  board st = [[EMPTY; WHITE; BLOCKED; BLACK]; [EMPTY; EMPTY; EMPTY; EMPTY];
              [EMPTY; EMPTY; EMPTY; EMPTY]; [EMPTY; EMPTY; EMPTY; EMPTY]]
  /\ isValidMove st 0 0 BLACK (board st) = true
  /\ rayAt (board (mr_state (makeMove st 0 0 BLACK))) 0 0 (0, 1) 1 = Some BLACK
  /\ rayAt (board (mr_state (makeMove st 0 0 BLACK))) 0 0 (0, 1) 2
     = Some BLOCKED.
Proof.
  intros jump st. split; [reflexivity|].
  destruct (ignoreOcclusion_bridge st 0 0 BLACK (0, 1) 2) as [Hon _].
  - reflexivity.
  - reflexivity.
  - apply list_elem_of_In. simpl. tauto.
  - reflexivity.
  - reflexivity.
  - intros k Hk. assert (k = 1 \/ k = 2) as [-> | ->] by lia.
    + split; [reflexivity|left; reflexivity].
    + split; [reflexivity|right; reflexivity].
  - exists 1. split; [lia|reflexivity].
  - exists 2. split; [lia|reflexivity].
  - split; reflexivity.
  - destruct (Hon eq_refl) as (Hvalid & _ & Hcells).
    split; [exact Hvalid|].
    split; [apply (Hcells 1); [lia|reflexivity]|].
    apply (Hcells 2); [lia|reflexivity].
Defined.

(** The same position without ignoreOcclusion: the Blocked cell ends the
    only promising scan, so the placement is not legal. *)
Example occlusion_blocks_without_rule :
  let wall := mkStage "wall" 4 [mkPos 0 2] [mkPos 0 3] [mkPos 0 1] false false in
  let st := initializeBoard init (Some wall) false in
  isValidMove st 0 0 BLACK (board st) = false
  /\ getValidMoves st BLACK (board st) = [].
Proof. split; reflexivity. Qed.

(** ** createInitialBoard: precedence of the placements *)

(** When the engine's BOARD_SIZE is the size of the board being built (as
    [initializeBoard] sets it just before it calls [createInitialBoard]), the
    placements follow a fixed precedence: a listed Blocked cell is Blocked,
    otherwise a cell listed for Black is Black, otherwise a cell listed for
    White is White, otherwise the cell is Empty; placements outside the board
    have no effect and the board is an [N] by [N] square. *)
Lemma createInitialBoard_precedence (N : Z) (cfg : StageConfig) :
  N = stageBoardSize cfg ->
  let b := createInitialBoard N (Some cfg) in
  isSquare N b = true
  /\ forall x y,
       cellAt b x y =
       if isWithinBoard N x y then
         Some (if listed x y (initialBlocked cfg) then BLOCKED
               else if listed x y (initialPlayer1 cfg) then BLACK
               else if listed x y (initialPlayer2 cfg) then WHITE
               else EMPTY)
       else None.
Proof.
  intros -> b.
  destruct (createInitialBoard_cells (stageBoardSize cfg) cfg) as [Hsq Hcells];
    [lia|].
  split; [done|]. intros x y. unfold b. rewrite Hcells.
  by destruct (isWithinBoard (stageBoardSize cfg) x y).
Qed.

Lemma initializeBoard_precedence (st : state) (cfg : StageConfig)
  (isPreview : bool) :
  boardSize cfg <> 0 ->
  let st' := initializeBoard st (Some cfg) isPreview in
  BOARD_SIZE st' = boardSize cfg
  /\ isSquare (BOARD_SIZE st') (board st') = true
  /\ forall x y,
       isWithinBoard (boardSize cfg) x y = true ->
       cellAt (board st') x y =
       Some (if listed x y (initialBlocked cfg) then BLOCKED
             else if listed x y (initialPlayer1 cfg) then BLACK
             else if listed x y (initialPlayer2 cfg) then WHITE
             else EMPTY).
Proof.
  intros Hsize st'.
  assert (Hs : boardSize cfg = stageBoardSize cfg).
  { unfold stageBoardSize. destruct (Z.eqb_spec (boardSize cfg) 0); done. }
  destruct (createInitialBoard_precedence (boardSize cfg) cfg Hs) as [Hsq Hc].
  assert (Hb : board st' = createInitialBoard (boardSize cfg) (Some cfg)
               /\ BOARD_SIZE st' = boardSize cfg).
  { unfold st', initializeBoard. by destruct isPreview. }
  destruct Hb as [Hb HN]. rewrite HN, Hb.
  split; [done|]. split; [done|].
  intros x y Hin. rewrite Hc, Hin. done.
Qed.

(** C10, where the code departs from it.  [createInitialBoard] tests the
    placements against the engine's BOARD_SIZE and not against the size of the
    board it allocates.  After a 6 by 6 stage was shown, building the 8 by 8
    "Partial C-Squares" board (as the replay view does) drops the Blocked
    cells (1, 7), (7, 6) and (6, 0), which lie inside the 8 by 8 board; only
    (0, 1) is placed. *)
Theorem createInitialBoard_stale_size :
  let st := initializeBoard init (Some stage_small) true in
  let b := createInitialBoard (BOARD_SIZE st) (Some stage_csquares) in
  BOARD_SIZE st = 6
  /\ isSquare 8 b = true
  /\ listed 1 7 (initialBlocked stage_csquares) = true
  /\ isWithinBoard 8 1 7 = true
  /\ cellAt b 1 7 = Some EMPTY
  /\ cellAt b 7 6 = Some EMPTY
  /\ cellAt b 6 0 = Some EMPTY
  /\ cellAt b 0 1 = Some BLOCKED
  /\ cellAt (board (initializeBoard st (Some stage_csquares) true)) 1 7
     = Some BLOCKED.
Proof. vm_compute. repeat split. Qed.

(** ** The turn scheduler *)

Lemma timeUsed_addTime st p dt :
  GameController.timeUsed (GameController.addTime st p dt) p
  = (GameController.timeUsed st p + dt)%Q.
Proof.
  unfold GameController.timeUsed, GameController.addTime.
  by destruct (p =? BLACK).
Qed.

Lemma core_addTime st p dt :
  GameController.core (GameController.addTime st p dt) = GameController.core st.
Proof. unfold GameController.addTime. by destruct (p =? BLACK). Qed.

(** [Math.floor(Math.random() * n)] is an index of a list of [n > 0]
    elements, because [Math.random()] lies in [0, 1). *)
Lemma randomMove_member (validMoves : list Move) (rnd : Q) :
  validMoves <> [] -> (0 <= rnd)%Q -> (rnd < 1)%Q ->
  exists m, GameController.randomMove validMoves rnd = Some m
            /\ m ∈ validMoves.
Proof.
  intros Hne H0 H1. unfold GameController.randomMove.
  set (n := Z.of_nat (length validMoves)).
  assert (Hn : 0 < n) by (unfold n; destruct validMoves; [done|simpl; lia]).
  set (i := Qfloor (rnd * inject_Z n)).
  assert (Hi : 0 <= i < n).
  { split.
    - change 0 with (Qfloor 0). apply Qfloor_resp_le.
      apply Qmult_le_0_compat; [done|].
      change 0%Q with (inject_Z 0). rewrite <- Zle_Qle. lia.
    - rewrite Zlt_Qlt. eapply Qle_lt_trans; [apply Qfloor_le|].
      rewrite <- (Qmult_1_l (inject_Z n)) at 2.
      apply Qmult_lt_compat_r; [|done].
      change 0%Q with (inject_Z 0). rewrite <- Zlt_Qlt. lia. }
  replace (i <? 0) with false by lia.
  destruct (lookup_lt_is_Some_2 validMoves (Z.to_nat i)) as [m Hm]; [lia|].
  exists m. split; [done|]. eapply list_elem_of_lookup_2, Hm.
Qed.

Lemma isReturnedMoveInList_spec (validMoves : list Move) (m : Move) :
  GameController.isReturnedMoveInList validMoves (Some m) = true
  <-> m ∈ validMoves.
Proof.
  unfold GameController.isReturnedMoveInList.
  rewrite existsb_exists. split.
  - intros (v & Hv & Heq). apply list_elem_of_In in Hv.
    assert (v = m) as <-; [|done].
    destruct v, m. simpl in Heq. f_equal; lia.
  - intros Hm. exists m. split; [by apply list_elem_of_In|lia].
Qed.

(** The strategy returned [null] or a move that is not in the list. *)
Lemma misbehaved_not_in_list (validMoves : list Move) (move : option Move) :
  match move with None => True | Some m => m ∉ validMoves end ->
  GameController.isReturnedMoveInList validMoves move = false.
Proof.
  destruct move as [m|]; [|done]. intros Hm.
  apply not_true_is_false. by rewrite isReturnedMoveInList_spec.
Qed.

(** The turn of a compiled strategy whose player stays within the budget:
    the scheduler works on the engine as the strategy's own calls of
    [makeMove] left it and with the list of moves as the strategy left it. *)
Lemma strategyPly_within_budget (st : GameController.state) (p : Z)
  (inp : GameController.plyInput) :
  let c := GameController.core st in
  gameRunning c = true -> gameOver c = false ->
  (GameController.timeUsed st p + GameController.moveTime inp
   <= MAX_AI_TIME_PER_GAME)%Q ->
  let st1 :=
    GameController.addTime
      (GameController.with_core st
         (GameController.strategyCalls c (GameController.makeMoveCalls inp)))
      p (GameController.moveTime inp) in
  let move := GameController.returnedMove inp in
  let validMoves := GameController.movesLeft inp in
  GameController.strategyPly st p inp
  = if GameController.isNull move
       || negb (GameController.isReturnedMoveInList validMoves move)
    then
      match GameController.randomMove validMoves
              (GameController.randomDraw inp) with
      | Some actualMove => GameController.applyAndAdvance st1 actualMove p
      | None =>
          GameController.useFallbackMove st1 p (GameController.randomDraw inp)
      end
    else
      match move with
      | Some actualMove => GameController.applyAndAdvance st1 actualMove p
      | None => (st1, GameController.Halt)
      end.
Proof.
  intros c Hrun Hover Htime st1 move validMoves.
  unfold GameController.strategyPly. fold c. rewrite Hrun, Hover.
  cbn [negb orb]. fold st1.
  assert (Ht : GameController.timeUsed st1 p
               = (GameController.timeUsed st p
                  + GameController.moveTime inp)%Q).
  { unfold st1. rewrite timeUsed_addTime.
    unfold GameController.timeUsed, GameController.with_core. cbn.
    by destruct (p =? BLACK). }
  unfold OthelloUI.checkTimeLimit. rewrite Ht.
  assert (Hbudget : OthelloUI.overBudget
            (GameController.timeUsed st p + GameController.moveTime inp)
          = false).
  { unfold OthelloUI.overBudget. apply negb_false_iff.
    by apply Qle_bool_iff. }
  by rewrite Hbudget.
Qed.


(** Over budget after the call, the turn ends the game instead: the
    scheduler stops with the state [checkTimeLimit] leaves, whatever the
    strategy returned. *)
Lemma makeAIMove_over_budget (st : GameController.state)
  (inp : GameController.plyInput) :
  let c := GameController.core st in
  let p := currentPlayer c in
  let t := (GameController.timeUsed st p + GameController.moveTime inp)%Q in
  let c0 :=
    GameController.strategyCalls c (GameController.makeMoveCalls inp) in
  gameRunning c = true -> gameOver c = false ->
  getValidMoves c p (board c) <> [] ->
  (MAX_AI_TIME_PER_GAME < t)%Q ->
  GameController.makeAIMove st (GameController.Strategy true) inp
  = (GameController.with_core
       (GameController.addTime (GameController.with_core st c0) p
          (GameController.moveTime inp))
       (OthelloUI.checkTimeLimit c0 p t).1.1,
     GameController.Halt).
Proof.
  intros c p t c0 Hrun Hover Hne Ht.
  unfold GameController.makeAIMove. fold c. rewrite Hrun, Hover.
  cbn [negb orb]. fold p.
  destruct (Nat.eqb_spec (length (getValidMoves c p (board c))) 0) as [Hlen|_].
  { by destruct (getValidMoves c p (board c)). }
  unfold GameController.strategyPly. fold c. rewrite Hrun, Hover.
  cbn [negb orb]. fold c0.
  rewrite timeUsed_addTime, core_addTime.
  replace (GameController.timeUsed (GameController.with_core st c0) p)
    with (GameController.timeUsed st p)
    by (unfold GameController.timeUsed; cbn; by destruct (p =? BLACK)).
  fold t. cbn [GameController.core GameController.with_core].
  apply overBudget_spec in Ht.
  unfold OthelloUI.checkTimeLimit. rewrite Ht.
  by destruct (endGame _ _).
Qed.



(** The list of legal moves is handed to the strategy as the array the
    scheduler itself reads afterwards.  A strategy that appends the corner
    (0, 0), which is not a legal move on the standard opening, and returns
    it, passes the membership test: the corner is played, nothing is
    flipped, and no replacement is chosen. *)
Example makeAIMove_appended_move_is_played :
  let c := setGameRunning (initializeBoard init (Some stage_standard) false)
             true in
  let st := GameController.mkCtl c 0 0 in
  let validMoves := getValidMoves c BLACK (board c) in
  let inp := GameController.mkPly (Some (mkMove 0 0)) 20 (1 # 2)
               (validMoves ++ [mkMove 0 0]) [] in
  let out := GameController.makeAIMove st (GameController.Strategy true) inp in
  isValidMove c 0 0 BLACK (board c) = false
  /\ out.2 = GameController.Reenter
  /\ board (GameController.core out.1)
     = board (mr_state (makeMove c 0 0 BLACK))
  /\ discs BLACK (board (GameController.core out.1)) = 3
  /\ discs WHITE (board (GameController.core out.1)) = 2.
Proof. vm_compute. repeat split. Qed.

(** The [makeMove] handed to the strategy is the engine's own.  A strategy
    that tries out its move with it and then returns the move has the disc
    on the board before the scheduler applies the move: the scheduler's own
    [makeMove] finds the cell taken and changes nothing more. *)
Example makeAIMove_strategy_plays_itself :
  let c := setGameRunning (initializeBoard init (Some stage_standard) false)
             true in
  let st := GameController.mkCtl c 0 0 in
  let inp := GameController.mkPly (Some (mkMove 2 3)) 20 (1 # 2)
               (getValidMoves c BLACK (board c))
               [GameController.mkCall 2 3 BLACK] in
  let out := GameController.makeAIMove st (GameController.Strategy true) inp in
  let c0 := mr_state (makeMove c 2 3 BLACK) in
  mkMove 2 3 ∈ getValidMoves c BLACK (board c)
  /\ mr_flipped (makeMove c0 2 3 BLACK) = false
  /\ board (GameController.core out.1) = board c0.
Proof.
  vm_compute. split; [|done].
  apply list_elem_of_In. vm_compute. tauto.
Qed.

(** [useFallbackMove], the path taken when no strategy function could be
    obtained, charges the 100 ms penalty before it checks the budget. *)
Lemma useFallbackMove_penalty (st : GameController.state) (player : Z)
  (rnd : Q) :
  getValidMoves (GameController.core st) player
    (board (GameController.core st)) <> [] ->
  let out := GameController.useFallbackMove st player rnd in
  GameController.timeUsed out.1 player
  = (GameController.timeUsed st player + 100)%Q
  /\ (OthelloUI.overBudget (GameController.timeUsed st player + 100) = true ->
      out.2 = GameController.Halt).
Proof.
  intros Hne out. unfold out, GameController.useFallbackMove.
  destruct (Nat.eqb_spec (length (getValidMoves (GameController.core st) player
              (board (GameController.core st)))) 0) as [Hlen|_].
  { destruct (getValidMoves _ _ _); done. }
  pose proof (timeUsed_addTime st player 100) as Ht.
  destruct (OthelloUI.checkTimeLimit _ _ _) as [[c2 over] res] eqn:Hchk.
  unfold OthelloUI.checkTimeLimit in Hchk. rewrite Ht in Hchk.
  destruct (OthelloUI.overBudget (GameController.timeUsed st player + 100))
    eqn:Hover.
  - destruct (endGame _ _) as [st2 r2]. injection Hchk as <- <- <-.
    cbn. split; [|done].
    rewrite <- Ht. unfold GameController.timeUsed, GameController.addTime.
    by destruct (player =? BLACK).
  - injection Hchk as <- <- <-. split; [|done].
    destruct (GameController.randomMove _ rnd) as [m|]; cbn; [|done].
    rewrite <- Ht. unfold GameController.timeUsed, GameController.addTime.
    by destruct (player =? BLACK).
Qed.

(** C7, where the code departs from it.  When the strategy returned nothing
    or a move outside the legal-move list (the list as the strategy left it,
    which still holds a move) and the scheduler substitutes a random move of
    the list in [makeAIMove] itself, the player's time grows by the time the
    call took and by nothing else: the 100 ms penalty is charged only in
    [useFallbackMove], and the budget is not checked again. *)
Theorem makeAIMove_inline_fallback_time (st : GameController.state)
  (inp : GameController.plyInput) :
  let c := GameController.core st in
  let p := currentPlayer c in
  let validMoves := getValidMoves c p (board c) in
  isSquare (BOARD_SIZE c) (board c) = true ->
  gameRunning c = true -> gameOver c = false ->
  validMoves <> [] ->
  GameController.movesLeft inp <> [] ->
  match GameController.returnedMove inp with
  | None => True
  | Some m => m ∉ GameController.movesLeft inp
  end ->
  (GameController.timeUsed st p + GameController.moveTime inp
   <= MAX_AI_TIME_PER_GAME)%Q ->
  (0 <= GameController.randomDraw inp)%Q ->
  (GameController.randomDraw inp < 1)%Q ->
  let out := GameController.makeAIMove st (GameController.Strategy true) inp in
  GameController.timeUsed out.1 p
  = (GameController.timeUsed st p + GameController.moveTime inp)%Q
  /\ out.2 = GameController.Reenter.
Proof.
  intros c p validMoves _ Hrun Hover Hne Hleft Hnot%misbehaved_not_in_list
    Htime H0 H1.
  destruct (randomMove_member (GameController.movesLeft inp) _ Hleft H0 H1)
    as (m & Hm & Hin).
  unfold GameController.makeAIMove. fold c. rewrite Hrun, Hover.
  cbn [negb orb]. fold p validMoves.
  destruct (Nat.eqb_spec (length validMoves) 0) as [Hlen|_].
  { by destruct validMoves. }
  rewrite strategyPly_within_budget by done.
  rewrite Hnot, orb_true_r, Hm.
  unfold GameController.applyAndAdvance. cbn. split; [|done].
  rewrite <- timeUsed_addTime.
  unfold GameController.timeUsed, GameController.addTime,
    GameController.with_core. cbn.
  by destruct (p =? BLACK).
Qed.

Lemma makeAIMove_inline_fallback_time_witness :
  let c := setGameRunning (initializeBoard init (Some stage_standard) false)
             true in
  let st := GameController.mkCtl c 0 0 in
  let inp := GameController.mkPly None 20 (1 # 2)
               (getValidMoves c BLACK (board c)) [] in
  let out := GameController.makeAIMove st (GameController.Strategy true) inp in
  GameController.blackTimeUsed out.1 = (0 + 20)%Q
  /\ ~ (GameController.blackTimeUsed out.1 == 0 + 20 + 100)%Q
  /\ (GameController.blackTimeUsed
        (GameController.useFallbackMove st BLACK (1 # 2)).1 == 0 + 100)%Q.
Proof.
  intros c st inp out.
  assert (Hmoves : getValidMoves c BLACK (board c) <> []) by discriminate.
  assert (Htime : (0 + 20 <= MAX_AI_TIME_PER_GAME)%Q) by discriminate.
  assert (Hlo : (0 <= 1 # 2)%Q) by discriminate.
  assert (Hhi : (1 # 2 < 1)%Q) by reflexivity.
  destruct (makeAIMove_inline_fallback_time st inp eq_refl eq_refl eq_refl
              Hmoves Hmoves I Htime Hlo Hhi) as [Ht _].
  split; [exact Ht|]. split; [|reflexivity].
  intros Hq. vm_compute in Hq. discriminate.
Defined.

(** ** Upload validation *)

Lemma prefix_spec (a b : string) :
  String.prefix a b = true <-> exists post, b = a +:+ post.
Proof.
  revert a. induction b as [|y b IH]; intros [|x a]; simpl.
  - split; [intros _; by exists EmptyString|done].
  - split; [done|intros [post H]; discriminate].
  - split; [intros _; by exists (String y b)|done].
  - destruct (Ascii.ascii_dec x y) as [->|Hne].
    + rewrite IH. split; intros [post H]; exists post.
      * by rewrite H.
      * by injection H.
    + split; [done|]. intros [post H]. injection H as H _. congruence.
Qed.

Lemma includes_spec (needle hay : string) :
  includes needle hay = true <-> contains needle hay.
Proof.
  unfold contains. induction hay as [|y hay IH]; cbn [includes].
  - rewrite orb_false_r, prefix_spec. split.
    + intros [post H]. by exists EmptyString, post.
    + intros (pre & post & H). destruct pre; [by exists post|discriminate].
  - rewrite orb_true_iff, prefix_spec, IH. split.
    + intros [[post H]|(pre & post & H)].
      * by exists EmptyString, post.
      * exists (String y pre), post. simpl. by rewrite H.
    + intros (pre & post & H). destruct pre as [|x pre].
      * left. by exists post.
      * right. injection H as _ H. by exists pre, post.
Qed.

Lemma string_app_assoc (a b c : string) : (a +:+ b) +:+ c = a +:+ (b +:+ c).
Proof.
  induction a as [|x a IH]; [done|].
  change (String x ((a +:+ b) +:+ c) = String x (a +:+ (b +:+ c))).
  by rewrite IH.
Qed.

Lemma contains_trans (a b c : string) :
  contains a b -> contains b c -> contains a c.
Proof.
  intros (p1 & q1 & ->) (p2 & q2 & ->).
  exists (p2 +:+ p1), (q1 +:+ q2).
  by rewrite !string_app_assoc.
Qed.

Lemma hasAnalyzeStage_contains code :
  IntelligentSystemInterface.hasAnalyzeStage code = true <->
  contains "function analyzeStage" code \/ contains "analyzeStage =" code.
Proof.
  unfold IntelligentSystemInterface.hasAnalyzeStage.
  by rewrite orb_true_iff, !includes_spec.
Qed.

(** C9, as the code has it.  All tests are substring tests.  A strategy
    file is stored only if its text contains "studentStrategy" or
    "function(", and never if it contains "analyzeStage".  An analysis upload
    succeeds only if its text contains "function analyzeStage" or
    "analyzeStage =", and so contains "analyzeStage". *)
Theorem upload_validation_substrings (fileName code : string) :
  (forall name,
     OthelloStrategies.checkStrategyFile fileName code = inl name ->
     name = stripJsSuffix fileName
     /\ (contains "studentStrategy" code \/ contains "function(" code)
     /\ ~ contains "analyzeStage" code)
  /\ (contains "analyzeStage" code ->
      exists message,
        OthelloStrategies.checkStrategyFile fileName code = inr message)
  /\ (forall compileSystem reg stageConfig reg',
        IntelligentSystemInterface.uploadIntelligentSystem compileSystem reg
          fileName code stageConfig = (reg', true) ->
        (contains "function analyzeStage" code
         \/ contains "analyzeStage =" code)
        /\ contains "analyzeStage" code).
Proof.
  split; [|split].
  - intros name. unfold OthelloStrategies.checkStrategyFile.
    destruct (isEmptyString code || isEmptyString (stripJsSuffix fileName));
      [done|].
    destruct (includes "studentStrategy" code) eqn:E1;
      destruct (includes "function(" code) eqn:E2; simpl; try done;
      destruct (includes "analyzeStage" code) eqn:E3; try done;
      intros [= <-]; (split; [done|]); split;
      try (left; by apply includes_spec);
      try (right; by apply includes_spec);
      rewrite <- includes_spec; congruence.
  - intros Hc%includes_spec. unfold OthelloStrategies.checkStrategyFile.
    rewrite Hc.
    destruct (isEmptyString code || isEmptyString (stripJsSuffix fileName));
      [by eexists|].
    destruct (negb _ && negb _); by eexists.
  - intros compileSystem reg stageConfig reg'.
    unfold IntelligentSystemInterface.uploadIntelligentSystem.
    destruct (IntelligentSystemInterface.hasAnalyzeStage code) eqn:E;
      [|intros [= _ ?]; done].
    intros _. apply hasAnalyzeStage_contains in E. split; [done|].
    destruct E as [E|E]; (eapply contains_trans; [|exact E]).
    + by exists "function ", "".
    + by exists "", " =".
Qed.

(** C9 as stated fails twice.  A strategy file that never mentions
    [studentStrategy] is stored when it contains "function("; and an analysis
    upload that reuses the name [studentStrategy] (here for the function its
    [analyzeStage] returns) passes the test and is analysed successfully. *)
Lemma upload_validation_gaps :
  let strategyText := "const pick = function(board, player, validMoves) { return validMoves[0]; };" in
  let analysisText := "function analyzeStage(config, board, moves, api) { return function studentStrategy(b, p, v) { return v[0]; }; }" in
  let returned : IntelligentSystemInterface.StrategyFn :=
    fun _ _ validMoves _ => IntelligentSystemInterface.Returned (head validMoves) in
  let compileSystem := fun _ : string =>
    Some (fun _ : StageConfig =>
            IntelligentSystemInterface.AnalysisReturned
              (IntelligentSystemInterface.VFunction returned)) in
  includes "studentStrategy" strategyText = false
  /\ OthelloStrategies.checkStrategyFile "pick.js" strategyText = inl "pick"
  /\ includes "studentStrategy" analysisText = true
  /\ (IntelligentSystemInterface.uploadIntelligentSystem compileSystem ∅
        "system.js" analysisText stage_standard).2 = true.
Proof. vm_compute. repeat split. Qed.

(** ** The analysis pipeline *)

Lemma fallbackStrategy_member (b : Board) (player : Z)
  (validMoves : list Move) (rnd : Q) :
  (0 <= rnd)%Q -> (rnd < 1)%Q ->
  match validMoves with
  | [] => IntelligentSystemInterface.fallbackStrategy b player validMoves rnd
          = IntelligentSystemInterface.Returned None
  | _ :: _ =>
      exists m,
        IntelligentSystemInterface.fallbackStrategy b player validMoves rnd
        = IntelligentSystemInterface.Returned (Some m)
        /\ m ∈ validMoves
  end.
Proof.
  intros H0 H1. destruct validMoves as [|m0 rest]; [done|].
  destruct (randomMove_member (m0 :: rest) rnd) as (m & Hm & Hin); try done.
  exists m. split; [|done].
  unfold IntelligentSystemInterface.fallbackStrategy. cbn [length Nat.eqb].
  by rewrite Hm.
Qed.

(** C8, as the code has it.  When the uploaded text passes the textual test
    and compiles, and the analysis function returns a value that is not a
    function, the analysis still succeeds: a substitute strategy is registered
    under the generated name.  The substitute answers [null] on an empty
    legal-move list and otherwise a member of the list, drawn at random. *)
Theorem analysis_substitutes_random_strategy
  (compileSystem : string -> option (StageConfig -> IntelligentSystemInterface.analysisRun))
  (reg : gmap string IntelligentSystemInterface.StrategyFn)
  (systemName systemCode : string) (stageConfig : StageConfig)
  (analyzeStageFunc : StageConfig -> IntelligentSystemInterface.analysisRun) :
  isEmptyString systemCode = false ->
  IntelligentSystemInterface.hasAnalyzeStage systemCode = true ->
  compileSystem systemCode = Some analyzeStageFunc ->
  analyzeStageFunc stageConfig
  = IntelligentSystemInterface.AnalysisReturned IntelligentSystemInterface.VOther ->
  let out := IntelligentSystemInterface.analyzeStageWithSystem compileSystem
               reg systemName stageConfig systemCode in
  let generatedName :=
    IntelligentSystemInterface.generatedStrategyName systemName stageConfig in
  out.2 = true
  /\ out.1 !! generatedName = Some IntelligentSystemInterface.fallbackStrategy
  /\ forall b player validMoves rnd,
       (0 <= rnd)%Q -> (rnd < 1)%Q ->
       match validMoves with
       | [] => IntelligentSystemInterface.fallbackStrategy b player
                 validMoves rnd
               = IntelligentSystemInterface.Returned None
       | _ :: _ =>
           exists m,
             IntelligentSystemInterface.fallbackStrategy b player
               validMoves rnd
             = IntelligentSystemInterface.Returned (Some m)
             /\ m ∈ validMoves
       end.
Proof.
  intros Hcode Htest Hcompile Hrun out generatedName.
  assert (Hout : out = (<[generatedName
                          := IntelligentSystemInterface.fallbackStrategy]> reg,
                        true)).
  { unfold out, IntelligentSystemInterface.analyzeStageWithSystem.
    by rewrite Hcode, Htest, Hcompile, Hrun. }
  rewrite Hout. cbn [fst snd].
  split; [done|]. split; [apply lookup_insert_eq|].
  intros b player validMoves rnd H0 H1.
  by apply fallbackStrategy_member.
Qed.

Lemma analysis_substitutes_random_strategy_witness :
  let compileSystem := fun _ : string =>
    Some (fun _ : StageConfig =>
            IntelligentSystemInterface.AnalysisReturned
              IntelligentSystemInterface.VOther) in
  let code := "function analyzeStage(config, board, moves, api) { return 42; }" in
  (IntelligentSystemInterface.analyzeStageWithSystem compileSystem ∅
     "system" stage_standard code).2 = true.
Proof.
  intros compileSystem code.
  apply (analysis_substitutes_random_strategy compileSystem ∅ "system" code
           stage_standard (fun _ => IntelligentSystemInterface.AnalysisReturned
                                      IntelligentSystemInterface.VOther));
    reflexivity.
Defined.

(** C8 as stated fails: the substitute registered for an analysis that
    returned a number does not pick the first legal move.  With two legal
    moves and a random draw of 1/2 it answers the second. *)
Lemma analysis_substitute_not_first_move :
  let compileSystem := fun _ : string =>
    Some (fun _ : StageConfig =>
            IntelligentSystemInterface.AnalysisReturned
              IntelligentSystemInterface.VOther) in
  let code := "function analyzeStage(config, board, moves, api) { return 42; }" in
  let out := IntelligentSystemInterface.analyzeStageWithSystem compileSystem ∅
               "system" stage_standard code in
  let validMoves := [mkMove 2 3; mkMove 3 2] in
  out.2 = true
  /\ exists f,
       out.1 !! IntelligentSystemInterface.generatedStrategyName "system"
                  stage_standard = Some f
       /\ f [] BLACK validMoves (1 # 2)
          = IntelligentSystemInterface.Returned (Some (mkMove 3 2))
       /\ f [] BLACK validMoves (1 # 2)
          <> IntelligentSystemInterface.Returned (head validMoves).
Proof.
  intros compileSystem code out validMoves. split; [reflexivity|].
  exists IntelligentSystemInterface.fallbackStrategy.
  split; [apply lookup_insert_eq|]. split; [reflexivity|].
  vm_compute. discriminate.
Qed.


(** * Further properties of the code *)

(** ** Cells and counts *)

Lemma cellsOk_spec b :
  cellsOk b = true <->
  forall r c v, cellAt b r c = Some v -> 0 <= v <= 3.
Proof.
  unfold cellsOk. rewrite forallb_forall. split.
  - intros H r c v Hc. unfold cellAt in Hc.
    destruct ((r <? 0) || (c <? 0)); [done|].
    destruct (b !! Z.to_nat r) as [cells|] eqn:Er; [|done]. simpl in Hc.
    assert (Hin : In cells b).
    { apply list_elem_of_In. by eapply list_elem_of_lookup_2. }
    specialize (H cells Hin). rewrite forallb_forall in H.
    assert (Hv : In v cells).
    { apply list_elem_of_In. by eapply list_elem_of_lookup_2. }
    specialize (H v Hv). lia.
  - intros H cells Hin. apply forallb_forall. intros v Hv.
    apply list_elem_of_In, list_elem_of_lookup_1 in Hin as [i Hi].
    apply list_elem_of_In, list_elem_of_lookup_1 in Hv as [j Hj].
    specialize (H (Z.of_nat i) (Z.of_nat j) v).
    unfold cellAt in H.
    assert (E : (Z.of_nat i <? 0) || (Z.of_nat j <? 0) = false)
      by (apply orb_false_iff; split; apply Z.ltb_ge; lia).
    rewrite E in H.
    rewrite !Nat2Z.id, Hi in H. simpl in H. specialize (H Hj). lia.
Qed.

(** A write either leaves a cell as it was or makes it hold the value
    written. *)
Lemma cellAt_setCell_cases b r c v x y :
  cellAt (setCell b r c v) x y = cellAt b x y
  \/ cellAt (setCell b r c v) x y = Some v.
Proof.
  destruct (decide ((r, c) = (x, y))) as [[= -> ->]|Hne].
  - destruct (cellAt b x y) as [old|] eqn:Eo.
    + right. apply cellAt_setCell_eq. by rewrite Eo.
    + left. unfold cellAt, setCell in *.
      destruct ((x <? 0) || (y <? 0)); [done|].
      rewrite list_lookup_alter, decide_True by done.
      destruct (b !! Z.to_nat x) as [cells|]; simpl in *; [|done].
      apply lookup_ge_None in Eo. apply lookup_ge_None.
      by rewrite length_insert.
  - left. by apply cellAt_setCell_ne.
Qed.

Lemma cellsOk_setCell b r c v :
  cellsOk b = true -> 0 <= v <= 3 -> cellsOk (setCell b r c v) = true.
Proof.
  rewrite !cellsOk_spec. intros H Hv x y w Hw.
  destruct (cellAt_setCell_cases b r c v x y) as [E|E]; rewrite E in Hw.
  - by apply (H x y).
  - by injection Hw as <-.
Qed.

Lemma cellsOk_flipAll p l : forall b,
  cellsOk b = true -> 0 <= p <= 3 -> cellsOk (flipAll b p l) = true.
Proof.
  induction l as [|q l IH]; intros b Hb Hp; simpl; [done|].
  apply IH; [|done]. by apply cellsOk_setCell.
Qed.

Lemma isPlayer_cases p : isPlayer p = true <-> p = BLACK \/ p = WHITE.
Proof. unfold isPlayer. rewrite orb_true_iff, !Z.eqb_eq. done. Qed.

(** ** The rule of isValidMove *)

Section Bracket.

Variable N : Z.
Variable ign : bool.
Variable player : Z.
Variables row col : Z.
Variable d : Z * Z.
Variable b : Board.

Hypothesis Hsq : isSquare N b = true.
Hypothesis Hok : cellsOk b = true.
Hypothesis Hplayer : isPlayer player = true.
Hypothesis Hd : d ∈ directions.
Hypothesis Hin : isWithinBoard N row col = true.

(** The cells [k .. n] of the ray are on the board and hold opponent discs
    (or Blocked cells, under ignoreOcclusion), an opponent disc was seen
    before [k] or is among them, and cell [n + 1] holds the mover's disc. *)
Abbreviation bracketsFrom k fo n :=
  (k - 1 <= n
   /\ (forall j, k <= j <= n ->
         rayWithin N row col d j = true
         /\ (rayAt b row col d j = Some (otherPlayer player)
             \/ (ign = true /\ rayAt b row col d j = Some BLOCKED)))
   /\ (fo = true
       \/ exists j, k <= j <= n
                    /\ rayAt b row col d j = Some (otherPlayer player))
   /\ rayWithin N row col d (n + 1) = true
   /\ rayAt b row col d (n + 1) = Some player).

Lemma bracket_outside k fo n :
  rayWithin N row col d k = false -> ~ bracketsFrom k fo n.
Proof.
  intros Hout (Hn & Hseg & _ & Hw & _).
  destruct (decide (n = k - 1)) as [->|Hne].
  - replace (k - 1 + 1) with k in Hw by lia. congruence.
  - destruct (Hseg k ltac:(lia)) as [Hw' _]. congruence.
Qed.

Lemma bracket_step k fo v :
  rayAt b row col d k = Some v ->
  rayWithin N row col d k = true ->
  (exists n, bracketsFrom k fo n) <->
  (v = player /\ fo = true)
  \/ (v = otherPlayer player /\ exists n, bracketsFrom (k + 1) true n)
  \/ (ign = true /\ v = BLOCKED /\ exists n, bracketsFrom (k + 1) fo n).
Proof.
  intros Hv Hw.
  destruct (otherPlayer_cases player) as [_ Hne].
  pose proof (otherPlayer_not_blocked player) as Hnb.
  split.
  - intros (n & Hn & Hseg & Hfo & Hwe & He).
    destruct (decide (n = k - 1)) as [->|Hnk].
    + left. replace (k - 1 + 1) with k in He by lia.
      split; [congruence|]. destruct Hfo as [|(j & Hj & _)]; [done|lia].
    + right. destruct (Hseg k ltac:(lia)) as [_ [Ho|[Hi Hb]]].
      * left. split; [congruence|]. exists n.
        split; [lia|]. split; [intros j Hj; apply Hseg; lia|].
        split; [by left|done].
      * right. split; [done|]. split; [congruence|]. exists n.
        split; [lia|]. split; [intros j Hj; apply Hseg; lia|].
        split; [|done].
        destruct Hfo as [|(j & Hj & Ho)]; [by left|]. right.
        exists j. split; [|done].
        destruct (decide (j = k)) as [->|]; [congruence|lia].
  - intros [[-> ->]|[[-> (n & Hn & Hseg & Hfo & Hwe & He)]
                     |(Hi & -> & n & Hn & Hseg & Hfo & Hwe & He)]].
    + exists (k - 1). split; [lia|]. split; [intros j Hj; lia|].
      split; [by left|]. by replace (k - 1 + 1) with k by lia.
    + exists n. split; [lia|]. split.
      * intros j Hj. destruct (decide (j = k)) as [->|].
        -- split; [done|by left].
        -- apply Hseg. lia.
      * split; [|done]. right. exists k. split; [lia|done].
    + exists n. split; [lia|]. split.
      * intros j Hj. destruct (decide (j = k)) as [->|].
        -- split; [done|by right].
        -- apply Hseg. lia.
      * split; [|done]. destruct Hfo as [|(j & Hj & Ho)]; [by left|].
        right. exists j. split; [lia|done].
Qed.

Lemma validScan_bracket : forall fuel k fo fb,
  1 <= k -> N <= k + Z.of_nat fuel -> (fb = true -> ign = true) ->
  validScan N ign player b (fst d) (snd d) fuel
    (row + k * fst d) (col + k * snd d) fo fb = true
  <-> exists n, bracketsFrom k fo n.
Proof.
  apply isPlayer_cases in Hplayer as Hpl.
  destruct (otherPlayer_cases player) as [Hopp Hne].
  pose proof (otherPlayer_not_blocked player) as Hnb.
  induction fuel as [|fuel IH]; intros k fo fb Hk Hfuel Hfb.
  - simpl. split; [done|]. intros (n & Hbr).
    exfalso. apply (bracket_outside k fo n); [|done].
    unfold rayWithin. apply ray_leaves_board; [done|done|lia].
  - cbn [validScan].
    destruct (isWithinBoard N (row + k * fst d) (col + k * snd d)) eqn:Hwk.
    2:{ split; [done|]. intros (n & Hbr). exfalso.
        by apply (bracket_outside k fo n). }
    destruct (cellAt_within N b _ _ Hsq Hwk) as [v Hv].
    rewrite (bracket_step k fo v Hv Hwk).
    assert (Hrange : 0 <= v <= 3)
      by (eapply (proj1 (cellsOk_spec b) Hok); exact Hv).
    unfold cellIs. rewrite Hv.
    replace (row + k * fst d + fst d) with (row + (k + 1) * fst d) by lia.
    replace (col + k * snd d + snd d) with (col + (k + 1) * snd d) by lia.
    destruct (Z.eqb_spec v (otherPlayer player)) as [->|Hvo].
    { rewrite (IH (k + 1) true fb) by first [lia | done].
      split; [intros H; right; left; by split|].
      intros [[? _]|[[_ H]|(_ & ? & _)]]; [congruence|done|congruence]. }
    destruct (Z.eqb_spec v BLOCKED) as [->|Hvb].
    { destruct ign eqn:Ei; cbn [negb].
      - rewrite (IH (k + 1) fo true) by first [lia | done].
        split; [intros H; right; right; by split|].
        intros [[E _]|[[E _]|(_ & _ & H)]]; [|done|done].
        destruct Hpl as [Hp|Hp]; rewrite Hp in E; discriminate.
      - split; [done|].
        intros [[E _]|[[E _]|(? & _)]]; [|done|done].
        destruct Hpl as [Hp|Hp]; rewrite Hp in E; discriminate. }
    destruct (Z.eqb_spec v EMPTY) as [->|Hve].
    { split; [done|].
      intros [[E _]|[[E _]|(_ & E & _)]]; [|done|discriminate].
      destruct Hpl as [Hp|Hp]; rewrite Hp in E; discriminate. }
    destruct (Z.eqb_spec v player) as [->|Hvp].
    { split.
      - intros [-> _]%andb_true_iff. by left.
      - intros [[_ ->]|[[E _]|(_ & E & _)]]; [|done|done].
        simpl. destruct fb; [|done]. by rewrite Hfb. }
    exfalso. unfold BLOCKED, EMPTY, BLACK, WHITE in *.
    destruct Hpl as [Hp|Hp], Hopp as [Ho|Ho]; lia.
Qed.

End Bracket.

(** X1.  The rule [isValidMove] implements.  On a square board whose cells
    hold cell states, a move of Black or White is legal exactly when the cell
    is an Empty cell of the board and, in one of the eight directions, the
    cells next to it form a run of opponent discs (with Blocked cells allowed
    in the run when the stage ignores occlusion) that contains an opponent
    disc and is followed on the board by a disc of the mover. *)
Theorem isValidMove_bracket_rule (st : state) (row col player : Z)
  (b : Board) :
  let N := BOARD_SIZE st in
  let opp := otherPlayer player in
  isSquare N b = true -> cellsOk b = true -> isPlayer player = true ->
  (isValidMove st row col player b = true
   <-> isWithinBoard N row col = true
       /\ cellAt b row col = Some EMPTY
       /\ exists d n,
            d ∈ directions /\ 1 <= n
            /\ (forall k, 1 <= k <= n ->
                  rayWithin N row col d k = true
                  /\ (rayAt b row col d k = Some opp
                      \/ (stageIgnoreOcclusion st = true
                          /\ rayAt b row col d k = Some BLOCKED)))
            /\ (exists k, 1 <= k <= n /\ rayAt b row col d k = Some opp)
            /\ rayWithin N row col d (n + 1) = true
            /\ rayAt b row col d (n + 1) = Some player).
Proof.
  intros N opp Hsq Hok Hpl. unfold isValidMove. fold N.
  destruct (isWithinBoard N row col) eqn:Hin; cbn [negb orb].
  2:{ split; [done|]. by intros [? _]. }
  destruct (cellIs b row col EMPTY) eqn:He; cbn [negb].
  2:{ split; [done|]. intros (_ & Hc & _).
      apply cellIs_true in Hc. congruence. }
  apply cellIs_true in He.
  rewrite existsb_exists. split.
  - intros (d & Hd%list_elem_of_In & Hscan).
    replace (row + fst d) with (row + 1 * fst d) in Hscan by lia.
    replace (col + snd d) with (col + 1 * snd d) in Hscan by lia.
    apply (validScan_bracket N _ player row col d b Hsq Hok Hpl Hd Hin) in Hscan;
      [|lia|unfold scanFuel; apply isWithinBoard_spec in Hin; lia|done].
    destruct Hscan as (n & Hn & Hseg & Hfo & Hwe & Hend).
    destruct Hfo as [|(j & Hj & Ho)]; [done|].
    split; [done|]. split; [done|]. exists d, n.
    split; [done|]. split; [lia|]. split; [done|].
    split; [by exists j|done].
  - intros (_ & _ & d & n & Hd & Hn & Hseg & (j & Hj & Ho) & Hwe & Hend).
    exists d. split; [by apply list_elem_of_In|].
    replace (row + fst d) with (row + 1 * fst d) by lia.
    replace (col + snd d) with (col + 1 * snd d) by lia.
    apply (validScan_bracket N _ player row col d b Hsq Hok Hpl Hd Hin);
      [lia|unfold scanFuel; apply isWithinBoard_spec in Hin; lia|done|].
    exists n. split; [lia|]. split; [done|]. split; [|done].
    right. by exists j.
Qed.

Lemma isValidMove_bracket_rule_witness :
  let st := initializeBoard init (Some stage_standard) false in
  isValidMove st 2 3 BLACK (board st) = true
  <-> isWithinBoard 8 2 3 = true
      /\ cellAt (board st) 2 3 = Some EMPTY
      /\ exists d n,
           d ∈ directions /\ 1 <= n
           /\ (forall k, 1 <= k <= n ->
                 rayWithin 8 2 3 d k = true
                 /\ (rayAt (board st) 2 3 d k = Some WHITE
                     \/ (stageIgnoreOcclusion st = true
                         /\ rayAt (board st) 2 3 d k = Some BLOCKED)))
           /\ (exists k, 1 <= k <= n /\ rayAt (board st) 2 3 d k = Some WHITE)
           /\ rayWithin 8 2 3 d (n + 1) = true
           /\ rayAt (board st) 2 3 d (n + 1) = Some BLACK.
Proof.
  intros st.
  apply (isValidMove_bracket_rule st 2 3 BLACK (board st)); reflexivity.
Defined.

(** ** What makeMove returns and what it changes *)

Lemma isValidMove_true st row col player :
  isValidMove st row col player (board st) = true ->
  isWithinBoard (BOARD_SIZE st) row col = true
  /\ cellAt (board st) row col = Some EMPTY
  /\ exists d, d ∈ directions
       /\ is_Some (captureIn (BOARD_SIZE st) (stageIgnoreOcclusion st) player
                     row col (board st) d).
Proof.
  unfold isValidMove.
  destruct (isWithinBoard (BOARD_SIZE st) row col); cbn [negb orb]; [|done].
  destruct (cellIs (board st) row col EMPTY) eqn:He; cbn [negb]; [|done].
  intros (d & Hd%list_elem_of_In & Hscan)%existsb_exists.
  split; [done|]. split; [by apply cellIs_true|].
  exists d. split; [done|]. by apply captureIn_valid.
Qed.

(** X2.  The value [makeMove] returns tells whether the move was legal: on
    a board that is a square of the engine's size it is [true] exactly when
    [isValidMove] accepts the same cell for the same player. *)
Theorem makeMove_returns_legality (st : state) (row col player : Z) :
  isSquare (BOARD_SIZE st) (board st) = true ->
  mr_flipped (makeMove st row col player)
  = isValidMove st row col player (board st).
Proof.
  intros Hsq.
  destruct (isValidMove st row col player (board st)) eqn:Hv.
  - apply isValidMove_true in Hv as (Hin & He & d & Hd & Hsome).
    destruct (makeMove_cells st row col player Hsq Hin He)
      as (_ & _ & Hflip & _).
    by apply (Hflip d).
  - unfold makeMove. rewrite <- negb_andb.
    destruct (isWithinBoard (BOARD_SIZE st) row col
              && cellIs (board st) row col EMPTY) eqn:Hguard; cbn [negb];
      [|done].
    apply isValidMove_false in Hv as [Hg|Hnone]; [congruence|].
    rewrite sweep_none; [done|].
    intros d Hd. simpl. rewrite captureIn_placed by done. by apply Hnone.
Qed.

Lemma makeMove_returns_legality_witness :
  let st := initializeBoard init (Some stage_standard) false in
  mr_flipped (makeMove st 2 3 BLACK) = true
  /\ mr_flipped (makeMove st 0 0 BLACK) = false.
Proof.
  intros st. split.
  - rewrite (makeMove_returns_legality st 2 3 BLACK); reflexivity.
  - rewrite (makeMove_returns_legality st 0 0 BLACK); reflexivity.
Defined.

(** The number of cells of a row that hold [v]. *)
Lemma count_insert (v w old : Z) (l : list Z) (i : nat) :
  l !! i = Some old ->
  Z.of_nat (length (filter (fun x => x = v) (<[i := w]> l)))
  = Z.of_nat (length (filter (fun x => x = v) l))
    - (if old =? v then 1 else 0) + (if w =? v then 1 else 0).
Proof.
  revert i. induction l as [|x l IH]; intros i Hi; [done|].
  destruct i as [|i]; simpl in Hi.
  - injection Hi as ->. simpl. rewrite !filter_cons.
    destruct (Z.eqb_spec old v), (Z.eqb_spec w v);
      repeat case_decide; try done; simpl; lia.
  - simpl. rewrite !filter_cons. specialize (IH i Hi).
    case_decide; simpl; lia.
Qed.

Lemma discs_app v b1 b2 : discs v (b1 ++ b2) = discs v b1 + discs v b2.
Proof.
  unfold discs. rewrite concat_app, filter_app, length_app. lia.
Qed.

Lemma discs_cons v cells b :
  discs v (cells :: b)
  = Z.of_nat (length (filter (fun x => x = v) cells)) + discs v b.
Proof.
  unfold discs. simpl. rewrite filter_app, length_app. lia.
Qed.

(** Writing [w] over a cell that held [old] moves one unit of the count
    from [old] to [w]. *)
Lemma discs_setCell v b r c w old :
  cellAt b r c = Some old ->
  discs v (setCell b r c w)
  = discs v b - (if old =? v then 1 else 0) + (if w =? v then 1 else 0).
Proof.
  unfold cellAt, setCell.
  destruct ((r <? 0) || (c <? 0)); [done|].
  generalize (Z.to_nat r) as i. generalize (Z.to_nat c) as j. clear r c.
  intros j. induction b as [|cells b IH]; intros i Hi; [done|].
  destruct i as [|i]; simpl in Hi.
  - simpl. rewrite !discs_cons. rewrite (count_insert v w old) by done. lia.
  - change (alter (<[j := w]>) (S i) (cells :: b))
      with (cells :: alter (<[j := w]>) i b).
    rewrite !discs_cons. rewrite IH by done. lia.
Qed.

Lemma flipAll_discs v p opp l : forall b,
  NoDup l -> (forall q, q ∈ l -> cellAt b q.1 q.2 = Some opp) ->
  discs v (flipAll b p l)
  = discs v b
    - (if opp =? v then Z.of_nat (length l) else 0)
    + (if p =? v then Z.of_nat (length l) else 0).
Proof.
  induction l as [|q l IH]; intros b Hnd Hcells; simpl.
  - destruct (opp =? v), (p =? v); lia.
  - apply NoDup_cons in Hnd as [Hq Hnd].
    rewrite IH; [|done|].
    + rewrite (discs_setCell v b q.1 q.2 p opp) by (apply Hcells; left).
      destruct (opp =? v), (p =? v); lia.
    + intros q' Hq'. rewrite cellAt_setCell_ne.
      * apply Hcells. by right.
      * intros Heq. apply Hq. destruct q, q'. simpl in Heq.
        by injection Heq as -> ->.
Qed.

Section ScanShape.

Variable N : Z.
Variable ign : bool.
Variable player : Z.
Variables row col : Z.
Variable d : Z * Z.
Variable b : Board.

(** A scan that succeeds returns the cells it was given followed by cells
    of the ray at increasing distances. *)
Lemma flipScan_shape : forall fuel k acc fo fb l,
  flipScan N ign player b (fst d) (snd d) fuel
    (row + k * fst d) (col + k * snd d) acc fo fb = Some l ->
  exists js, l = acc ++ map (rayCell row col d) js
             /\ StronglySorted Z.lt js /\ Forall (fun j => k <= j) js.
Proof.
  induction fuel as [|fuel IH]; intros k acc fo fb l; [done|].
  cbn [flipScan].
  replace (row + k * fst d + fst d) with (row + (k + 1) * fst d) by lia.
  replace (col + k * snd d + snd d) with (col + (k + 1) * snd d) by lia.
  destruct (isWithinBoard N _ _); [|done].
  destruct (cellIs b _ _ (otherPlayer player)).
  { intros (js & -> & Hs & Hall)%IH. exists (k :: js).
    split; [by rewrite <- app_assoc|]. split.
    - constructor; [done|]. eapply Forall_impl; [exact Hall|]. simpl. lia.
    - constructor; [lia|]. eapply Forall_impl; [exact Hall|]. simpl. lia. }
  destruct (cellIs b _ _ BLOCKED).
  { destruct (negb ign); [done|].
    intros (js & -> & Hs & Hall)%IH. exists js.
    split; [done|]. split; [done|].
    eapply Forall_impl; [exact Hall|]. simpl. lia. }
  destruct (cellIs b _ _ EMPTY); [done|].
  destruct (cellIs b _ _ player).
  { destruct (_ && _); [|done]. intros [= <-]. exists [].
    split; [by rewrite app_nil_r|]. split; constructor. }
  intros (js & -> & Hs & Hall)%IH. exists js.
  split; [done|]. split; [done|].
  eapply Forall_impl; [exact Hall|]. simpl. lia.
Qed.

Lemma flipScan_nonempty : forall fuel r c acc fo fb l,
  flipScan N ign player b (fst d) (snd d) fuel r c acc fo fb = Some l ->
  l <> [].
Proof.
  induction fuel as [|fuel IH]; intros r c acc fo fb l; [done|].
  cbn [flipScan].
  destruct (isWithinBoard N _ _); [|done].
  destruct (cellIs b _ _ (otherPlayer player)); [apply IH|].
  destruct (cellIs b _ _ BLOCKED); [destruct (negb ign); [done|apply IH]|].
  destruct (cellIs b _ _ EMPTY); [done|].
  destruct (cellIs b _ _ player); [|apply IH].
  destruct fo; cbn [andb]; [|done].
  destruct (0 <? Z.of_nat (length acc)) eqn:Hlen; cbn [andb]; [|done].
  destruct (negb fb || ign); [|done]. intros [= <-] ->. simpl in Hlen. done.
Qed.

Lemma rayCell_inj k k' :
  d ∈ directions -> rayCell row col d k = rayCell row col d k' -> k = k'.
Proof.
  intros Hd. destruct (direction_cases d Hd) as (H1 & H2 & H3).
  unfold rayCell. destruct d as [dr dc]. simpl in *.
  intros [= E1 E2]. nia.
Qed.

Lemma captureIn_NoDup l :
  d ∈ directions ->
  captureIn N ign player row col b d = Some l -> NoDup l /\ l <> [].
Proof.
  intros Hd Hl. split; [|by apply flipScan_nonempty in Hl].
  unfold captureIn in Hl.
  replace (row + fst d) with (row + 1 * fst d) in Hl by lia.
  replace (col + snd d) with (col + 1 * snd d) in Hl by lia.
  apply flipScan_shape in Hl as (js & -> & Hs & _). simpl.
  assert (Hnd : NoDup js).
  { clear -Hs. induction Hs as [|j js Hs IH Hall]; constructor; [|done].
    intros Hin. rewrite Forall_forall in Hall. specialize (Hall j Hin). lia. }
  clear Hs. induction Hnd as [|j js Hj Hnd IH]; simpl; constructor; [|done].
  intros (j' & Heq & Hin')%list_elem_of_fmap.
  apply rayCell_inj in Heq; [|done]. by subst j'.
Qed.

End ScanShape.

(** The loop over the directions appends what it captures and moves that
    many cells from the opponent's count to the mover's. *)
Lemma sweep_counts N ign player row col ds : forall s,
  (forall d, d ∈ ds -> d ∈ directions) ->
  (sw_flipped s = true -> sw_captured s <> []) ->
  let s' := fold_left (sweepDir N ign player row col) ds s in
  exists extra,
    sw_captured s' = sw_captured s ++ extra
    /\ (sw_flipped s' = true -> sw_captured s' <> [])
    /\ forall v,
         discs v (sw_board s')
         = discs v (sw_board s)
           - (if otherPlayer player =? v then Z.of_nat (length extra) else 0)
           + (if player =? v then Z.of_nat (length extra) else 0).
Proof.
  induction ds as [|d ds IH]; intros s Hdirs Hfl; simpl.
  - exists []. rewrite app_nil_r. split; [done|]. split; [done|].
    intros v. simpl. destruct (_ =? v), (player =? v); lia.
  - set (s1 := sweepDir N ign player row col s d).
    assert (Hd : d ∈ directions) by (apply Hdirs; left).
    assert (H1 : exists e1,
      sw_captured s1 = sw_captured s ++ e1
      /\ (sw_flipped s1 = true -> sw_captured s1 <> [])
      /\ forall v,
           discs v (sw_board s1)
           = discs v (sw_board s)
             - (if otherPlayer player =? v then Z.of_nat (length e1) else 0)
             + (if player =? v then Z.of_nat (length e1) else 0)).
    { unfold s1, sweepDir.
      destruct (captureIn N ign player row col (sw_board s) d) as [l|] eqn:El.
      - exists l. cbn [sw_captured sw_flipped sw_board].
        destruct (captureIn_NoDup _ _ _ _ _ _ _ _ Hd El) as [Hnd Hne].
        split; [done|]. split.
        { intros _ Happ. apply app_eq_nil in Happ as [_ ?]. done. }
        intros v. apply flipAll_discs; [done|].
        intros q Hq.
        by destruct (scanOf_cells _ _ _ _ _ _ _ _ _ El Hq) as (_ & _ & _ & _ & ?).
      - exists []. rewrite app_nil_r. split; [done|]. split; [done|].
        intros v. simpl. destruct (_ =? v), (player =? v); lia. }
    destruct H1 as (e1 & Hc1 & Hf1 & Hd1).
    destruct (IH s1 ltac:(intros; apply Hdirs; by right) Hf1)
      as (e2 & Hc2 & Hf2 & Hd2).
    exists (e1 ++ e2). split; [by rewrite Hc2, Hc1, app_assoc|].
    split; [done|].
    intros v. rewrite Hd2, Hd1, length_app.
    destruct (_ =? v), (player =? v); lia.
Qed.

(** The counts after a move on an Empty cell of the board, for every cell
    state at once. *)
Lemma makeMove_counts_all (st : state) (row col player : Z) :
  let N := BOARD_SIZE st in
  let b := board st in
  let res := makeMove st row col player in
  let n := Z.of_nat (length (mr_captured res)) in
  isWithinBoard N row col = true -> cellAt b row col = Some EMPTY ->
  (mr_flipped res = true -> mr_captured res <> [])
  /\ forall v,
       discs v (board (mr_state res))
       = discs v b
         - (if EMPTY =? v then 1 else 0)
         + (if player =? v then 1 + n else 0)
         - (if otherPlayer player =? v then n else 0).
Proof.
  intros N b res n Hin He.
  set (s := fold_left (sweepDir N (stageIgnoreOcclusion st) player row col)
              directions (mkSweep (setCell b row col player) false [])).
  assert (Hres : res = mkMoveResult (with_board st (sw_board s))
                         (sw_flipped s) (sw_captured s)).
  { unfold res, makeMove. fold N b. rewrite Hin. unfold cellIs.
    rewrite He. done. }
  unfold n. rewrite Hres.
  cbn [mr_state mr_captured mr_flipped board with_board].
  destruct (sweep_counts N (stageIgnoreOcclusion st) player row col directions
              (mkSweep (setCell b row col player) false []))
    as (extra & Hc & Hf & Hd); [done|done|].
  fold s in Hc, Hf, Hd.
  cbn [sw_captured sw_board sw_flipped app] in Hc, Hd, Hf.
  split; [done|]. intros v. rewrite Hd, Hc.
  rewrite (discs_setCell v b row col player EMPTY) by done.
  destruct (EMPTY =? v), (player =? v), (otherPlayer player =? v); lia.
Qed.

(** X3.  The disc arithmetic of a move.  When [makeMove] is given an Empty
    cell of the board it turns exactly that cell and the [n] captured cells
    into the mover's colour: the mover gains [n + 1] discs, the opponent
    loses [n], one Empty cell disappears, and the count of every other cell
    state (Blocked among them) is unchanged.  [n] is the length of the
    captured list handed to the logger, and it is positive exactly when the
    move was legal. *)
Theorem makeMove_disc_counts (st : state) (row col player : Z) :
  let N := BOARD_SIZE st in
  let b := board st in
  let res := makeMove st row col player in
  let b' := board (mr_state res) in
  let n := Z.of_nat (length (mr_captured res)) in
  isSquare N b = true -> isPlayer player = true ->
  isWithinBoard N row col = true -> cellAt b row col = Some EMPTY ->
  discs player b' = discs player b + 1 + n
  /\ discs (otherPlayer player) b' = discs (otherPlayer player) b - n
  /\ discs EMPTY b' = discs EMPTY b - 1
  /\ (forall v, v <> player -> v <> otherPlayer player -> v <> EMPTY ->
        discs v b' = discs v b)
  /\ (0 < n <-> isValidMove st row col player b = true).
Proof.
  intros N b res b' n Hsq Hpl Hin He.
  destruct (makeMove_counts_all st row col player Hin He) as [Hf Hd].
  fold res b n in Hf, Hd. fold b' in Hd.
  destruct (otherPlayer_cases player) as [Hopp Hne].
  apply isPlayer_cases in Hpl.
  assert (HpE : player <> EMPTY) by (destruct Hpl; subst; discriminate).
  assert (HoE : otherPlayer player <> EMPTY)
    by (destruct Hopp as [E|E]; rewrite E; discriminate).
  split; [|split; [|split; [|split]]].
  - rewrite Hd, Z.eqb_refl.
    destruct (Z.eqb_spec (otherPlayer player) player); [done|].
    destruct (Z.eqb_spec EMPTY player); [congruence|]. lia.
  - rewrite Hd, Z.eqb_refl.
    destruct (Z.eqb_spec player (otherPlayer player)); [congruence|].
    destruct (Z.eqb_spec EMPTY (otherPlayer player)); [congruence|]. lia.
  - rewrite Hd, Z.eqb_refl.
    destruct (Z.eqb_spec player EMPTY); [done|].
    destruct (Z.eqb_spec (otherPlayer player) EMPTY); [done|]. lia.
  - intros v H1 H2 H3. rewrite Hd.
    destruct (Z.eqb_spec player v); [congruence|].
    destruct (Z.eqb_spec (otherPlayer player) v); [congruence|].
    destruct (Z.eqb_spec EMPTY v); [congruence|]. lia.
  - split.
    + intros Hn.
      destruct (isValidMove st row col player b) eqn:Hv; [done|].
      exfalso. apply isValidMove_false in Hv as [Hg|Hnone].
      { fold N b in Hg. rewrite Hin in Hg. unfold cellIs in Hg.
        rewrite He in Hg. done. }
      assert (Hnil : mr_captured res = []).
      { unfold res, makeMove. fold N b. rewrite Hin. unfold cellIs.
        rewrite He. cbn [negb orb Z.eqb EMPTY mr_captured].
        rewrite sweep_none; [done|].
        intros d Hdd. simpl. rewrite captureIn_placed by done.
        by apply Hnone. }
      unfold n in Hn. rewrite Hnil in Hn. simpl in Hn. lia.
    + intros Hv. apply isValidMove_true in Hv as (_ & _ & d & Hdd & Hsome).
      destruct (makeMove_cells st row col player Hsq Hin He)
        as (_ & _ & Hflip & _).
      specialize (Hf (Hflip d Hdd Hsome)).
      unfold n. destruct (mr_captured res); [done|]. simpl. lia.
Qed.

Lemma makeMove_disc_counts_witness :
  let st := initializeBoard init (Some stage_standard) false in
  let res := makeMove st 2 3 BLACK in
  let n := Z.of_nat (length (mr_captured res)) in
  discs BLACK (board (mr_state res)) = discs BLACK (board st) + 1 + n
  /\ discs (otherPlayer BLACK) (board (mr_state res))
     = discs (otherPlayer BLACK) (board st) - n.
Proof.
  intros st res n.
  destruct (makeMove_disc_counts st 2 3 BLACK) as (H1 & H2 & _);
    [reflexivity|reflexivity|reflexivity|reflexivity|].
  split; [exact H1|exact H2].
Defined.

Lemma sweep_writes N ign player row col ds x y : forall s,
  let s' := fold_left (sweepDir N ign player row col) ds s in
  cellAt (sw_board s') x y = cellAt (sw_board s) x y
  \/ cellAt (sw_board s') x y = Some player.
Proof.
  induction ds as [|d ds IH]; intros s; simpl; [by left|].
  destruct (IH (sweepDir N ign player row col s d)) as [E|E]; [|by right].
  rewrite E. unfold sweepDir.
  destruct (captureIn N ign player row col (sw_board s) d) as [l|];
    [|by left].
  cbn [sw_board]. generalize (sw_board s) as b0. clear.
  induction l as [|q l IHl]; intros b0; simpl; [by left|].
  destruct (IHl (setCell b0 q.1 q.2 player)) as [E|E]; [|by right].
  rewrite E. apply cellAt_setCell_cases.
Qed.

(** X4.  Blocked cells are a fixed part of the board under [makeMove]: a
    cell is Blocked after a move of Black or White exactly when it was
    Blocked before, whatever cell and whichever legal or illegal move is
    asked for. *)
Theorem makeMove_blocked_fixed (st : state) (row col player x y : Z) :
  isSquare (BOARD_SIZE st) (board st) = true -> isPlayer player = true ->
  (cellAt (board (mr_state (makeMove st row col player))) x y = Some BLOCKED
   <-> cellAt (board st) x y = Some BLOCKED).
Proof.
  intros Hsq Hpl. split; [|by apply makeMove_keeps_blocked].
  unfold makeMove.
  destruct (negb _ || negb _); [done|].
  cbn [mr_state board with_board].
  intros Hb.
  destruct (sweep_writes (BOARD_SIZE st) (stageIgnoreOcclusion st) player
              row col directions x y
              (mkSweep (setCell (board st) row col player) false []))
    as [E|E]; rewrite E in Hb.
  - cbn [sw_board] in Hb.
    destruct (cellAt_setCell_cases (board st) row col player x y) as [E'|E'];
      rewrite E' in Hb; [done|].
    apply isPlayer_cases in Hpl. injection Hb as Hb.
    destruct Hpl; subst; discriminate.
  - apply isPlayer_cases in Hpl. injection Hb as Hb.
    destruct Hpl; subst; discriminate.
Qed.

Lemma makeMove_blocked_fixed_witness :
  let st := initializeBoard init (Some stage_csquares) false in
  cellAt (board (mr_state (makeMove st 2 3 BLACK))) 0 1 = Some BLOCKED.
Proof.
  intros st.
  apply (makeMove_blocked_fixed st 2 3 BLACK 0 1); reflexivity.
Defined.

(** ** endGame and the forfeit *)

(** X5.  [endGame()] on a running game stops it without touching the
    board, reports the two disc counts, and names as winner the colour with
    strictly more discs, or nobody on equal counts.  A second call does
    nothing and reports nothing. *)
Theorem endGame_by_count (st : state) :
  gameRunning st = true ->
  let out := endGame st None in
  gameRunning out.1 = false /\ gameOver out.1 = true
  /\ board out.1 = board st /\ currentPlayer out.1 = currentPlayer st
  /\ (exists r,
        out.2 = Some r
        /\ res_black r = discs BLACK (board st)
        /\ res_white r = discs WHITE (board st)
        /\ (res_winner r = Some BLACK
            <-> discs WHITE (board st) < discs BLACK (board st))
        /\ (res_winner r = Some WHITE
            <-> discs BLACK (board st) < discs WHITE (board st))
        /\ (res_winner r = None
            <-> discs BLACK (board st) = discs WHITE (board st)))
  /\ forall winner, endGame out.1 winner = (out.1, None).
Proof.
  intros Hrun out. unfold out, endGame. rewrite Hrun. cbn [negb fst snd].
  rewrite countDiscs_discs. cbn [black white].
  repeat (split; [done|]). split; [|done].
  eexists. split; [done|]. cbn [res_black res_white res_winner].
  split; [done|]. split; [done|].
  destruct (Z.ltb_spec (discs WHITE (board st)) (discs BLACK (board st)));
    [repeat split; (done || lia)|].
  destruct (Z.ltb_spec (discs BLACK (board st)) (discs WHITE (board st)));
    repeat split; (done || lia).
Qed.

Lemma endGame_by_count_witness :
  let st := setGameRunning (initializeBoard init (Some stage_standard) false)
              true in
  gameOver (endGame st None).1 = true.
Proof.
  intros st.
  destruct (endGame_by_count st) as (_ & H & _); [reflexivity|exact H].
Defined.

Lemma discs_flat v b :
  discs v b = Z.of_nat (length (filter (fun x => x = v) (concat b))).
Proof. done. Qed.

Lemma concat_map_map (f : Z -> Z) (b : Board) :
  concat (map (map f) b) = map f (concat b).
Proof.
  induction b as [|cells b IH]; simpl; [done|]. by rewrite IH, map_app.
Qed.

(** The counts on a forfeited board. *)
Lemma forfeitBoard_discs w b :
  w <> BLOCKED ->
  discs w (OthelloUI.forfeitBoard w b)
  = Z.of_nat (length (concat b)) - discs BLOCKED b
  /\ forall v, v <> w -> v <> BLOCKED ->
       discs v (OthelloUI.forfeitBoard w b) = 0.
Proof.
  intros Hw. unfold OthelloUI.forfeitBoard, discs.
  rewrite concat_map_map. generalize (concat b) as l. clear b.
  induction l as [|x l [IH1 IH2]]; [done|].
  cbn [map length]. rewrite !filter_cons.
  assert (Hf : OthelloUI.forfeitCell w x = if x =? BLOCKED then BLOCKED else w).
  { unfold OthelloUI.forfeitCell.
    destruct (Z.eqb_spec x BLOCKED); [done|].
    destruct (Z.eqb_spec x w); simpl; congruence. }
  rewrite Hf. split.
  - destruct (Z.eqb_spec x BLOCKED) as [->|Hx].
    + rewrite decide_False by congruence. rewrite decide_True by done.
      cbn [length]. lia.
    + rewrite decide_True by done. rewrite decide_False by done.
      cbn [length]. lia.
  - intros v Hv Hb. specialize (IH2 v Hv Hb). rewrite filter_cons.
    destruct (Z.eqb_spec x BLOCKED); rewrite decide_False by congruence; done.
Qed.

(** X6.  The score a time forfeit reports.  After [checkTimeLimit] has
    found Black or White over its budget in a running game, the result
    handed on by [endGame] gives the player who ran out of time no disc at
    all and gives the opponent every cell of the board that is not
    Blocked. *)
Theorem checkTimeLimit_forfeit_score (st : state) (player : Z) (t : Q) :
  gameRunning st = true -> isPlayer player = true ->
  (MAX_AI_TIME_PER_GAME < t)%Q ->
  let total := Z.of_nat (length (concat (board st))) in
  let playable := total - discs BLOCKED (board st) in
  exists r,
    (OthelloUI.checkTimeLimit st player t).2 = Some r
    /\ res_winner r = Some (otherPlayer player)
    /\ (player = BLACK -> res_black r = 0 /\ res_white r = playable)
    /\ (player = WHITE -> res_white r = 0 /\ res_black r = playable).
Proof.
  intros Hrun Hpl Ht total playable. apply overBudget_spec in Ht.
  unfold OthelloUI.checkTimeLimit. rewrite Ht.
  unfold endGame. cbn [gameRunning with_board]. rewrite Hrun. cbn [negb snd].
  rewrite countDiscs_discs. cbn [board black white].
  eexists. split; [done|]. cbn [res_winner res_black res_white].
  split; [done|].
  split; intros ->; cbn [otherPlayer Z.eqb BLACK WHITE Pos.eqb].
  - destruct (forfeitBoard_discs WHITE (board st)) as [H1 H2]; [done|].
    split; [by apply H2|done].
  - destruct (forfeitBoard_discs BLACK (board st)) as [H1 H2]; [done|].
    split; [by apply H2|done].
Qed.

Lemma checkTimeLimit_forfeit_score_witness :
  let st := mkState [[BLACK; BLOCKED]; [EMPTY; WHITE]] 2 None BLACK true false in
  exists r,
    (OthelloUI.checkTimeLimit st BLACK 10001).2 = Some r
    /\ res_winner r = Some (otherPlayer BLACK)
    /\ (BLACK = BLACK -> res_black r = 0 /\ res_white r = 3).
Proof.
  intros st.
  destruct (checkTimeLimit_forfeit_score st BLACK 10001)
    as (r & H1 & H2 & H3 & _); [reflexivity|reflexivity|reflexivity|].
  exists r. split; [exact H1|]. split; [exact H2|exact H3].
Defined.

(** ** Starting and resetting a game *)

Lemma chosenStage_default_size idx :
  0 < boardSize (GameSession.chosenStage None idx).
Proof.
  unfold GameSession.chosenStage.
  destruct (idx <? 0); [done|].
  destruct (Z.to_nat idx) as [|[|[|n]]]; simpl; done.
Qed.

(** X7.  [startGame] leaves the engine ready to play: the board is a
    square of BOARD_SIZE, which is the stage's size; every cell of it holds
    Blocked, Black, White or Empty according to the first of the stage's
    three lists that names it; Black is to move; the game is running and not
    over; both clocks are at zero. *)
Theorem startGame_ready (st : GameController.state)
  (stageConfig : option StageConfig) (selectedIndex : Z) :
  let cfg := GameSession.chosenStage stageConfig selectedIndex in
  let st' := GameSession.startGame st stageConfig selectedIndex in
  let c := GameController.core st' in
  0 < boardSize cfg ->
  BOARD_SIZE c = boardSize cfg /\ currentStage c = Some cfg
  /\ isSquare (BOARD_SIZE c) (board c) = true
  /\ (forall x y,
        isWithinBoard (boardSize cfg) x y = true ->
        cellAt (board c) x y =
        Some (if listed x y (initialBlocked cfg) then BLOCKED
              else if listed x y (initialPlayer1 cfg) then BLACK
              else if listed x y (initialPlayer2 cfg) then WHITE
              else EMPTY))
  /\ currentPlayer c = BLACK /\ gameRunning c = true /\ gameOver c = false
  /\ GameController.blackTimeUsed st' = 0%Q
  /\ GameController.whiteTimeUsed st' = 0%Q.
Proof.
  intros cfg st' c Hsize.
  assert (Hs : boardSize cfg = stageBoardSize cfg).
  { unfold stageBoardSize. destruct (Z.eqb_spec (boardSize cfg) 0); [lia|done]. }
  destruct (createInitialBoard_precedence (boardSize cfg) cfg Hs) as [Hsq Hc].
  unfold c, st', GameSession.startGame. fold cfg.
  cbn [GameController.core GameController.blackTimeUsed
       GameController.whiteTimeUsed initializeBoard setGameRunning
       setCurrentPlayer board BOARD_SIZE currentStage currentPlayer
       gameRunning gameOver].
  repeat (split; [done|]). split; [|done].
  intros x y Hin. rewrite Hc, Hin. done.
Qed.

Lemma startGame_ready_witness :
  let st' := GameSession.startGame (GameController.mkCtl init 5 7) None 1 in
  BOARD_SIZE (GameController.core st') = 6
  /\ currentStage (GameController.core st') = Some stage_small.
Proof.
  intros st'.
  destruct (startGame_ready (GameController.mkCtl init 5 7) None 1)
    as (H1 & H2 & _); [reflexivity|].
  split; [exact H1|exact H2].
Defined.

(** ** The engine stays in order *)

Lemma makeMove_frame st row col player :
  let st' := mr_state (makeMove st row col player) in
  BOARD_SIZE st' = BOARD_SIZE st /\ currentStage st' = currentStage st
  /\ currentPlayer st' = currentPlayer st
  /\ gameRunning st' = gameRunning st /\ gameOver st' = gameOver st.
Proof. unfold makeMove. by destruct (negb _ || negb _). Qed.

Lemma makeMove_board_ok st row col player :
  isSquare (BOARD_SIZE st) (board st) = true ->
  cellsOk (board st) = true -> isPlayer player = true ->
  let b' := board (mr_state (makeMove st row col player)) in
  isSquare (BOARD_SIZE st) b' = true /\ cellsOk b' = true.
Proof.
  intros Hsq Hok Hpl b'. split.
  - unfold b'.
    destruct (isWithinBoard (BOARD_SIZE st) row col
              && cellIs (board st) row col EMPTY) eqn:Hguard.
    + apply andb_true_iff in Hguard as [Hin He%cellIs_true].
      by destruct (makeMove_cells st row col player Hsq Hin He) as [? _].
    + unfold makeMove. by rewrite <- negb_andb, Hguard.
  - apply cellsOk_spec. intros x y v Hv.
    assert (Hp : 0 <= player <= 3).
    { apply isPlayer_cases in Hpl as [->| ->]; done. }
    unfold b', makeMove in Hv.
    destruct (negb _ || negb _).
    { by apply (proj1 (cellsOk_spec (board st)) Hok x y). }
    cbn [mr_state board with_board] in Hv.
    destruct (sweep_writes (BOARD_SIZE st) (stageIgnoreOcclusion st) player
                row col directions x y
                (mkSweep (setCell (board st) row col player) false []))
      as [E|E]; rewrite E in Hv; [|by injection Hv as <-].
    cbn [sw_board] in Hv.
    destruct (cellAt_setCell_cases (board st) row col player x y) as [E'|E'];
      rewrite E' in Hv; [|by injection Hv as <-].
    by apply (proj1 (cellsOk_spec (board st)) Hok x y).
Qed.

Lemma engineOk_spec c :
  engineOk c = true <->
  isSquare (BOARD_SIZE c) (board c) = true /\ cellsOk (board c) = true
  /\ isPlayer (currentPlayer c) = true.
Proof. unfold engineOk. rewrite !andb_true_iff. tauto. Qed.

Lemma isPlayer_otherPlayer p : isPlayer (otherPlayer p) = true.
Proof.
  apply isPlayer_cases. by destruct (otherPlayer_cases p) as [? _].
Qed.

Lemma isPlayer_determineNextPlayer c : isPlayer (determineNextPlayer c) = true.
Proof.
  unfold determineNextPlayer.
  destruct (negb _); [apply isPlayer_otherPlayer|].
  destruct (_ <? _); [done|]. destruct (_ <? _); [done|].
  apply isPlayer_otherPlayer.
Qed.

Lemma engineOk_setCurrentPlayer c p :
  engineOk c = true -> isPlayer p = true ->
  engineOk (setCurrentPlayer c p) = true.
Proof.
  rewrite !engineOk_spec. intros (H1 & H2 & _) Hp. done.
Qed.

Lemma engineOk_endGame c winner :
  engineOk c = true -> engineOk (fst (endGame c winner)) = true.
Proof. unfold endGame. by destruct (negb _). Qed.

Lemma isSquare_map (f : Z -> Z) N b :
  isSquare N (map (map f) b) = isSquare N b.
Proof.
  unfold isSquare. rewrite length_map. f_equal.
  induction b as [|cells b IH]; simpl; [done|].
  by rewrite length_map, IH.
Qed.

Lemma engineOk_checkTimeLimit c player t :
  engineOk c = true -> isPlayer player = true ->
  engineOk (OthelloUI.checkTimeLimit c player t).1.1 = true.
Proof.
  intros Hc Hp. unfold OthelloUI.checkTimeLimit.
  destruct (OthelloUI.overBudget t); [|done].
  destruct (endGame _ _) as [st2 res] eqn:He. cbn [fst].
  replace st2 with (fst (endGame
    (with_board c (OthelloUI.forfeitBoard (otherPlayer player) (board c)))
    (Some (otherPlayer player)))) by (by rewrite He).
  apply engineOk_endGame.
  apply engineOk_spec in Hc as (H1 & H2 & H3). apply engineOk_spec.
  cbn [with_board board BOARD_SIZE currentPlayer].
  split; [unfold OthelloUI.forfeitBoard; by rewrite isSquare_map|].
  split; [|done].
  apply cellsOk_spec. intros x y v.
  unfold OthelloUI.forfeitBoard. rewrite cellAt_map.
  destruct (cellAt (board c) x y) as [w|] eqn:Ew; [|done].
  intros [= <-]. unfold OthelloUI.forfeitCell.
  destruct (negb _ && negb _).
  - destruct (otherPlayer_cases player) as [[->| ->] _]; done.
  - by apply (proj1 (cellsOk_spec (board c)) H2 x y).
Qed.

Lemma engineOk_move c row col :
  engineOk c = true ->
  let c1 := mr_state (makeMove c row col (currentPlayer c)) in
  engineOk (setCurrentPlayer c1 (determineNextPlayer c1)) = true.
Proof.
  intros (H1 & H2 & H3)%engineOk_spec c1. apply engineOk_spec.
  destruct (makeMove_frame c row col (currentPlayer c)) as (HN & _).
  destruct (makeMove_board_ok c row col (currentPlayer c) H1 H2 H3)
    as [Hsq Hok].
  cbn [setCurrentPlayer board BOARD_SIZE currentPlayer]. fold c1 in HN.
  rewrite HN. split; [done|]. split; [done|].
  apply isPlayer_determineNextPlayer.
Qed.

Lemma engineOk_passOrEnd st :
  engineOk (GameController.core st) = true ->
  engineOk
    (GameController.core
       (GameController.passOrEnd st
          (currentPlayer (GameController.core st))).1) = true.
Proof.
  intros Hc. unfold GameController.passOrEnd.
  destruct (Nat.eqb _ 0); cbn [fst GameController.with_core GameController.core].
  - by apply engineOk_endGame.
  - apply engineOk_setCurrentPlayer; [done|apply isPlayer_otherPlayer].
Qed.

Lemma engineOk_useFallbackMove st rnd :
  engineOk (GameController.core st) = true ->
  engineOk
    (GameController.core
       (GameController.useFallbackMove st
          (currentPlayer (GameController.core st)) rnd).1) = true.
Proof.
  intros Hc. unfold GameController.useFallbackMove.
  destruct (Nat.eqb _ 0); [by apply engineOk_passOrEnd|].
  pose proof (engineOk_checkTimeLimit
    (GameController.core (GameController.addTime st
       (currentPlayer (GameController.core st)) 100))
    (currentPlayer (GameController.core st))
    (GameController.timeUsed (GameController.addTime st
       (currentPlayer (GameController.core st)) 100)
       (currentPlayer (GameController.core st)))) as Hchk.
  rewrite core_addTime in Hchk |- *.
  apply engineOk_spec in Hc as Hc'. destruct Hc' as (_ & _ & Hp).
  specialize (Hchk Hc Hp).
  destruct (OthelloUI.checkTimeLimit _ _ _) as [[c2 over] res].
  cbn [fst] in Hchk.
  destruct over; [done|].
  destruct (GameController.randomMove _ rnd) as [m|];
    cbn [fst GameController.applyAndAdvance GameController.with_core
         GameController.core].
  - rewrite core_addTime. by apply engineOk_move.
  - by rewrite core_addTime.
Qed.

Lemma engineOk_strategyCalls calls : forall c,
  engineOk c = true ->
  forallb (fun k => isPlayer (GameController.call_player k)) calls = true ->
  engineOk (GameController.strategyCalls c calls) = true
  /\ currentPlayer (GameController.strategyCalls c calls) = currentPlayer c.
Proof.
  induction calls as [|k calls IH]; intros c Hc Hall; [done|].
  apply andb_true_iff in Hall as [Hk Hall].
  change (GameController.strategyCalls c (k :: calls)) with
    (GameController.strategyCalls
       (mr_state (makeMove c (GameController.call_row k)
                    (GameController.call_col k)
                    (GameController.call_player k))) calls).
  set (c1 := mr_state (makeMove c _ _ _)).
  destruct (makeMove_frame c (GameController.call_row k)
              (GameController.call_col k) (GameController.call_player k))
    as (HN & _ & Hp & _).
  fold c1 in HN, Hp.
  assert (Hc1 : engineOk c1 = true).
  { apply engineOk_spec in Hc as (H1 & H2 & H3). apply engineOk_spec.
    destruct (makeMove_board_ok c (GameController.call_row k)
                (GameController.call_col k) (GameController.call_player k)
                H1 H2 Hk) as [Hsq Hok].
    fold c1 in Hsq, Hok. rewrite HN, Hp. done. }
  destruct (IH c1 Hc1 Hall) as [H1 H2]. split; [done|]. congruence.
Qed.

Lemma engineOk_makeAIMove st ctl inp :
  engineOk (GameController.core st) = true ->
  callsNamePlayers inp = true ->
  engineOk (GameController.core (GameController.makeAIMove st ctl inp).1)
  = true.
Proof.
  intros Hc Hcalls. unfold GameController.makeAIMove.
  destruct (negb _ || _); [done|].
  destruct ctl as [| |[|]]; [done|done| |by apply engineOk_useFallbackMove].
  destruct (Nat.eqb _ 0); [by apply engineOk_passOrEnd|].
  unfold GameController.strategyPly.
  destruct (negb _ || _); [done|].
  set (p := currentPlayer (GameController.core st)).
  destruct (engineOk_strategyCalls (GameController.makeMoveCalls inp)
              (GameController.core st) Hc Hcalls) as [Hc0 Hp0].
  set (c0 := GameController.strategyCalls _ _) in *.
  set (st1 := GameController.addTime (GameController.with_core st c0) p
                (GameController.moveTime inp)).
  assert (Hc1 : engineOk (GameController.core st1) = true)
    by (unfold st1; by rewrite core_addTime).
  assert (Hp1 : currentPlayer (GameController.core st1) = p)
    by (unfold st1; by rewrite core_addTime).
  apply engineOk_spec in Hc as Hc'. destruct Hc' as (_ & _ & Hp).
  pose proof (engineOk_checkTimeLimit (GameController.core st1) p
                (GameController.timeUsed st1 p) Hc1 Hp) as Hchk.
  destruct (OthelloUI.checkTimeLimit _ _ _) as [[c2 over] res].
  cbn [fst] in Hchk.
  destruct over; [done|].
  destruct (_ || _).
  - destruct (GameController.randomMove _ _) as [m|].
    + cbn [fst GameController.applyAndAdvance GameController.with_core
           GameController.core].
      rewrite <- Hp1. by apply engineOk_move.
    + rewrite <- Hp1. by apply engineOk_useFallbackMove.
  - destruct (GameController.returnedMove inp) as [m|]; [|done].
    cbn [fst GameController.applyAndAdvance GameController.with_core
         GameController.core].
    rewrite <- Hp1. by apply engineOk_move.
Qed.

Lemma engineOk_handleHumanMove c blackHuman whiteHuman aiThinking cell :
  engineOk c = true ->
  engineOk
    (OthelloUIEvents.handleHumanMove c blackHuman whiteHuman aiThinking cell).1
  = true.
Proof.
  intros Hc. unfold OthelloUIEvents.handleHumanMove.
  destruct (negb _ || negb _ || _); [done|].
  destruct (negb aiThinking && _).
  { destruct (Nat.eqb _ 0); cbn [fst].
    - by apply engineOk_endGame.
    - apply engineOk_setCurrentPlayer; [done|apply isPlayer_otherPlayer]. }
  destruct cell as [[row col]|]; [|done].
  destruct aiThinking; [done|].
  destruct (isValidMove c row col (currentPlayer c) (board c)); [|done].
  pose proof (engineOk_move c row col Hc) as Hm. cbn zeta in Hm.
  set (c2 := setCurrentPlayer _ _) in *.
  assert (H3 : engineOk
    (if (currentPlayer c =? determineNextPlayer
           (mr_state (makeMove c row col (currentPlayer c))))
        && Nat.eqb (length (getValidMoves c2
             (determineNextPlayer
                (mr_state (makeMove c row col (currentPlayer c))))
             (board c2))) 0
     then setCurrentPlayer c2
            (otherPlayer (determineNextPlayer
               (mr_state (makeMove c row col (currentPlayer c)))))
     else c2) = true).
  { destruct (_ && _); [|done].
    apply engineOk_setCurrentPlayer; [done|apply isPlayer_otherPlayer]. }
  destruct (Nat.eqb _ 0 && Nat.eqb _ 0); cbn [fst]; [|done].
  by apply engineOk_endGame.
Qed.

(** X8.  Every state a session reaches has a well-formed engine: from
    [startGame] on, through any sequence of scheduler turns ([makeAIMove]
    with any selector, any move a strategy returns, any time it takes, any
    random draw, anything the strategy leaves in the list of moves it is
    handed, and any calls it makes of the [makeMove] it is handed, as long as
    these name Black or White as the player) and of clicks
    ([handleHumanMove]), the board stays a square of BOARD_SIZE, its cells
    hold only Empty, Black, White or Blocked, and the player to move is Black
    or White. *)
Theorem reachable_engineOk (st : GameController.state) :
  reachable st -> engineOk (GameController.core st) = true.
Proof.
  induction 1 as [st cfg idx Hsize|st ctl inp _ IH Hcalls
                 |st bh wh th cell _ IH].
  - assert (Hs : boardSize (GameSession.chosenStage cfg idx)
                 = stageBoardSize (GameSession.chosenStage cfg idx)).
    { unfold stageBoardSize.
      destruct (Z.eqb_spec (boardSize (GameSession.chosenStage cfg idx)) 0);
        [lia|done]. }
    destruct (createInitialBoard_precedence _ _ Hs) as [Hsq Hc].
    apply engineOk_spec. split; [done|]. split; [|done].
    apply cellsOk_spec. intros x y v.
    cbn [GameSession.startGame GameController.core initializeBoard
         setGameRunning setCurrentPlayer board].
    rewrite Hc. destruct (isWithinBoard _ x y); [|done].
    intros [= <-]. repeat (destruct (listed x y _); [done|]). done.
  - by apply engineOk_makeAIMove.
  - by apply engineOk_handleHumanMove.
Qed.

Lemma reachable_engineOk_witness :
  let st0 := GameSession.startGame (GameController.mkCtl init 0 0) None 0 in
  let st1 := (GameController.makeAIMove st0 (GameController.Strategy true)
                (GameController.mkPly (Some (mkMove 0 0)) 20 0
                   [mkMove 0 0]
                   [GameController.mkCall 2 3 BLACK;
                    GameController.mkCall 7 7 WHITE])).1 in
  engineOk (GameController.core st1) = true.
Proof.
  intros st0 st1. apply (reachable_engineOk st1).
  apply reach_ai; [|reflexivity]. apply reach_start. reflexivity.
Defined.

(** The condition on the strategy's calls is needed: [makeMove] writes the
    player it is given without looking at it, so a strategy that calls the
    [makeMove] it is handed with a player that is neither Black nor White
    leaves on the board a cell that holds none of the four cell states. *)
Example makeAIMove_strategy_writes_other_value :
  let st0 := GameSession.startGame (GameController.mkCtl init 0 0) None 0 in
  let inp := GameController.mkPly (Some (mkMove 2 3)) 20 0
               (getValidMoves (GameController.core st0) BLACK
                  (board (GameController.core st0)))
               [GameController.mkCall 0 0 7] in
  let st1 := (GameController.makeAIMove st0 (GameController.Strategy true)
                inp).1 in
  callsNamePlayers inp = false
  /\ cellAt (board (GameController.core st1)) 0 0 = Some 7
  /\ engineOk (GameController.core st1) = false.
Proof. vm_compute. repeat split. Qed.

(** ** Turns of the scheduler *)

Lemma within_budget t :
  (t <= MAX_AI_TIME_PER_GAME)%Q -> OthelloUI.overBudget t = false.
Proof.
  intros Ht. unfold OthelloUI.overBudget. apply negb_false_iff.
  by apply Qle_bool_iff.
Qed.

(** X9.  A move of the list is played as returned.  The strategy is
    handed the very list of legal moves that the scheduler tests the returned
    move against, and the engine's own [makeMove].  When the player to move
    has a legal move, the move the strategy returns is in that list as the
    strategy left it, and the player's clock, with the time of this call
    added, is within the budget, [makeAIMove] applies exactly that move with
    [makeMove] to the engine as the strategy's own calls of [makeMove] left
    it, hands the turn to [determineNextPlayer], charges the measured time to
    the mover's clock and calls itself again.  For a strategy that made no
    such call the engine is the one the turn started with. *)
Theorem makeAIMove_applies_legal_move (st : GameController.state)
  (inp : GameController.plyInput) (m : Move) :
  let c := GameController.core st in
  let p := currentPlayer c in
  let c0 :=
    GameController.strategyCalls c (GameController.makeMoveCalls inp) in
  gameRunning c = true -> gameOver c = false ->
  getValidMoves c p (board c) <> [] ->
  GameController.returnedMove inp = Some m ->
  m ∈ GameController.movesLeft inp ->
  (GameController.timeUsed st p + GameController.moveTime inp
   <= MAX_AI_TIME_PER_GAME)%Q ->
  let out := GameController.makeAIMove st (GameController.Strategy true) inp in
  let c1 := mr_state (makeMove c0 (row m) (col m) p) in
  GameController.core out.1 = setCurrentPlayer c1 (determineNextPlayer c1)
  /\ GameController.timeUsed out.1 p
     = (GameController.timeUsed st p + GameController.moveTime inp)%Q
  /\ out.2 = GameController.Reenter
  /\ (GameController.makeMoveCalls inp = [] -> c0 = c).
Proof.
  intros c p c0 Hrun Hover Hne Hret Hin Htime out c1.
  unfold out, GameController.makeAIMove. fold c. rewrite Hrun, Hover.
  cbn [negb orb]. fold p.
  destruct (Nat.eqb_spec (length (getValidMoves c p (board c))) 0) as [Hlen|_].
  { by destruct (getValidMoves c p (board c)). }
  rewrite strategyPly_within_budget by done. fold c c0.
  rewrite Hret.
  apply isReturnedMoveInList_spec in Hin. rewrite Hin.
  cbn [GameController.isNull negb orb].
  unfold GameController.applyAndAdvance.
  cbn [fst snd GameController.with_core GameController.core].
  rewrite core_addTime.
  cbn [GameController.with_core GameController.core]. fold c1.
  split; [done|]. split; [|split; [done|]].
  - rewrite <- timeUsed_addTime.
    unfold GameController.timeUsed, GameController.addTime,
      GameController.with_core. cbn.
    by destruct (p =? BLACK).
  - intros Hnil. unfold c0. by rewrite Hnil.
Qed.

Lemma makeAIMove_applies_legal_move_witness :
  let c := setGameRunning (initializeBoard init (Some stage_standard) false)
             true in
  let st := GameController.mkCtl c 0 0 in
  let inp := GameController.mkPly (Some (mkMove 2 3)) 20 0
               (getValidMoves c BLACK (board c)) [] in
  let c1 := mr_state (makeMove c 2 3 BLACK) in
  GameController.core
    (GameController.makeAIMove st (GameController.Strategy true) inp).1
  = setCurrentPlayer c1 (determineNextPlayer c1).
Proof.
  intros c st inp c1.
  assert (Hne : getValidMoves c BLACK (board c) <> []) by discriminate.
  assert (Hin : mkMove 2 3 ∈ GameController.movesLeft inp).
  { apply list_elem_of_In. vm_compute. tauto. }
  assert (Ht : (GameController.timeUsed st BLACK + GameController.moveTime inp
                <= MAX_AI_TIME_PER_GAME)%Q) by discriminate.
  apply (makeAIMove_applies_legal_move st inp (mkMove 2 3)
           eq_refl eq_refl Hne eq_refl Hin Ht).
Defined.

(** X10.  A player without a legal move passes or ends the game, and it
    costs no time.  When the player to move has no legal move and the
    selector is bound to a strategy, compiled or not, [makeAIMove] never
    calls the strategy: if the opponent has a legal move the turn goes to the
    opponent and the scheduler runs again, otherwise the game is over; board
    and clocks are as before in both cases. *)
Theorem makeAIMove_pass_or_end (st : GameController.state) (compiled : bool)
  (inp : GameController.plyInput) :
  let c := GameController.core st in
  let p := currentPlayer c in
  gameRunning c = true -> gameOver c = false ->
  getValidMoves c p (board c) = [] ->
  let out := GameController.makeAIMove st (GameController.Strategy compiled)
               inp in
  board (GameController.core out.1) = board c
  /\ GameController.blackTimeUsed out.1 = GameController.blackTimeUsed st
  /\ GameController.whiteTimeUsed out.1 = GameController.whiteTimeUsed st
  /\ (getValidMoves c (otherPlayer p) (board c) <> [] ->
      GameController.core out.1 = setCurrentPlayer c (otherPlayer p)
      /\ out.2 = GameController.Reenter)
  /\ (getValidMoves c (otherPlayer p) (board c) = [] ->
      gameOver (GameController.core out.1) = true
      /\ gameRunning (GameController.core out.1) = false
      /\ out.2 = GameController.Halt).
Proof.
  intros c p Hrun Hover Hnone out.
  assert (Hout : out = GameController.passOrEnd st p).
  { unfold out, GameController.makeAIMove. fold c. rewrite Hrun, Hover.
    cbn [negb orb]. fold p.
    destruct compiled.
    - by rewrite Hnone.
    - unfold GameController.useFallbackMove. fold c. by rewrite Hnone. }
  rewrite Hout. unfold GameController.passOrEnd. fold c.
  destruct (getValidMoves c (otherPlayer p) (board c)) as [|m ms] eqn:Hopp;
    cbn [length Nat.eqb fst snd GameController.with_core GameController.core
         GameController.blackTimeUsed GameController.whiteTimeUsed].
  - unfold endGame. rewrite Hrun. cbn [negb fst board gameOver gameRunning].
    repeat split; done.
  - repeat split; done.
Qed.

Lemma makeAIMove_pass_or_end_witness :
  let c := mkState [[BLACK; BLACK]; [BLACK; EMPTY]] 2 None WHITE true false in
  let st := GameController.mkCtl c 0 0 in
  let out := GameController.makeAIMove st (GameController.Strategy true)
               (GameController.mkPly None 0 0 [] []) in
  gameOver (GameController.core out.1) = true.
Proof.
  intros c st out.
  destruct (makeAIMove_pass_or_end st true
              (GameController.mkPly None 0 0 [] []))
    as (_ & _ & _ & _ & H); [reflexivity|reflexivity|reflexivity|].
  destruct H as (H & _); [reflexivity|exact H].
Defined.

Lemma timeUsed_addTime_other st p dt :
  GameController.timeUsed (GameController.addTime st p dt) (otherPlayer p)
  = GameController.timeUsed st (otherPlayer p).
Proof.
  unfold GameController.timeUsed, GameController.addTime, otherPlayer.
  by destruct (Z.eqb_spec p BLACK).
Qed.

Lemma timeUsed_with_core st c q :
  GameController.timeUsed (GameController.with_core st c) q
  = GameController.timeUsed st q.
Proof. done. Qed.

Lemma passOrEnd_clock st p q :
  GameController.timeUsed (GameController.passOrEnd st p).1 q
  = GameController.timeUsed st q.
Proof.
  unfold GameController.passOrEnd. by destruct (Nat.eqb _ 0).
Qed.

Lemma useFallbackMove_other_clock st p rnd :
  GameController.timeUsed (GameController.useFallbackMove st p rnd).1
    (otherPlayer p)
  = GameController.timeUsed st (otherPlayer p).
Proof.
  unfold GameController.useFallbackMove.
  destruct (Nat.eqb _ 0); [apply passOrEnd_clock|].
  destruct (OthelloUI.checkTimeLimit _ _ _) as [[c2 over] res].
  destruct over; [apply timeUsed_addTime_other|].
  destruct (GameController.randomMove _ rnd) as [m|];
    apply timeUsed_addTime_other.
Qed.

(** X11.  A turn charges time only to the player to move: whatever the
    selector is bound to, whatever the strategy returns and however long it
    takes, one call of [makeAIMove] leaves the clock of the other player
    untouched. *)
Theorem makeAIMove_other_clock (st : GameController.state)
  (ctl : GameController.controller) (inp : GameController.plyInput) :
  let p := currentPlayer (GameController.core st) in
  GameController.timeUsed (GameController.makeAIMove st ctl inp).1
    (otherPlayer p)
  = GameController.timeUsed st (otherPlayer p).
Proof.
  intros p. unfold GameController.makeAIMove. fold p.
  destruct (negb _ || _); [done|].
  destruct ctl as [| |[|]]; [done|done| |apply useFallbackMove_other_clock].
  destruct (Nat.eqb _ 0); [apply passOrEnd_clock|].
  unfold GameController.strategyPly.
  destruct (negb _ || _); [done|].
  set (st0 := GameController.with_core st _).
  assert (H0 : GameController.timeUsed
                 (GameController.addTime st0 p (GameController.moveTime inp))
                 (otherPlayer p)
               = GameController.timeUsed st (otherPlayer p))
    by (by rewrite timeUsed_addTime_other).
  destruct (OthelloUI.checkTimeLimit _ _ _) as [[c2 over] res].
  destruct over; [exact H0|].
  destruct (_ || _).
  - destruct (GameController.randomMove _ _) as [m|].
    + exact H0.
    + by rewrite useFallbackMove_other_clock.
  - destruct (GameController.returnedMove inp) as [m|]; exact H0.
Qed.

(** X12.  The fallback for a missing strategy function plays a legal move.
    When [useFallbackMove] finds legal moves and the player's clock plus the
    100 ms penalty is within the budget, the move it applies is a member of
    the legal-move list, the mover's clock has grown by exactly 100 ms, and
    the scheduler runs again. *)
Theorem useFallbackMove_plays_legal_move (st : GameController.state)
  (player : Z) (rnd : Q) :
  let c := GameController.core st in
  let validMoves := getValidMoves c player (board c) in
  validMoves <> [] ->
  (GameController.timeUsed st player + 100 <= MAX_AI_TIME_PER_GAME)%Q ->
  (0 <= rnd)%Q -> (rnd < 1)%Q ->
  let out := GameController.useFallbackMove st player rnd in
  exists m,
    m ∈ validMoves
    /\ (let c1 := mr_state (makeMove c (row m) (col m) player) in
        GameController.core out.1
        = setCurrentPlayer c1 (determineNextPlayer c1))
    /\ GameController.timeUsed out.1 player
       = (GameController.timeUsed st player + 100)%Q
    /\ out.2 = GameController.Reenter.
Proof.
  intros c validMoves Hne Htime H0 H1 out.
  destruct (randomMove_member validMoves rnd Hne H0 H1) as (m & Hm & Hin).
  exists m. split; [done|].
  unfold out, GameController.useFallbackMove. fold c validMoves.
  destruct (Nat.eqb_spec (length validMoves) 0) as [Hlen|_].
  { by destruct validMoves. }
  unfold OthelloUI.checkTimeLimit.
  rewrite timeUsed_addTime, (within_budget _ Htime), Hm.
  unfold GameController.applyAndAdvance.
  cbn [fst snd GameController.with_core GameController.core].
  rewrite core_addTime. fold c. split; [done|]. split; [|done].
  rewrite <- timeUsed_addTime.
  unfold GameController.timeUsed, GameController.addTime.
  by destruct (player =? BLACK).
Qed.

Lemma useFallbackMove_plays_legal_move_witness :
  let c := setGameRunning (initializeBoard init (Some stage_standard) false)
             true in
  let st := GameController.mkCtl c 0 0 in
  exists m,
    m ∈ getValidMoves c BLACK (board c)
    /\ GameController.timeUsed
         (GameController.useFallbackMove st BLACK (1 # 2)).1 BLACK
       = (GameController.timeUsed st BLACK + 100)%Q.
Proof.
  intros c st.
  assert (Hne : getValidMoves c BLACK (board c) <> []) by discriminate.
  assert (Ht : (GameController.timeUsed st BLACK + 100
                <= MAX_AI_TIME_PER_GAME)%Q) by discriminate.
  assert (H0 : (0 <= 1 # 2)%Q) by discriminate.
  assert (H1 : (1 # 2 < 1)%Q) by reflexivity.
  destruct (useFallbackMove_plays_legal_move st BLACK (1 # 2) Hne Ht H0 H1)
    as (m & Hin & _ & Hclock & _).
  exists m. split; [exact Hin|exact Hclock].
Defined.

(** X13.  After [resetGame] nothing moves until [startGame]: the game is
    not running, so a call of [makeAIMove] and a click on the board both
    return at once and change nothing; the reset itself keeps both clocks as
    they were and puts Black to move. *)
Theorem resetGame_parks (st : GameController.state)
  (stageConfig : option StageConfig) (selectedIndex : Z) (isPreview : bool) :
  let st' := GameSession.resetGame st stageConfig selectedIndex isPreview in
  gameRunning (GameController.core st') = false
  /\ currentPlayer (GameController.core st') = BLACK
  /\ GameController.blackTimeUsed st' = GameController.blackTimeUsed st
  /\ GameController.whiteTimeUsed st' = GameController.whiteTimeUsed st
  /\ (forall ctl inp,
        GameController.makeAIMove st' ctl inp = (st', GameController.Halt))
  /\ (forall blackHuman whiteHuman aiThinking cell,
        OthelloUIEvents.handleHumanMove (GameController.core st') blackHuman
          whiteHuman aiThinking cell
        = (GameController.core st', GameController.Halt)).
Proof.
  intros st'.
  assert (Hrun : gameRunning (GameController.core st') = false).
  { unfold st', GameSession.resetGame, initializeBoard. by destruct isPreview. }
  split; [done|]. split; [done|]. split; [done|]. split; [done|]. split.
  - intros ctl inp. unfold GameController.makeAIMove. by rewrite Hrun.
  - intros bh wh th cell. unfold OthelloUIEvents.handleHumanMove.
    rewrite Hrun. cbn [negb]. by rewrite orb_true_r.
Qed.

(** ** A click on the board *)

(** X14.  What a click does on a human's turn, when that player has a
    legal move and no strategy is thinking.  A click outside the cells or on
    a cell that is not a legal move changes nothing.  A click on a legal cell
    plays it with [makeMove]; afterwards the game is over exactly when
    neither colour has a legal move on the new board, and otherwise the
    scheduler is called with the game still running and the turn given to
    [determineNextPlayer], or to the other colour when the rule lets the same
    player continue but that player has no legal move. *)
Theorem handleHumanMove_click (st : state) (blackHuman whiteHuman : bool)
  (cell : option (Z * Z)) :
  let p := currentPlayer st in
  let out := OthelloUIEvents.handleHumanMove st blackHuman whiteHuman false
               cell in
  gameRunning st = true -> gameOver st = false ->
  (p =? BLACK) && blackHuman || (p =? WHITE) && whiteHuman = true ->
  getValidMoves st p (board st) <> [] ->
  match cell with
  | None => out = (st, GameController.Halt)
  | Some (row, col) =>
      if isValidMove st row col p (board st) then
        let st1 := mr_state (makeMove st row col p) in
        let next := determineNextPlayer st1 in
        let b' := board st1 in
        board out.1 = b'
        /\ (getValidMoves st1 BLACK b' = [] /\ getValidMoves st1 WHITE b' = []
            -> gameOver out.1 = true /\ out.2 = GameController.Halt)
        /\ (~ (getValidMoves st1 BLACK b' = []
               /\ getValidMoves st1 WHITE b' = [])
            -> gameOver out.1 = false /\ gameRunning out.1 = true
               /\ out.2 = GameController.Reenter
               /\ currentPlayer out.1
                  = if (p =? next)
                       && Nat.eqb (length (getValidMoves st1 next b')) 0
                    then otherPlayer next else next)
      else out = (st, GameController.Halt)
  end.
Proof.
  intros p out Hrun Hover Hturn Hmoves.
  unfold out, OthelloUIEvents.handleHumanMove. fold p.
  rewrite Hturn, Hrun, Hover. cbn [negb orb andb].
  destruct (Nat.eqb_spec (length (getValidMoves st p (board st))) 0) as [Hl|_].
  { by destruct (getValidMoves st p (board st)). }
  destruct cell as [[row col]|]; [|done].
  destruct (isValidMove st row col p (board st)); [|done].
  set (st1 := mr_state (makeMove st row col p)).
  set (next := determineNextPlayer st1).
  set (b' := board st1).
  destruct (makeMove_frame st row col p) as (HN & Hst & _ & Hr & Ho).
  fold st1 in HN, Hst, Hr, Ho.
  assert (Hgv : forall s q,
    board s = b' -> BOARD_SIZE s = BOARD_SIZE st1 ->
    currentStage s = currentStage st1 ->
    getValidMoves s q (board s) = getValidMoves st1 q b').
  { intros s q Hb Hn Hs. rewrite Hb. unfold getValidMoves, isValidMove.
    unfold stageIgnoreOcclusion. by rewrite Hn, Hs. }
  set (st2 := setCurrentPlayer st1 next).
  set (st3 := if (p =? next)
                 && Nat.eqb (length (getValidMoves st2 next (board st2))) 0
              then setCurrentPlayer st2 (otherPlayer next) else st2).
  assert (H3 : board st3 = b' /\ BOARD_SIZE st3 = BOARD_SIZE st1
               /\ currentStage st3 = currentStage st1
               /\ gameRunning st3 = true /\ gameOver st3 = false
               /\ currentPlayer st3
                  = if (p =? next)
                       && Nat.eqb (length (getValidMoves st1 next b')) 0
                    then otherPlayer next else next).
  { unfold st3. rewrite (Hgv st2 next) by done.
    destruct ((p =? next) && Nat.eqb (length (getValidMoves st1 next b')) 0);
      unfold st2;
      cbn [setCurrentPlayer board BOARD_SIZE currentStage gameRunning
           gameOver currentPlayer];
      rewrite ?Hr, ?Ho, ?Hrun, ?Hover; done. }
  destruct H3 as (Hb3 & HN3 & Hs3 & Hr3 & Ho3 & Hp3).
  rewrite !(Hgv st3) by done.
  destruct (getValidMoves st1 BLACK b') as [|mb lb] eqn:Eb;
    destruct (getValidMoves st1 WHITE b') as [|mw lw] eqn:Ew;
    cbn [length Nat.eqb andb fst snd].
  - unfold endGame. rewrite Hr3. cbn [negb fst board gameOver].
    split; [done|]. split; [done|]. intros Hn. exfalso. by apply Hn.
  - split; [done|]. split; [by intros [_ ?]|]. done.
  - split; [done|]. split; [by intros [? _]|]. done.
  - split; [done|]. split; [by intros [? _]|]. done.
Qed.

Lemma handleHumanMove_click_witness :
  let st := setGameRunning (initializeBoard init (Some stage_standard) false)
              true in
  OthelloUIEvents.handleHumanMove st true false false (Some (0, 0))
  = (st, GameController.Halt).
Proof.
  intros st.
  assert (Hm : getValidMoves st (currentPlayer st) (board st) <> [])
    by discriminate.
  apply (handleHumanMove_click st true false (Some (0, 0))
           eq_refl eq_refl eq_refl Hm).
Defined.

(** ** The board functions of the analysis interface *)

Section RunAgreement.

Variable N : Z.
Variable player : Z.
Variables row col : Z.
Variable d : Z * Z.
Variable b : Board.

Hypothesis Hsq : isSquare N b = true.
Hypothesis Hok : cellsOk b = true.
Hypothesis Hplayer : isPlayer player = true.
Hypothesis Hd : d ∈ directions.
Hypothesis Hin : isWithinBoard N row col = true.

(** Without the occlusion rule, the engine's scan and the run of opponent
    discs followed by its test compute the same thing. *)
Lemma flipScan_opponentRun : forall fuel k acc fo,
  1 <= k -> N <= k + Z.of_nat fuel ->
  fo = negb (Nat.eqb (length acc) 0) ->
  flipScan N false player b (fst d) (snd d) fuel
    (row + k * fst d) (col + k * snd d) acc fo false
  = let run := opponentRun N b (otherPlayer player) (fst d) (snd d) fuel
                 (row + k * fst d) (col + k * snd d) acc in
    if (0 <? Z.of_nat (length (fst run)))
       && isWithinBoard N (fst (snd run)) (snd (snd run))
       && cellIs b (fst (snd run)) (snd (snd run)) player
    then Some (fst run) else None.
Proof.
  apply isPlayer_cases in Hplayer as Hpl.
  destruct (otherPlayer_cases player) as [Hopp Hne].
  induction fuel as [|fuel IH]; intros k acc fo Hk Hfuel Hfo.
  - cbn [flipScan opponentRun fst snd].
    rewrite ray_leaves_board by (done || lia).
    by rewrite andb_false_r.
  - cbn [flipScan opponentRun].
    destruct (isWithinBoard N (row + k * fst d) (col + k * snd d)) eqn:Hwk;
      cbn [andb fst snd].
    2:{ rewrite Hwk. by rewrite andb_false_r. }
    destruct (cellAt_within N b _ _ Hsq Hwk) as [v Hv].
    assert (Hrange : 0 <= v <= 3)
      by (eapply (proj1 (cellsOk_spec b) Hok); exact Hv).
    assert (Hc : forall x,
      cellIs b (row + k * fst d) (col + k * snd d) x = (v =? x))
      by (intros x; unfold cellIs; by rewrite Hv).
    rewrite !Hc.
    replace (row + k * fst d + fst d) with (row + (k + 1) * fst d) by lia.
    replace (col + k * snd d + snd d) with (col + (k + 1) * snd d) by lia.
    destruct (Z.eqb_spec v (otherPlayer player)) as [->|Hvo].
    { apply IH; [lia|lia|].
      rewrite length_app. simpl. by rewrite Nat.add_1_r. }
    cbn [fst snd]. rewrite Hwk, !Hc.
    destruct (Z.eqb_spec v BLOCKED) as [->|Hvb].
    { cbn [negb]. destruct (Z.eqb_spec BLOCKED player) as [E|_].
      - destruct Hpl as [Hp|Hp]; rewrite Hp in E; discriminate.
      - by rewrite andb_false_r. }
    destruct (Z.eqb_spec v EMPTY) as [->|Hve].
    { destruct (Z.eqb_spec EMPTY player) as [E|_].
      - destruct Hpl as [Hp|Hp]; rewrite Hp in E; discriminate.
      - by rewrite andb_false_r. }
    destruct (Z.eqb_spec v player) as [->|Hvp].
    { subst fo. destruct acc; simpl; done. }
    exfalso. unfold BLOCKED, EMPTY, BLACK, WHITE in *.
    destruct Hpl as [Hp|Hp], Hopp as [Ho|Ho]; lia.
Qed.

Lemma capturedRun_captureIn :
  capturedRun N b player row col d = captureIn N false player row col b d.
Proof.
  unfold capturedRun, captureIn.
  replace (row + fst d) with (row + 1 * fst d) by lia.
  replace (col + snd d) with (col + 1 * snd d) by lia.
  symmetry. apply flipScan_opponentRun; [lia| |done].
  unfold scanFuel. apply isWithinBoard_spec in Hin. lia.
Qed.

End RunAgreement.

Lemma existsb_eq {A} (f g : A -> bool) l :
  (forall x, x ∈ l -> f x = g x) -> existsb f l = existsb g l.
Proof.
  induction l as [|x l IH]; intros H; simpl; [done|].
  rewrite (H x) by left. rewrite IH; [done|]. intros y Hy. apply H. by right.
Qed.

Lemma isSquare_size N b :
  isSquare N b = true -> Z.of_nat (length b) = Z.max 0 N.
Proof. intros [Hl _]%isSquare_spec. lia. Qed.

Lemma isi_isValidMove_core (st : state) (b : Board) (row col player : Z) :
  isSquare (BOARD_SIZE st) b = true -> cellsOk b = true ->
  isPlayer player = true -> stageIgnoreOcclusion st = false ->
  IntelligentSystemBoard.isValidMove b row col player
  = isValidMove st row col player b.
Proof.
  intros Hsq Hok Hpl Hign.
  unfold IntelligentSystemBoard.isValidMove, isValidMove.
  pose proof (isSquare_size _ _ Hsq) as Hlen.
  destruct (isWithinBoard (BOARD_SIZE st) row col) eqn:Hin.
  - apply isWithinBoard_spec in Hin as Hin'.
    assert (HN : Z.of_nat (length b) = BOARD_SIZE st) by lia.
    rewrite HN.
    replace ((row <? 0) || (BOARD_SIZE st <=? row) || (col <? 0)
             || (BOARD_SIZE st <=? col)) with false
      by (symmetry; repeat (apply orb_false_iff; split);
          first [apply Z.ltb_ge | apply Z.leb_gt]; lia).
    cbn [negb orb].
    change (cellIs b row col 0) with (cellIs b row col EMPTY).
    destruct (cellIs b row col EMPTY); cbn [negb]; [|done].
    apply existsb_eq. intros d Hd%list_elem_of_In%list_elem_of_In.
    rewrite Hign.
    rewrite (capturedRun_captureIn (BOARD_SIZE st) player row col d b)
      by done.
    pose proof (captureIn_valid (BOARD_SIZE st) false player row col b d)
      as Hiff.
    destruct (captureIn _ _ _ _ _ _ _) as [l|];
      destruct (validScan _ _ _ _ _ _ _ _ _ _ _); try done.
    + destruct Hiff as [Hiff _]. by specialize (Hiff (mk_is_Some _ _ eq_refl)).
    + destruct Hiff as [_ Hiff]. by destruct (Hiff eq_refl).
  - cbn [negb orb].
    replace ((row <? 0) || (Z.of_nat (length b) <=? row) || (col <? 0)
             || (Z.of_nat (length b) <=? col)) with true; [done|].
    assert (Hout : ~ (0 <= row < BOARD_SIZE st /\ 0 <= col < BOARD_SIZE st)).
    { rewrite <- isWithinBoard_spec. congruence. }
    symmetry. rewrite !orb_true_iff, !Z.ltb_lt, !Z.leb_le. lia.
Qed.

Lemma list_bind_eq {A B} (f g : A -> list B) (l : list A) :
  (forall x, f x = g x) -> l ≫= f = l ≫= g.
Proof.
  intros H. induction l as [|x l IH]; [done|]. csimpl. by rewrite H, IH.
Qed.

(** X15.  Where the stage does not ignore occlusion, the legality test and
    the move list the analysis interface hands to an uploaded system are the
    engine's own: on a square board of the engine's size whose cells hold
    cell states, [IntelligentSystemInterface.isValidMove] and
    [getValidMoves] return what [OthelloCore.isValidMove] and
    [getValidMoves] return, for Black and for White. *)
Theorem isi_legality_agrees_with_engine (st : state) (b : Board)
  (player : Z) :
  isSquare (BOARD_SIZE st) b = true -> cellsOk b = true ->
  isPlayer player = true -> stageIgnoreOcclusion st = false ->
  (forall row col,
     IntelligentSystemBoard.isValidMove b row col player
     = isValidMove st row col player b)
  /\ IntelligentSystemBoard.getValidMoves b player
     = getValidMoves st player b.
Proof.
  intros Hsq Hok Hpl Hign.
  assert (Hv : forall row col,
    IntelligentSystemBoard.isValidMove b row col player
    = isValidMove st row col player b).
  { intros row col. by apply isi_isValidMove_core. }
  split; [done|].
  unfold IntelligentSystemBoard.getValidMoves, getValidMoves.
  apply list_bind_eq. intros r. apply list_bind_eq. intros c.
  by rewrite Hv.
Qed.

Lemma isi_legality_agrees_with_engine_witness :
  let st := initializeBoard init (Some stage_standard) false in
  IntelligentSystemBoard.getValidMoves (board st) BLACK
  = getValidMoves st BLACK (board st).
Proof.
  intros st.
  destruct (isi_legality_agrees_with_engine st (board st) BLACK) as [_ H];
    [reflexivity|reflexivity|reflexivity|reflexivity|exact H].
Defined.

(** Where the stage does ignore occlusion the two differ: the interface
    rejects the jump over a Blocked cell that the engine accepts. *)
Example isi_legality_without_occlusion_rule :
  let jump := mkStage "jump" 4 [mkPos 0 2] [mkPos 0 3] [mkPos 0 1] true false in
  let st := initializeBoard init (Some jump) false in
  isValidMove st 0 0 BLACK (board st) = true
  /\ IntelligentSystemBoard.isValidMove (board st) 0 0 BLACK = false.
Proof. vm_compute. done. Qed.

Lemma simulate_fold (N player row col : Z) (ds : list (Z * Z)) :
  isPlayer player = true -> isWithinBoard N row col = true ->
  (forall d, d ∈ ds -> d ∈ directions) ->
  forall (s : sweep) (cnt : Z),
    isSquare N (sw_board s) = true -> cellsOk (sw_board s) = true ->
    cnt = Z.of_nat (length (sw_captured s)) ->
    let s' := fold_left (sweepDir N false player row col) ds s in
    fold_left (IntelligentSystemBoard.simulateDir N player row col) ds
      (sw_board s, cnt)
    = (sw_board s', Z.of_nat (length (sw_captured s'))).
Proof.
  intros Hpl Hin. induction ds as [|d ds IH]; intros Hdirs s cnt Hsq Hok Hcnt.
  - simpl. by rewrite Hcnt.
  - cbn [fold_left].
    assert (Hd : d ∈ directions) by (apply Hdirs; left).
    assert (Hstep :
      IntelligentSystemBoard.simulateDir N player row col (sw_board s, cnt) d
      = (sw_board (sweepDir N false player row col s d),
         Z.of_nat (length (sw_captured (sweepDir N false player row col s d))))).
    { unfold IntelligentSystemBoard.simulateDir, sweepDir. cbn [fst snd].
      rewrite (capturedRun_captureIn N player row col d (sw_board s)) by done.
      destruct (captureIn N false player row col (sw_board s) d) as [l|].
      - cbn [sw_board sw_captured]. rewrite length_app, Hcnt. f_equal. lia.
      - by rewrite Hcnt. }
    rewrite Hstep. apply IH.
    + intros d' Hd'. apply Hdirs. by right.
    + unfold sweepDir.
      destruct (captureIn N false player row col (sw_board s) d) as [l|] eqn:El;
        [|done].
      cbn [sw_board].
      apply (flipAll_cells N player l (sw_board s)); [done|].
      intros q Hq.
      by destruct (scanOf_cells _ _ _ _ _ _ _ _ _ El Hq) as (_ & _ & _ & ? & _).
    + unfold sweepDir.
      destruct (captureIn N false player row col (sw_board s) d) as [l|];
        [|done].
      cbn [sw_board]. apply cellsOk_flipAll; [done|].
      apply isPlayer_cases in Hpl as [->| ->]; done.
    + done.
Qed.

(** X16.  [simulateMove] of the analysis interface predicts the engine.
    Where the stage does not ignore occlusion, simulating a move on the
    engine's board answers [{ valid: false }] exactly for the moves the engine
    rejects, and for a legal move it returns the very board [makeMove] would
    produce and, as [capturedCount], the number of discs [makeMove] would
    capture. *)
Theorem simulateMove_predicts_makeMove (st : state) (row col player : Z) :
  isSquare (BOARD_SIZE st) (board st) = true -> cellsOk (board st) = true ->
  isPlayer player = true -> stageIgnoreOcclusion st = false ->
  IntelligentSystemBoard.simulateMove (board st) player row col
  = if isValidMove st row col player (board st)
    then let res := makeMove st row col player in
         Some (board (mr_state res), Z.of_nat (length (mr_captured res)))
    else None.
Proof.
  intros Hsq Hok Hpl Hign.
  unfold IntelligentSystemBoard.simulateMove.
  rewrite (isi_isValidMove_core st) by done.
  destruct (isValidMove st row col player (board st)) eqn:Hv; cbn [negb];
    [|done].
  apply isValidMove_true in Hv as (Hin & He & _).
  pose proof (isSquare_size _ _ Hsq) as Hlen.
  apply isWithinBoard_spec in Hin as Hin'.
  assert (HN : Z.of_nat (length (board st)) = BOARD_SIZE st) by lia.
  rewrite HN. cbn zeta. unfold makeMove. rewrite Hin. unfold cellIs.
  rewrite He, Hign. cbn [negb orb mr_state mr_captured board with_board].
  rewrite Z.eqb_refl. cbn [negb].
  cbn [mr_state mr_captured board with_board]. f_equal.
  apply (simulate_fold (BOARD_SIZE st) player row col directions Hpl Hin
           ltac:(done) (mkSweep (setCell (board st) row col player) false [])).
  - cbn [sw_board]. by rewrite isSquare_setCell.
  - cbn [sw_board]. apply cellsOk_setCell; [done|].
    apply isPlayer_cases in Hpl as [->| ->]; done.
  - done.
Qed.

Lemma simulateMove_predicts_makeMove_witness :
  let st := initializeBoard init (Some stage_standard) false in
  IntelligentSystemBoard.simulateMove (board st) BLACK 2 3
  = Some (board (mr_state (makeMove st 2 3 BLACK)), 1).
Proof.
  intros st.
  rewrite (simulateMove_predicts_makeMove st 2 3 BLACK); reflexivity.
Defined.

(** ** The built-in strategies *)

Lemma fold_left_eq {A B} (f g : A -> B -> A) (l : list B) :
  (forall acc x, x ∈ l -> f acc x = g acc x) ->
  forall z, fold_left f l z = fold_left g l z.
Proof.
  induction l as [|x l IH]; intros H z; simpl; [done|].
  rewrite (H z x) by left. apply IH. intros acc y Hy. apply H. by right.
Qed.

(** What the loop over the directions captures in all is what the scans
    find on the board as it is before the first flip. *)
Lemma sweep_captured_length N ign player row col b1 ds : forall s z,
  NoDup ds -> (forall d, d ∈ ds -> d ∈ directions) ->
  isSquare N (sw_board s) = true ->
  (forall d k, d ∈ ds -> 1 <= k ->
     cellAt (sw_board s) (rayCell row col d k).1 (rayCell row col d k).2
     = cellAt b1 (rayCell row col d k).1 (rayCell row col d k).2) ->
  Z.of_nat (length (sw_captured
     (fold_left (sweepDir N ign player row col) ds s)))
  - Z.of_nat (length (sw_captured s)) + z
  = fold_left
      (fun acc d =>
         match captureIn N ign player row col b1 d with
         | Some l => acc + Z.of_nat (length l)
         | None => acc
         end) ds z.
Proof.
  induction ds as [|d ds IH]; intros s z Hnd Hdirs Hsq Hagree.
  - simpl. lia.
  - cbn [fold_left]. apply NoDup_cons in Hnd as [Hfresh Hnd].
    assert (Hd : d ∈ directions) by (apply Hdirs; left).
    assert (Hscan : captureIn N ign player row col (sw_board s) d
                    = captureIn N ign player row col b1 d).
    { apply scanOf_ext. intros k Hk. apply (Hagree d k); [left|done]. }
    set (s1 := sweepDir N ign player row col s d).
    destruct (sweep_fold N ign player row col b1 [d] s) as (Hsq1 & _ & _ & _ & Hkeep).
    { apply NoDup_singleton. }
    { by intros d' ->%list_elem_of_singleton. }
    { done. }
    { intros d' k ->%list_elem_of_singleton Hk. apply Hagree; [left|done]. }
    cbn [fold_left] in Hsq1, Hkeep. fold s1 in Hsq1, Hkeep.
    rewrite <- (IH s1); [| done | intros; apply Hdirs; by right | done |].
    + unfold s1, sweepDir. rewrite Hscan.
      destruct (captureIn N ign player row col b1 d) as [l|]; [|lia].
      cbn [sw_captured]. rewrite length_app. lia.
    + intros d' k Hd' Hk. rewrite Hkeep; [apply Hagree; [by right|done]|].
      intros d0 l ->%list_elem_of_singleton Hl Hin.
      destruct (scanOf_cells _ _ _ _ _ _ _ _ _ Hl Hin) as (j & Hj & Heq & _).
      destruct (rayCell row col d' k) as [x y] eqn:Er. simpl in Heq.
      rewrite <- Er in Heq.
      apply rayCell_disjoint in Heq; [|by apply Hdirs; right|done|done|done].
      by subst d'.
Qed.

(** The count the greedy strategy computes for a move on an Empty cell of
    the board is the number of discs the engine captures with it. *)
Lemma countFlips_captured (st : state) (player : Z) (m : Move) :
  isSquare (BOARD_SIZE st) (board st) = true -> cellsOk (board st) = true ->
  isPlayer player = true -> stageIgnoreOcclusion st = false ->
  isWithinBoard (BOARD_SIZE st) (row m) (col m) = true ->
  cellAt (board st) (row m) (col m) = Some EMPTY ->
  Strategies.countFlips (setCell (board st) (row m) (col m) player) player m
  = Z.of_nat (length (mr_captured (makeMove st (row m) (col m) player))).
Proof.
  intros Hsq Hok Hpl Hign Hin He.
  set (N := BOARD_SIZE st) in *.
  set (b1 := setCell (board st) (row m) (col m) player).
  assert (Hsq1 : isSquare N b1 = true) by (unfold b1; by rewrite isSquare_setCell).
  assert (Hok1 : cellsOk b1 = true).
  { apply cellsOk_setCell; [done|].
    apply isPlayer_cases in Hpl as [->| ->]; done. }
  assert (HN : Z.of_nat (length b1) = N).
  { pose proof (isSquare_size _ _ Hsq1). apply isWithinBoard_spec in Hin.
    lia. }
  unfold Strategies.countFlips. rewrite HN.
  unfold makeMove. fold N. rewrite Hin. unfold cellIs. rewrite He, Hign.
  rewrite Z.eqb_refl. cbn [negb orb mr_captured]. fold b1.
  pose proof (sweep_captured_length N false player (row m) (col m) b1
                directions (mkSweep b1 false []) 0 NoDup_directions
                ltac:(done) Hsq1 ltac:(done)) as Hlen.
  cbn [sw_captured length] in Hlen.
  replace (Z.of_nat (length (sw_captured (fold_left
             (sweepDir N false player (row m) (col m)) directions
             (mkSweep b1 false [])))))
    with (Z.of_nat (length (sw_captured (fold_left
             (sweepDir N false player (row m) (col m)) directions
             (mkSweep b1 false [])))) - Z.of_nat 0 + 0) by lia.
  rewrite Hlen. apply fold_left_eq. intros acc d Hd.
  by rewrite (capturedRun_captureIn N player (row m) (col m) d b1).
Qed.

Lemma countFlips_nonneg b player m : 0 <= Strategies.countFlips b player m.
Proof.
  unfold Strategies.countFlips.
  assert (H : forall ds z, 0 <= z ->
    0 <= fold_left
      (fun currentFlips d =>
         match capturedRun (Z.of_nat (length b)) b player (row m) (col m) d with
         | Some piecesToFlip => currentFlips + Z.of_nat (length piecesToFlip)
         | None => currentFlips
         end) ds z).
  { induction ds as [|d ds IH]; intros z Hz; simpl; [done|].
    apply IH. destruct (capturedRun _ _ _ _ _ _); lia. }
  by apply H.
Qed.

Section Greedy.

Variable b : Board.
Variable player : Z.

Abbreviation flips m :=
  (Strategies.countFlips (setCell b (row m) (col m) player) player m).

(** The loop of the greedy strategy keeps the first move with the largest
    count. *)
Lemma greedy_fold : forall (l : list Move) bm mf,
  (forall m, m ∈ l -> 0 <= row m < Z.of_nat (length b)) ->
  exists bm' mf',
    fold_left (Strategies.greedyStep b player) l (Some (bm, mf))
    = Some (bm', mf')
    /\ ((bm' = bm /\ mf' = mf /\ forall m, m ∈ l -> flips m <= mf)
        \/ exists l1 m l2,
             l = l1 ++ m :: l2 /\ bm' = Some m /\ mf' = flips m
             /\ mf < flips m
             /\ (forall m', m' ∈ l1 -> flips m' < flips m)
             /\ (forall m', m' ∈ l2 -> flips m' <= flips m)).
Proof.
  induction l as [|x l IH]; intros bm mf Hrows.
  - exists bm, mf. split; [done|]. left.
    split; [done|]. split; [done|]. intros m Hm. by apply elem_of_nil in Hm.
  - cbn [fold_left Strategies.greedyStep].
    assert (Hx : (row x <? 0) || (Z.of_nat (length b) <=? row x) = false).
    { specialize (Hrows x ltac:(left)).
      apply orb_false_iff. split; [apply Z.ltb_ge|apply Z.leb_gt]; lia. }
    rewrite Hx.
    assert (Hrows' : forall m, m ∈ l -> 0 <= row m < Z.of_nat (length b))
      by (intros m Hm; apply Hrows; by right).
    destruct (Z.ltb_spec mf (flips x)) as [Hlt|Hge].
    + destruct (IH (Some x) (flips x) Hrows') as (bm' & mf' & Hf & Hcase).
      exists bm', mf'. split; [done|]. right.
      destruct Hcase as [(-> & -> & Hall)
                        |(l1 & m & l2 & -> & -> & -> & Hm & H1 & H2)].
      * exists [], x, l. repeat split; try done.
        intros m' Hm'. by apply elem_of_nil in Hm'.
      * exists (x :: l1), m, l2. repeat split; try done; [lia|].
        intros m' [->|Hm']%elem_of_cons; [done|by apply H1].
    + destruct (IH bm mf Hrows') as (bm' & mf' & Hf & Hcase).
      exists bm', mf'. split; [done|].
      destruct Hcase as [(-> & -> & Hall)
                        |(l1 & m & l2 & -> & -> & -> & Hm & H1 & H2)].
      * left. split; [done|]. split; [done|].
        intros m [->|Hm]%elem_of_cons; [done|by apply Hall].
      * right. exists (x :: l1), m, l2. repeat split; try done.
        intros m' [->|Hm']%elem_of_cons; [lia|by apply H1].
Qed.

Lemma greedy_first_best (validMoves : list Move) (rnd : Q) :
  validMoves <> [] ->
  (forall m, m ∈ validMoves -> 0 <= row m < Z.of_nat (length b)) ->
  exists l1 m l2,
    validMoves = l1 ++ m :: l2
    /\ Strategies.greedy b player validMoves rnd
       = IntelligentSystemInterface.Returned (Some m)
    /\ (forall m', m' ∈ l1 -> flips m' < flips m)
    /\ (forall m', m' ∈ l2 -> flips m' <= flips m).
Proof.
  intros Hne Hrows. unfold Strategies.greedy.
  destruct (Nat.eqb_spec (length validMoves) 0) as [Hl|_].
  { by destruct validMoves. }
  destruct (greedy_fold validMoves None (-1) Hrows) as (bm' & mf' & Hf & Hcase).
  rewrite Hf.
  destruct Hcase as [(-> & -> & Hall)
                    |(l1 & m & l2 & -> & -> & -> & Hm & H1 & H2)].
  - destruct validMoves as [|x l]; [done|].
    specialize (Hall x ltac:(left)).
    pose proof (countFlips_nonneg (setCell b (row x) (col x) player) player x).
    lia.
  - by exists l1, m, l2.
Qed.

End Greedy.

(** X17.  The greedy strategy maximises what the engine captures.  On the
    engine's board, where the stage does not ignore occlusion, given a
    non-empty list of legal moves the greedy strategy returns a move of the
    list with which [makeMove] captures at least as many discs as with any
    other move of the list, and strictly more than with every move listed
    before it: among equals the first listed wins. *)
Theorem greedy_maximises_captures (st : state) (player : Z)
  (validMoves : list Move) (rnd : Q) :
  let captures m :=
    Z.of_nat (length (mr_captured (makeMove st (row m) (col m) player))) in
  isSquare (BOARD_SIZE st) (board st) = true -> cellsOk (board st) = true ->
  isPlayer player = true -> stageIgnoreOcclusion st = false ->
  validMoves <> [] ->
  (forall m, m ∈ validMoves ->
     isValidMove st (row m) (col m) player (board st) = true) ->
  exists l1 m l2,
    validMoves = l1 ++ m :: l2
    /\ Strategies.greedy (board st) player validMoves rnd
       = IntelligentSystemInterface.Returned (Some m)
    /\ (forall m', m' ∈ l1 -> captures m' < captures m)
    /\ (forall m', m' ∈ l2 -> captures m' <= captures m).
Proof.
  intros captures Hsq Hok Hpl Hign Hne Hlegal.
  assert (Hcell : forall m, m ∈ validMoves ->
    isWithinBoard (BOARD_SIZE st) (row m) (col m) = true
    /\ cellAt (board st) (row m) (col m) = Some EMPTY).
  { intros m Hm. by destruct (isValidMove_true _ _ _ _ (Hlegal m Hm))
      as (? & ? & _). }
  assert (Hflips : forall m, m ∈ validMoves ->
    Strategies.countFlips (setCell (board st) (row m) (col m) player) player m
    = captures m).
  { intros m Hm. destruct (Hcell m Hm) as [Hin He].
    by apply countFlips_captured. }
  destruct (greedy_first_best (board st) player validMoves rnd Hne)
    as (l1 & m & l2 & Hl & Hg & H1 & H2).
  { intros m Hm. destruct (Hcell m Hm) as [Hin _].
    apply isWithinBoard_spec in Hin.
    pose proof (isSquare_size _ _ Hsq). lia. }
  exists l1, m, l2. split; [done|]. split; [done|].
  assert (Hm : m ∈ validMoves).
  { rewrite Hl. apply elem_of_app. right. left. }
  split.
  - intros m' Hm'. rewrite <- !Hflips; [by apply H1|done|].
    rewrite Hl. apply elem_of_app. by left.
  - intros m' Hm'. rewrite <- !Hflips; [by apply H2|done|].
    rewrite Hl. apply elem_of_app. right. by right.
Qed.

Lemma greedy_maximises_captures_witness :
  let st := initializeBoard init (Some stage_standard) false in
  let validMoves := getValidMoves st BLACK (board st) in
  exists l1 m l2,
    validMoves = l1 ++ m :: l2
    /\ Strategies.greedy (board st) BLACK validMoves 0%Q
       = IntelligentSystemInterface.Returned (Some m).
Proof.
  intros st validMoves.
  assert (Hne : validMoves <> []) by discriminate.
  assert (Hlegal : forall m, m ∈ validMoves ->
            isValidMove st (row m) (col m) BLACK (board st) = true).
  { intros m Hm. by apply elem_of_getValidMoves in Hm as [_ ?]. }
  destruct (greedy_maximises_captures st BLACK validMoves 0%Q
              eq_refl eq_refl eq_refl eq_refl Hne Hlegal)
    as (l1 & m & l2 & H1 & H2 & _).
  by exists l1, m, l2.
Defined.

Lemma filter_first {A} (P : A -> bool) (l : list A) x rest :
  List.filter P l = x :: rest ->
  exists l1 l2, l = l1 ++ x :: l2 /\ P x = true
                /\ forall y, y ∈ l1 -> P y = false.
Proof.
  induction l as [|a l IH]; [done|]. simpl.
  destruct (P a) eqn:Pa.
  - intros [= -> _]. exists [], l. split; [done|]. split; [done|].
    intros y Hy. by apply elem_of_nil in Hy.
  - intros (l1 & l2 & -> & Px & Hl1)%IH. exists (a :: l1), l2.
    split; [done|]. split; [done|].
    intros y [->|Hy]%elem_of_cons; [done|by apply Hl1].
Qed.

Lemma filter_elem {A} (P : A -> bool) (l : list A) x :
  x ∈ List.filter P l -> x ∈ l /\ P x = true.
Proof.
  intros Hx%list_elem_of_In%filter_In. destruct Hx as [Hx HP].
  split; [by apply list_elem_of_In|done].
Qed.

(** X18.  The corners strategy keeps its order of preference.  Given a
    non-empty list of moves, it returns the first corner of the list when the
    list has a corner; failing that, a move of the list on an edge of the
    board when the list has one; and only when the list has neither does it
    answer what the greedy strategy answers. *)
Theorem corners_preference (b : Board) (player : Z)
  (validMoves : list Move) (rnd : Q) :
  let boardSize := Z.of_nat (length b) in
  let corner := Strategies.isCorner boardSize in
  let edge := Strategies.isEdge boardSize in
  validMoves <> [] -> (0 <= rnd)%Q -> (rnd < 1)%Q ->
  ((exists m, m ∈ validMoves /\ corner m = true) ->
   exists l1 m l2,
     validMoves = l1 ++ m :: l2 /\ corner m = true
     /\ (forall m', m' ∈ l1 -> corner m' = false)
     /\ Strategies.corners b player validMoves rnd
        = IntelligentSystemInterface.Returned (Some m))
  /\ ((forall m, m ∈ validMoves -> corner m = false) ->
      (exists m, m ∈ validMoves /\ edge m = true) ->
      exists m,
        m ∈ validMoves /\ edge m = true
        /\ Strategies.corners b player validMoves rnd
           = IntelligentSystemInterface.Returned (Some m))
  /\ ((forall m, m ∈ validMoves -> edge m = false) ->
      Strategies.corners b player validMoves rnd
      = Strategies.greedy b player validMoves rnd).
Proof.
  intros boardSize corner edge Hne H0 H1.
  unfold Strategies.corners. fold boardSize corner edge.
  destruct (Nat.eqb_spec (length validMoves) 0) as [Hl|_].
  { by destruct validMoves. }
  assert (Hnocorner : (forall m, m ∈ validMoves -> corner m = false) ->
            List.filter corner validMoves = []).
  { intros Hall. destruct (List.filter corner validMoves) as [|x rest] eqn:Ef;
      [done|].
    assert (Hx : x ∈ List.filter corner validMoves) by (rewrite Ef; left).
    apply filter_elem in Hx as [Hx Hc]. rewrite (Hall x Hx) in Hc. done. }
  split; [|split].
  - intros (m0 & Hm0 & Hc0).
    destruct (List.filter corner validMoves) as [|x rest] eqn:Ef.
    + assert (Hin : m0 ∈ List.filter corner validMoves).
      { apply list_elem_of_In, filter_In. split; [by apply list_elem_of_In|done]. }
      rewrite Ef in Hin. by apply elem_of_nil in Hin.
    + apply filter_first in Ef as (l1 & l2 & Hl & Hx & Hl1).
      by exists l1, x, l2.
  - intros Hall (m0 & Hm0 & He0). rewrite (Hnocorner Hall).
    assert (Hedges : List.filter edge validMoves <> []).
    { intros Ef.
      assert (Hin : m0 ∈ List.filter edge validMoves).
      { apply list_elem_of_In, filter_In. split; [by apply list_elem_of_In|done]. }
      rewrite Ef in Hin. by apply elem_of_nil in Hin. }
    destruct (Nat.eqb_spec (length (List.filter edge validMoves)) 0) as [Hl|_].
    { by destruct (List.filter edge validMoves). }
    cbn [negb].
    destruct (randomMove_member _ rnd Hedges H0 H1) as (m & Hm & Hin).
    apply filter_elem in Hin as [Hin He].
    exists m. by rewrite Hm.
  - intros Hall.
    assert (Hc : forall m, m ∈ validMoves -> corner m = false).
    { intros m Hm. specialize (Hall m Hm).
      unfold corner, Strategies.isCorner. unfold edge, Strategies.isEdge in Hall.
      destruct (row m =? 0), (row m =? boardSize - 1), (col m =? 0),
        (col m =? boardSize - 1); done. }
    rewrite (Hnocorner Hc).
    assert (He : List.filter edge validMoves = []).
    { destruct (List.filter edge validMoves) as [|x rest] eqn:Ef; [done|].
      assert (Hx : x ∈ List.filter edge validMoves) by (rewrite Ef; left).
      apply filter_elem in Hx as [Hx Hc']. rewrite (Hall x Hx) in Hc'. done. }
    by rewrite He.
Qed.

Lemma corners_preference_witness :
  let b := newSquare 8 EMPTY in
  let validMoves := [mkMove 2 3; mkMove 0 7; mkMove 0 0] in
  exists l1 m l2,
    validMoves = l1 ++ m :: l2
    /\ Strategies.isCorner (Z.of_nat (length b)) m = true
    /\ Strategies.corners b BLACK validMoves (1 # 2)
       = IntelligentSystemInterface.Returned (Some m).
Proof.
  intros b validMoves.
  assert (Hne : validMoves <> []) by discriminate.
  assert (H0 : (0 <= 1 # 2)%Q) by discriminate.
  assert (H1 : (1 # 2 < 1)%Q) by reflexivity.
  destruct (corners_preference b BLACK validMoves (1 # 2) Hne H0 H1)
    as (Hc & _).
  destruct Hc as (l1 & m & l2 & Hl & Hm & _ & Hr).
  { exists (mkMove 0 7). split; [right; left|reflexivity]. }
  by exists l1, m, l2.
Defined.

Section Positional.

Abbreviation weightAt m := (cellAt Strategies.weights (row m) (col m)).

Lemma weightAt_inside m :
  0 <= row m < 8 -> 0 <= col m < 8 -> is_Some (weightAt m).
Proof.
  intros Hr Hc.
  destruct (cellAt_within 8 Strategies.weights (row m) (col m)) as [w Hw];
    [done| |by exists w].
  apply isWithinBoard_spec. lia.
Qed.

(** The loop of the positional strategy keeps the first move with the
    largest weight. *)
Lemma positional_fold : forall (l : list Move) bm best,
  (forall m, m ∈ l -> 0 <= row m < 8 /\ 0 <= col m < 8) ->
  exists bm' best',
    fold_left Strategies.positionalStep l (Some (bm, best))
    = Some (bm', best')
    /\ ((bm' = bm /\ best' = best
         /\ forall m w, m ∈ l -> weightAt m = Some w ->
              Strategies.exceeds w best = false)
        \/ exists l1 m l2 w,
             l = l1 ++ m :: l2 /\ bm' = Some m /\ best' = Some w
             /\ weightAt m = Some w /\ Strategies.exceeds w best = true
             /\ (forall m' w', m' ∈ l1 -> weightAt m' = Some w' -> w' < w)
             /\ (forall m' w', m' ∈ l2 -> weightAt m' = Some w' -> w' <= w)).
Proof.
  induction l as [|x l IH]; intros bm best Hin.
  - exists bm, best. split; [done|]. left.
    split; [done|]. split; [done|]. intros m w Hm. by apply elem_of_nil in Hm.
  - cbn [fold_left Strategies.positionalStep].
    destruct (Hin x ltac:(left)) as [Hr Hc].
    assert (Hx : (row x <? 0) || (8 <=? row x) = false).
    { apply orb_false_iff. split; [apply Z.ltb_ge|apply Z.leb_gt]; lia. }
    rewrite Hx.
    destruct (weightAt_inside x Hr Hc) as [wx Hwx]. rewrite Hwx.
    assert (Hin' : forall m, m ∈ l -> 0 <= row m < 8 /\ 0 <= col m < 8)
      by (intros m Hm; apply Hin; by right).
    destruct (Strategies.exceeds wx best) eqn:Hex.
    + destruct (IH (Some x) (Some wx) Hin') as (bm' & best' & Hf & Hcase).
      exists bm', best'. split; [done|]. right.
      destruct Hcase as [(-> & -> & Hall)
        |(l1 & m & l2 & w & -> & -> & -> & Hw & Hm & H1 & H2)].
      * exists [], x, l, wx. repeat split; try done.
        -- intros m' w' Hm'. by apply elem_of_nil in Hm'.
        -- intros m' w' Hm' Hw'. specialize (Hall m' w' Hm' Hw').
           simpl in Hall. lia.
      * exists (x :: l1), m, l2, w. simpl in Hm. repeat split; try done.
        -- destruct best as [s|]; simpl in *; [lia|done].
        -- intros m' w' [->|Hm']%elem_of_cons Hw'; [|by apply (H1 m')].
           assert (w' = wx) by congruence. lia.
    + destruct (IH bm best Hin') as (bm' & best' & Hf & Hcase).
      exists bm', best'. split; [done|].
      destruct Hcase as [(-> & -> & Hall)
        |(l1 & m & l2 & w & -> & -> & -> & Hw & Hm & H1 & H2)].
      * left. split; [done|]. split; [done|].
        intros m w [->|Hm]%elem_of_cons Hw; [|by apply (Hall m)].
        assert (w = wx) by congruence. by subst.
      * right. exists (x :: l1), m, l2, w. repeat split; try done.
        intros m' w' [->|Hm']%elem_of_cons Hw'; [|by apply (H1 m')].
        assert (w' = wx) by congruence. subst w'.
        destruct best as [s|]; simpl in *; [lia|done].
Qed.

End Positional.

(** X19.  The positional strategy picks the heaviest square.  On a board
    of eight rows, given a non-empty list of moves inside the 8 by 8 table of
    weights, it returns a move of the list whose weight is at least that of
    every other move of the list and strictly above that of every move listed
    before it.  On a board with any other number of rows it answers what the
    greedy strategy answers. *)
Theorem positional_heaviest (b : Board) (player : Z)
  (validMoves : list Move) (rnd : Q) :
  validMoves <> [] ->
  (length b <> 8%nat ->
   Strategies.positional b player validMoves rnd
   = Strategies.greedy b player validMoves rnd)
  /\ (length b = 8%nat ->
      (forall m, m ∈ validMoves -> 0 <= row m < 8 /\ 0 <= col m < 8) ->
      exists l1 m l2 w,
        validMoves = l1 ++ m :: l2
        /\ Strategies.positional b player validMoves rnd
           = IntelligentSystemInterface.Returned (Some m)
        /\ cellAt Strategies.weights (row m) (col m) = Some w
        /\ (forall m' w', m' ∈ l1 ->
              cellAt Strategies.weights (row m') (col m') = Some w' -> w' < w)
        /\ (forall m' w', m' ∈ l2 ->
              cellAt Strategies.weights (row m') (col m') = Some w' ->
              w' <= w)).
Proof.
  intros Hne. unfold Strategies.positional.
  destruct (Nat.eqb_spec (length validMoves) 0) as [Hl|_].
  { by destruct validMoves. }
  split.
  - intros Hlen. by destruct (Nat.eqb_spec (length b) 8).
  - intros Hlen Hin. destruct (Nat.eqb_spec (length b) 8); [|done].
    cbn [negb].
    destruct (positional_fold validMoves None None Hin)
      as (bm' & best' & Hf & Hcase).
    rewrite Hf.
    destruct Hcase as [(-> & -> & Hall)
      |(l1 & m & l2 & w & -> & -> & -> & Hw & Hm & H1 & H2)].
    + destruct validMoves as [|x l]; [done|].
      destruct (Hin x ltac:(left)) as [Hr Hc].
      destruct (weightAt_inside x Hr Hc) as [wx Hwx].
      specialize (Hall x wx ltac:(left) Hwx). done.
    + by exists l1, m, l2, w.
Qed.

Lemma positional_heaviest_witness :
  let b := newSquare 8 EMPTY in
  let validMoves := [mkMove 2 3; mkMove 0 7; mkMove 0 0] in
  exists l1 m l2 w,
    validMoves = l1 ++ m :: l2
    /\ Strategies.positional b BLACK validMoves 0%Q
       = IntelligentSystemInterface.Returned (Some m)
    /\ cellAt Strategies.weights (row m) (col m) = Some w.
Proof.
  intros b validMoves.
  assert (Hne : validMoves <> []) by discriminate.
  destruct (positional_heaviest b BLACK validMoves 0%Q Hne) as [_ H].
  destruct (H eq_refl) as (l1 & m & l2 & w & Hl & Hr & Hw & _).
  { intros m Hm. repeat (apply elem_of_cons in Hm as [->|Hm]);
      [cbn; lia..|by apply elem_of_nil in Hm]. }
  by exists l1, m, l2, w.
Defined.

Lemma corners_member (b : Board) (player : Z) (validMoves : list Move)
  (rnd : Q) :
  validMoves <> [] -> (0 <= rnd)%Q -> (rnd < 1)%Q ->
  (exists m, Strategies.greedy b player validMoves rnd
             = IntelligentSystemInterface.Returned (Some m)
             /\ m ∈ validMoves) ->
  exists m, Strategies.corners b player validMoves rnd
            = IntelligentSystemInterface.Returned (Some m)
            /\ m ∈ validMoves.
Proof.
  intros Hne H0 H1 Hgreedy. unfold Strategies.corners.
  destruct (Nat.eqb_spec (length validMoves) 0) as [Hl|_].
  { by destruct validMoves. }
  destruct (List.filter (Strategies.isCorner (Z.of_nat (length b)))
              validMoves) as [|x rest] eqn:Ec.
  - destruct (List.filter (Strategies.isEdge (Z.of_nat (length b)))
                validMoves) as [|y rest'] eqn:Ee; [done|].
    cbn [length Nat.eqb negb].
    assert (Hedges : y :: rest' <> []) by done.
    destruct (randomMove_member _ rnd Hedges H0 H1) as (m & Hm & Hin).
    rewrite <- Ee in Hin. apply filter_elem in Hin as [Hin _].
    exists m. by rewrite Hm.
  - assert (Hx : x ∈ List.filter (Strategies.isCorner (Z.of_nat (length b)))
                     validMoves) by (rewrite Ec; left).
    apply filter_elem in Hx as [Hx _]. by exists x.
Qed.

Lemma positional_member (b : Board) (player : Z) (validMoves : list Move)
  (rnd : Q) :
  validMoves <> [] ->
  (forall m, m ∈ validMoves ->
     0 <= row m < Z.of_nat (length b) /\ 0 <= col m < Z.of_nat (length b)) ->
  (exists m, Strategies.greedy b player validMoves rnd
             = IntelligentSystemInterface.Returned (Some m)
             /\ m ∈ validMoves) ->
  exists m, Strategies.positional b player validMoves rnd
            = IntelligentSystemInterface.Returned (Some m)
            /\ m ∈ validMoves.
Proof.
  intros Hne Hin Hgreedy. unfold Strategies.positional.
  destruct (Nat.eqb_spec (length validMoves) 0) as [Hl|_].
  { by destruct validMoves. }
  destruct (Nat.eqb_spec (length b) 8) as [Hlen|_]; cbn [negb]; [|done].
  destruct (positional_fold validMoves None None)
    as (bm' & best' & Hf & Hcase).
  { intros m Hm. destruct (Hin m Hm). lia. }
  rewrite Hf.
  destruct Hcase as [(-> & -> & Hall)
    |(l1 & m & l2 & w & -> & -> & -> & Hw & Hm & H1 & H2)].
  - destruct validMoves as [|x l]; [done|].
    destruct (Hin x ltac:(left)) as [Hr Hc].
    destruct (weightAt_inside x ltac:(lia) ltac:(lia)) as [wx Hwx].
    specialize (Hall x wx ltac:(left) Hwx). done.
  - exists m. split; [done|]. apply elem_of_app. right. left.
Qed.

(** X20.  No built-in strategy ever needs the fallback.  Each of the four
    strategies the table [builtInStrategies] names answers [null] on an empty
    list of moves, and on a non-empty list of moves inside the board it
    returns, without raising, a move of that list: what it returns always
    passes the scheduler's membership test. *)
Theorem builtIn_returns_listed_move (controllerId : string)
  (f : IntelligentSystemInterface.StrategyFn) (b : Board) (player : Z)
  (validMoves : list Move) (rnd : Q) :
  Strategies.builtInStrategies controllerId = Some f ->
  (0 <= rnd)%Q -> (rnd < 1)%Q ->
  (forall m, m ∈ validMoves ->
     0 <= row m < Z.of_nat (length b) /\ 0 <= col m < Z.of_nat (length b)) ->
  match validMoves with
  | [] => f b player validMoves rnd = IntelligentSystemInterface.Returned None
  | _ :: _ =>
      exists m,
        f b player validMoves rnd
        = IntelligentSystemInterface.Returned (Some m)
        /\ m ∈ validMoves
        /\ GameController.isReturnedMoveInList validMoves (Some m) = true
  end.
Proof.
  intros Hf H0 H1 Hin.
  assert (Hgreedy : validMoves <> [] ->
    exists m, Strategies.greedy b player validMoves rnd
              = IntelligentSystemInterface.Returned (Some m)
              /\ m ∈ validMoves).
  { intros Hne.
    destruct (greedy_first_best b player validMoves rnd Hne)
      as (l1 & m & l2 & Hl & Hg & _).
    { intros m Hm. by destruct (Hin m Hm). }
    exists m. split; [done|]. rewrite Hl. apply elem_of_app. right. left. }
  assert (Hall : validMoves <> [] ->
    exists m, f b player validMoves rnd
              = IntelligentSystemInterface.Returned (Some m)
              /\ m ∈ validMoves).
  { intros Hne. unfold Strategies.builtInStrategies in Hf.
    destruct (String.eqb controllerId "random"); [injection Hf as <-|].
    { unfold Strategies.random.
      destruct (Nat.eqb_spec (length validMoves) 0) as [Hl|_].
      { by destruct validMoves. }
      destruct (randomMove_member validMoves rnd Hne H0 H1) as (m & Hm & Hi).
      exists m. by rewrite Hm. }
    destruct (String.eqb controllerId "greedy"); [injection Hf as <-|].
    { by apply Hgreedy. }
    destruct (String.eqb controllerId "corners"); [injection Hf as <-|].
    { apply corners_member; try done. by apply Hgreedy. }
    destruct (String.eqb controllerId "positional"); [injection Hf as <-|done].
    apply positional_member; try done. by apply Hgreedy. }
  destruct validMoves as [|x l].
  - unfold Strategies.builtInStrategies in Hf.
    repeat (destruct (String.eqb controllerId _);
            [by injection Hf as <-|]).
    done.
  - destruct Hall as (m & Hm & Hi); [done|].
    exists m. split; [done|]. split; [done|].
    by apply isReturnedMoveInList_spec.
Qed.

Lemma builtIn_returns_listed_move_witness :
  let st := initializeBoard init (Some stage_standard) false in
  exists m,
    Strategies.corners (board st) BLACK (getValidMoves st BLACK (board st))
      (1 # 2)
    = IntelligentSystemInterface.Returned (Some m)
    /\ m ∈ getValidMoves st BLACK (board st).
Proof.
  intros st.
  assert (H0 : (0 <= 1 # 2)%Q) by discriminate.
  assert (H1 : (1 # 2 < 1)%Q) by reflexivity.
  assert (Hin : forall m, m ∈ getValidMoves st BLACK (board st) ->
            0 <= row m < Z.of_nat (length (board st))
            /\ 0 <= col m < Z.of_nat (length (board st))).
  { intros m Hm. by apply elem_of_getValidMoves in Hm as [? _]. }
  pose proof (builtIn_returns_listed_move "corners" Strategies.corners
                (board st) BLACK (getValidMoves st BLACK (board st)) (1 # 2)
                eq_refl H0 H1 Hin) as H.
  destruct H as (m & Hr & Hm & _). by exists m.
Defined.

(** ** The strategy store *)

Lemma isEmptyString_false s : isEmptyString s = false <-> s <> EmptyString.
Proof. destruct s; simpl; split; congruence. Qed.

Lemma get_setPrimitive {A} (own : gmap string A) (name : string) (v : A)
  (n : string) :
  name <> "__proto__" ->
  JsObject.get (JsObject.setPrimitive own name v) n
  = if decide (n = name) then JsObject.Own v else JsObject.get own n.
Proof.
  intros Hname. unfold JsObject.setPrimitive.
  destruct (String.eqb_spec name "__proto__") as [|_]; [done|].
  cbn [andb]. unfold JsObject.get, JsObject.getFrom.
  destruct (decide (n = name)) as [->|Hne].
  - by rewrite lookup_insert_eq.
  - by rewrite lookup_insert_ne.
Qed.

Lemma get_delete {A} (own : gmap string A) (name n : string) :
  JsObject.get (delete name own) n
  = if decide (n = name)
    then if JsObject.isInherited name then JsObject.Inherited
         else JsObject.Missing
    else JsObject.get own n.
Proof.
  unfold JsObject.get, JsObject.getFrom.
  destruct (decide (n = name)) as [->|Hne].
  - by rewrite lookup_delete_eq.
  - by rewrite lookup_delete_ne.
Qed.

Lemma saveStrategy_named st name code :
  isEmptyString name = false -> isEmptyString code = false ->
  name <> "__proto__" ->
  Strategies.saveStrategy st name code
  = (Strategies.mkStore
       (JsObject.setPrimitive (Strategies.savedStrategies st) name code)
       (<[name := None]> (Strategies.compiledStudentAIs st))
       (Strategies.compiledInherits st),
     true).
Proof.
  intros Hn Hc Hname. unfold Strategies.saveStrategy, Strategies.clearCompiled.
  rewrite Hn, Hc. cbn [orb].
  by destruct (String.eqb_spec name "__proto__").
Qed.

(** X21.  Saving, reading and deleting a strategy.  [saveStrategy] refuses
    an empty name or an empty text and changes nothing then.  [deleteStrategy]
    fails and changes nothing for a name under which [getStrategyCode] returns
    [null].  Under a name other than '__proto__', [saveStrategy] succeeds and
    [getStrategyCode] returns the saved text; [deleteStrategy] then succeeds,
    after which [getStrategyCode] returns [null] for the name, unless it is a
    name every object inherits (such as 'constructor'): then it returns the
    inherited value.  Neither call changes what [getStrategyCode] returns
    under another name.  Under the name '__proto__', in a store that has no
    text of its own by that name, [saveStrategy] reports success but stores
    nothing. *)
Theorem strategy_store_round_trip (st : Strategies.store)
  (name code : string) :
  (isEmptyString name || isEmptyString code = true ->
   Strategies.saveStrategy st name code = (st, false))
  /\ (Strategies.getStrategyCode st name = Strategies.Null ->
      Strategies.deleteStrategy st name = (st, false))
  /\ (isEmptyString name = false -> isEmptyString code = false ->
      name <> "__proto__" ->
      let saved := Strategies.saveStrategy st name code in
      let deleted := Strategies.deleteStrategy saved.1 name in
      saved.2 = true
      /\ Strategies.getStrategyCode saved.1 name = Strategies.Value code
      /\ deleted.2 = true
      /\ Strategies.getStrategyCode deleted.1 name
         = (if JsObject.isInherited name then Strategies.InheritedValue
            else Strategies.Null)
      /\ forall other, other <> name ->
           Strategies.getStrategyCode saved.1 other
           = Strategies.getStrategyCode st other
           /\ Strategies.getStrategyCode deleted.1 other
              = Strategies.getStrategyCode st other)
  /\ (isEmptyString code = false ->
      Strategies.savedStrategies st !! "__proto__" = None ->
      let saved := Strategies.saveStrategy st "__proto__" code in
      saved.2 = true
      /\ forall other,
           Strategies.getStrategyCode saved.1 other
           = Strategies.getStrategyCode st other).
Proof.
  split; [|split; [|split]].
  - intros He. unfold Strategies.saveStrategy. by rewrite He.
  - unfold Strategies.getStrategyCode, Strategies.deleteStrategy.
    destruct (Strategies.savedCode st name) as [text| |]; [|done|done].
    by destruct (isEmptyString text).
  - intros Hn Hc Hname saved deleted.
    assert (Hs : saved = (Strategies.mkStore
                   (JsObject.setPrimitive (Strategies.savedStrategies st)
                      name code)
                   (<[name := None]> (Strategies.compiledStudentAIs st))
                   (Strategies.compiledInherits st), true))
      by (by apply saveStrategy_named).
    assert (Hget : Strategies.savedCode saved.1 name = JsObject.Own code).
    { rewrite Hs. unfold Strategies.savedCode.
      cbn [fst Strategies.savedStrategies].
      rewrite get_setPrimitive by done. by rewrite decide_True. }
    assert (Hd : deleted = (Strategies.mkStore
                   (delete name (Strategies.savedStrategies saved.1))
                   (delete name (Strategies.compiledStudentAIs saved.1))
                   (Strategies.compiledInherits saved.1),
                 true)).
    { unfold deleted, Strategies.deleteStrategy. by rewrite Hget, Hc. }
    split; [by rewrite Hs|]. split; [|split; [by rewrite Hd|split]].
    + unfold Strategies.getStrategyCode. by rewrite Hget, Hc.
    + unfold Strategies.getStrategyCode, Strategies.savedCode.
      rewrite Hd. cbn [fst Strategies.savedStrategies].
      rewrite get_delete, decide_True by done.
      by destruct (JsObject.isInherited name).
    + intros other Hne.
      assert (Hsaved : Strategies.savedCode saved.1 other
                       = Strategies.savedCode st other).
      { rewrite Hs. unfold Strategies.savedCode.
        cbn [fst Strategies.savedStrategies].
        rewrite get_setPrimitive by done. by rewrite decide_False. }
      unfold Strategies.getStrategyCode. split; [by rewrite Hsaved|].
      rewrite <- Hsaved. unfold Strategies.savedCode at 1.
      rewrite Hd. cbn [fst Strategies.savedStrategies].
      rewrite get_delete. by rewrite decide_False.
  - intros Hc Hown saved.
    unfold saved, Strategies.saveStrategy. cbn [isEmptyString orb].
    rewrite Hc. destruct (Strategies.clearCompiled st "__proto__") as [cc ci].
    cbn [fst snd]. split; [done|]. intros other.
    unfold Strategies.getStrategyCode, Strategies.savedCode.
    cbn [Strategies.savedStrategies].
    unfold JsObject.setPrimitive. cbn [String.eqb Ascii.eqb Bool.eqb andb].
    rewrite Hown. rewrite bool_decide_eq_false_2; [done|].
    by intros [? ?].
Qed.

Lemma strategy_store_round_trip_witness :
  let st := Strategies.mkStore ∅ ∅ true in
  let saved := Strategies.saveStrategy st "constructor" "code" in
  let deleted := Strategies.deleteStrategy saved.1 "constructor" in
  Strategies.getStrategyCode saved.1 "constructor" = Strategies.Value "code"
  /\ deleted.2 = true
  /\ Strategies.getStrategyCode deleted.1 "constructor"
     = Strategies.InheritedValue.
Proof.
  intros st saved deleted.
  destruct (strategy_store_round_trip st "constructor" "code")
    as (_ & _ & H & _).
  destruct H as (_ & H1 & H2 & H3 & _);
    [reflexivity|reflexivity|discriminate|].
  split; [exact H1|]. split; [exact H2|exact H3].
Defined.

Lemma substring_all s : String.substring 0 (String.length s) s = s.
Proof. induction s as [|a s IH]; simpl; [done|]. by rewrite IH. Qed.

Lemma custom_id name :
  String.prefix "custom_" ("custom_" +:+ name) = true
  /\ String.substring 7 (String.length ("custom_" +:+ name) - 7)
       ("custom_" +:+ name) = name.
Proof.
  split.
  - cbn. by destruct name.
  - change ("custom_" +:+ name) with
      (String "c" (String "u" (String "s" (String "t" (String "o"
         (String "m" (String "_" name))))))).
    cbn [String.length String.substring Nat.sub].
    rewrite Nat.sub_0_r. apply substring_all.
Qed.

(** X22.  The cache of compiled strategies follows the store.  Once a text
    is saved under a name other than '__proto__', asking for the strategy
    'custom_' + name compiles that text, whatever was cached under the name
    before; when the text compiles, the function is cached and later requests
    return the same function without compiling anything.  Once the name is
    deleted the request returns [null], unless the name is one every object
    inherits (such as 'constructor') and the cache still has its prototype:
    then the request returns the inherited value. *)
Theorem compiled_cache_follows_store
  (compileStrategy : string -> option IntelligentSystemInterface.StrategyFn)
  (st : Strategies.store) (name code : string) :
  isEmptyString name = false -> isEmptyString code = false ->
  name <> "__proto__" ->
  let controllerId := "custom_" +:+ name in
  let saved := (Strategies.saveStrategy st name code).1 in
  let first := Strategies.getCompiledStrategy compileStrategy saved
                 controllerId in
  first.2 = match compileStrategy code with
            | Some f => Strategies.Value f
            | None => Strategies.Null
            end
  /\ (forall f, compileStrategy code = Some f ->
        forall otherCompile,
          Strategies.getCompiledStrategy otherCompile first.1 controllerId
          = (first.1, Strategies.Value f))
  /\ (Strategies.getCompiledStrategy compileStrategy
        (Strategies.deleteStrategy saved name).1 controllerId).2
     = (if Strategies.compiledInherits st && JsObject.isInherited name
        then Strategies.InheritedValue
        else Strategies.Null).
Proof.
  intros Hn Hc Hname controllerId saved first.
  destruct (custom_id name) as [Hp Hsub].
  assert (Hs : saved = Strategies.mkStore
                 (JsObject.setPrimitive (Strategies.savedStrategies st)
                    name code)
                 (<[name := None]> (Strategies.compiledStudentAIs st))
                 (Strategies.compiledInherits st)).
  { unfold saved. by rewrite saveStrategy_named. }
  assert (Hget : Strategies.savedCode saved name = JsObject.Own code).
  { rewrite Hs. unfold Strategies.savedCode.
    cbn [Strategies.savedStrategies].
    rewrite get_setPrimitive by done. by rewrite decide_True. }
  assert (Hentry : Strategies.compiledEntry saved name = JsObject.Own None).
  { rewrite Hs. unfold Strategies.compiledEntry, JsObject.getFrom.
    cbn [Strategies.compiledStudentAIs]. by rewrite lookup_insert_eq. }
  assert (Hfirst : first =
    match compileStrategy code with
    | Some f =>
        (Strategies.mkStore (Strategies.savedStrategies saved)
           (<[name := Some f]> (Strategies.compiledStudentAIs saved))
           (Strategies.compiledInherits saved), Strategies.Value f)
    | None => (saved, Strategies.Null)
    end).
  { unfold first, Strategies.getCompiledStrategy.
    unfold controllerId. rewrite Hp, Hsub, Hentry, Hget, Hc. done. }
  split; [|split].
  - rewrite Hfirst. by destruct (compileStrategy code).
  - intros f Hf otherCompile. rewrite Hfirst, Hf. cbn [fst].
    unfold Strategies.getCompiledStrategy.
    unfold controllerId. rewrite Hp, Hsub.
    unfold Strategies.compiledEntry, JsObject.getFrom.
    cbn [Strategies.compiledStudentAIs]. by rewrite lookup_insert_eq.
  - unfold Strategies.deleteStrategy. rewrite Hget, Hc. cbn [fst].
    unfold Strategies.getCompiledStrategy.
    unfold controllerId. rewrite Hp, Hsub.
    unfold Strategies.compiledEntry, Strategies.savedCode, JsObject.getFrom.
    cbn [Strategies.compiledStudentAIs Strategies.savedStrategies
         Strategies.compiledInherits].
    rewrite lookup_delete_eq, get_delete, decide_True by done.
    rewrite Hs. cbn [Strategies.compiledInherits].
    destruct (Strategies.compiledInherits st);
      by destruct (JsObject.isInherited name).
Qed.

Lemma compiled_cache_follows_store_witness :
  let compileStrategy := fun _ : string => Some Strategies.random in
  let stale := Strategies.mkStore (<["constructor" := "old"]> ∅)
                 (<["constructor" := Some Strategies.greedy]> ∅) true in
  let saved := (Strategies.saveStrategy stale "constructor" "new").1 in
  (Strategies.getCompiledStrategy compileStrategy saved
     "custom_constructor").2
  = Strategies.Value Strategies.random
  /\ (Strategies.getCompiledStrategy compileStrategy
        (Strategies.deleteStrategy saved "constructor").1
        "custom_constructor").2
     = Strategies.InheritedValue.
Proof.
  intros compileStrategy stale saved.
  destruct (compiled_cache_follows_store compileStrategy stale
              "constructor" "new")
    as (H1 & _ & H3); [reflexivity|reflexivity|discriminate|].
  split; [exact H1|exact H3].
Defined.

(** ** Three ways to build an initial board *)

Lemma placeOver_fold S v l : forall b,
  isSquare S b = true ->
  isSquare S (fold_left (placeOver S v) l b) = true
  /\ forall x y,
       cellAt (fold_left (placeOver S v) l b) x y =
       if isWithinBoard S x y && listed x y l then Some v else cellAt b x y.
Proof.
  induction l as [|p l IH]; intros b Hsq; simpl.
  - split; [done|]. intros x y. by rewrite andb_false_r.
  - assert (Hsq' : isSquare S (placeOver S v b p) = true).
    { unfold placeOver. destruct (isWithinBoard S _ _); [|done].
      by rewrite isSquare_setCell. }
    destruct (IH _ Hsq') as [H1 H2]. split; [done|].
    intros x y. rewrite H2. unfold placeOver.
    destruct (isWithinBoard S (pos_r p) (pos_c p)) eqn:Hp.
    + rewrite (cellAt_setCell S) by done.
      destruct ((pos_r p =? x) && (pos_c p =? y)) eqn:E; simpl.
      * assert (pos_r p = x /\ pos_c p = y) as [<- <-] by lia.
        rewrite Hp. simpl. by destruct (listed _ _ l).
      * done.
    + destruct ((pos_r p =? x) && (pos_c p =? y)) eqn:E; simpl; [|done].
      assert (pos_r p = x /\ pos_c p = y) as [<- <-] by lia.
      rewrite Hp. done.
Qed.

(** X23.  The engine, the analysis interface and the replay view each
    build the initial board of a stage with their own loop, and they resolve
    a cell named by several lists differently: the engine keeps the first
    placement (Blocked, then Black, then White), the analysis interface the
    last one (White, then Black, then Blocked), the replay view prefers
    Blocked, then White, then Black.  All three boards are squares of the
    stage's size, and they agree on every cell that at most one list names. *)
Theorem initial_boards_agree (st : state) (cfg : StageConfig)
  (isPreview : bool) :
  let S := boardSize cfg in
  let engine := board (initializeBoard st (Some cfg) isPreview) in
  let replay := GameRollout.createBasicBoard cfg in
  0 < S ->
  exists analysis,
    IntelligentSystemBoard.createInitialBoard (Some cfg) = Some analysis
    /\ isSquare S engine = true /\ isSquare S analysis = true
    /\ isSquare S replay = true
    /\ forall x y,
         isWithinBoard S x y = true ->
         cellAt engine x y =
         Some (if listed x y (initialBlocked cfg) then BLOCKED
               else if listed x y (initialPlayer1 cfg) then BLACK
               else if listed x y (initialPlayer2 cfg) then WHITE
               else EMPTY)
         /\ cellAt analysis x y =
            Some (if listed x y (initialPlayer2 cfg) then WHITE
                  else if listed x y (initialPlayer1 cfg) then BLACK
                  else if listed x y (initialBlocked cfg) then BLOCKED
                  else EMPTY)
         /\ cellAt replay x y =
            Some (if listed x y (initialBlocked cfg) then BLOCKED
                  else if listed x y (initialPlayer2 cfg) then WHITE
                  else if listed x y (initialPlayer1 cfg) then BLACK
                  else EMPTY)
         /\ (namedOnce cfg x y = true ->
             cellAt analysis x y = cellAt engine x y
             /\ cellAt replay x y = cellAt engine x y).
Proof.
  intros S engine replay HS.
  assert (Hs : stageBoardSize cfg = S).
  { unfold stageBoardSize. fold S. destruct (Z.eqb_spec S 0); [lia|done]. }
  destruct (initializeBoard_precedence st cfg isPreview) as (HN & Hsq & Hc);
    [fold S; lia|].
  fold engine S in Hsq, Hc. rewrite HN in Hsq. fold S in Hsq.
  unfold IntelligentSystemBoard.createInitialBoard.
  unfold replay, GameRollout.createBasicBoard. rewrite Hs.
  destruct (placeOver_fold S 3 (initialBlocked cfg) (newSquare S 0))
    as [Ha1 Hc1]; [apply isSquare_newSquare|].
  destruct (placeOver_fold S 1 (initialPlayer1 cfg) _ Ha1) as [Ha2 Hc2].
  destruct (placeOver_fold S 2 (initialPlayer2 cfg) _ Ha2) as [Ha3 Hc3].
  destruct (placeOver_fold S 1 (initialPlayer1 cfg) (newSquare S 0))
    as [Hr1 Hd1]; [apply isSquare_newSquare|].
  destruct (placeOver_fold S 2 (initialPlayer2 cfg) _ Hr1) as [Hr2 Hd2].
  destruct (placeOver_fold S 3 (initialBlocked cfg) _ Hr2) as [Hr3 Hd3].
  eexists. split; [done|]. split; [done|]. split; [done|]. split; [done|].
  intros x y Hin. split; [by apply Hc|].
  rewrite Hc3, Hc2, Hc1, Hd3, Hd2, Hd1, !cellAt_newSquare, Hin, (Hc x y Hin).
  cbn [andb]. unfold namedOnce.
  destruct (listed x y (initialBlocked cfg)),
    (listed x y (initialPlayer1 cfg)), (listed x y (initialPlayer2 cfg));
    done.
Qed.

Lemma initial_boards_agree_witness :
  exists analysis,
    IntelligentSystemBoard.createInitialBoard (Some stage_csquares)
    = Some analysis
    /\ isSquare 8 analysis = true.
Proof.
  destruct (initial_boards_agree init stage_csquares false)
    as (analysis & H1 & _ & H2 & _); [reflexivity|].
  by exists analysis.
Defined.

(** On a stage that names a cell twice the three boards differ. *)
Example initial_boards_differ :
  let cfg := mkStage "twice" 4 [mkPos 0 0] [mkPos 0 0] [mkPos 0 0] false false in
  cellAt (board (initializeBoard init (Some cfg) false)) 0 0 = Some BLOCKED
  /\ (IntelligentSystemBoard.createInitialBoard (Some cfg)
      ≫= fun b => cellAt b 0 0) = Some WHITE
  /\ cellAt (GameRollout.createBasicBoard
               (mkStage "pieces" 4 [] [mkPos 0 0] [mkPos 0 0] false false))
       0 0 = Some WHITE
  /\ cellAt (board (initializeBoard init
               (Some (mkStage "pieces" 4 [] [mkPos 0 0] [mkPos 0 0] false false))
               false)) 0 0 = Some BLACK.
Proof. vm_compute. done. Qed.

(** ** The game log *)

Lemma lookup_snoc_at {A} (l : list A) (x : A) :
  (l ++ [x]) !! length l = Some x.
Proof. by rewrite lookup_app_r, Nat.sub_diag by lia. Qed.

Lemma logMove_last (lg : GameLogger.logger) (player : Z) (position : Move)
  (resultingBoard : Board) (capturedCount : Z) :
  aligned lg ->
  let lg' := GameLogger.logMove lg player position resultingBoard
               capturedCount in
  let n := Z.of_nat (length (GameLogger.moves lg)) in
  length (GameLogger.moves lg') = S (length (GameLogger.moves lg))
  /\ GameLogger.getBoardAtMove lg' n = Some resultingBoard
  /\ GameLogger.getPlayerAtMove lg' n = Some player
  /\ GameLogger.capturedCounts lg' !! length (GameLogger.moves lg)
     = Some capturedCount.
Proof.
  intros (Hb & Hp & Hc) lg' n.
  unfold lg', GameLogger.logMove, GameLogger.getBoardAtMove,
    GameLogger.getPlayerAtMove.
  cbn [GameLogger.moves GameLogger.boardStates GameLogger.currentPlayer
       GameLogger.capturedCounts].
  rewrite !length_app. cbn [length]. rewrite Hb, Hp.
  assert (Hn : (0 <=? n) && (n <? Z.of_nat (length (GameLogger.moves lg) + 1))
               = true).
  { unfold n. apply andb_true_iff. split; [apply Z.leb_le|apply Z.ltb_lt]; lia. }
  rewrite Hn. unfold n. rewrite Nat2Z.id.
  split; [lia|]. split; [rewrite <- Hb; apply lookup_snoc_at|].
  split; [rewrite <- Hp; apply lookup_snoc_at|].
  rewrite <- Hc. apply lookup_snoc_at.
Qed.

(** X24.  Logging a move and reading it back.  After
    [logMove(player, position, board, count)] on a logger whose four arrays
    are aligned, the arrays are aligned again; [getBoardAtMove] and
    [getPlayerAtMove] at the index of the new move return the board and the
    player just logged; at every earlier index they return what they
    returned before; at every index outside the log they return [null]; and
    [getLogs] returns the current game. *)
Theorem logMove_round_trip (lg : GameLogger.logger) (player : Z)
  (position : Move) (resultingBoard : Board) (capturedCount : Z) :
  aligned lg ->
  let lg' := GameLogger.logMove lg player position resultingBoard
               capturedCount in
  let n := Z.of_nat (length (GameLogger.moves lg)) in
  aligned lg'
  /\ GameLogger.getBoardAtMove lg' n = Some resultingBoard
  /\ GameLogger.getPlayerAtMove lg' n = Some player
  /\ (forall i, 0 <= i < n ->
        GameLogger.getBoardAtMove lg' i = GameLogger.getBoardAtMove lg i
        /\ GameLogger.getPlayerAtMove lg' i = GameLogger.getPlayerAtMove lg i)
  /\ (forall i, i < 0 \/ n < i ->
        GameLogger.getBoardAtMove lg' i = None
        /\ GameLogger.getPlayerAtMove lg' i = None)
  /\ GameLogger.getLogs lg'
     = GameLogger.mkLogs (GameLogger.moves lg') (GameLogger.boardStates lg')
         (GameLogger.currentPlayer lg') (GameLogger.capturedCounts lg').
Proof.
  intros (Hb & Hp & Hc) lg' n.
  unfold lg', GameLogger.logMove, aligned, GameLogger.getBoardAtMove,
    GameLogger.getPlayerAtMove, GameLogger.getLogs.
  cbn [GameLogger.moves GameLogger.boardStates GameLogger.currentPlayer
       GameLogger.capturedCounts GameLogger.previousGames].
  rewrite !length_app. cbn [length]. rewrite Hb, Hp, Hc.
  split; [done|]. split; [|split; [|split; [|split]]].
  - replace ((0 <=? n) && (n <? Z.of_nat (length (GameLogger.moves lg) + 1)))
      with true by (unfold n; symmetry; apply andb_true_iff; split;
                    [apply Z.leb_le|apply Z.ltb_lt]; lia).
    unfold n. rewrite Nat2Z.id, <- Hb. apply lookup_snoc_at.
  - replace ((0 <=? n) && (n <? Z.of_nat (length (GameLogger.moves lg) + 1)))
      with true by (unfold n; symmetry; apply andb_true_iff; split;
                    [apply Z.leb_le|apply Z.ltb_lt]; lia).
    unfold n. rewrite Nat2Z.id, <- Hp. apply lookup_snoc_at.
  - intros i Hi.
    replace ((0 <=? i) && (i <? Z.of_nat (length (GameLogger.moves lg) + 1)))
      with true by (symmetry; apply andb_true_iff; split;
                    [apply Z.leb_le|apply Z.ltb_lt]; lia).
    replace ((0 <=? i) && (i <? Z.of_nat (length (GameLogger.moves lg))))
      with true by (symmetry; apply andb_true_iff; split;
                    [apply Z.leb_le|apply Z.ltb_lt]; lia).
    split; rewrite lookup_app_l; (done || lia).
  - intros i Hi.
    replace ((0 <=? i) && (i <? Z.of_nat (length (GameLogger.moves lg) + 1)))
      with false; [done|].
    symmetry. apply andb_false_iff.
    destruct Hi; [left; apply Z.leb_gt|right; apply Z.ltb_ge]; lia.
  - by rewrite Nat.add_1_r.
Qed.

Lemma logMove_round_trip_witness :
  let lg := GameLogger.logMove GameLogger.create BLACK (mkMove 2 3)
              [[BLACK]] 1 in
  GameLogger.getBoardAtMove lg 0 = Some [[BLACK]]
  /\ GameLogger.getPlayerAtMove lg 0 = Some BLACK.
Proof.
  intros lg.
  assert (Ha : aligned GameLogger.create) by (repeat split).
  destruct (logMove_round_trip GameLogger.create BLACK (mkMove 2 3)
              [[BLACK]] 1 Ha) as (_ & H1 & H2 & _).
  split; [exact H1|exact H2].
Defined.

Lemma last_snoc_some {A} (l : list A) (x : A) : last (l ++ [x]) = Some x.
Proof. apply last_snoc. Qed.

(** X25.  Saving a game keeps its log readable.  [saveGameWithLog] appends
    one saved game and one result and clears the current game, after which
    [getLogs] still answers with the moves, boards, players and captured
    counts of the game just saved.  The result it returns counts the moves of
    that game and names as winner the colour with the higher score, or 0 on
    equal scores. *)
Theorem saveGameWithLog_keeps_log (lg : GameLogger.logger)
  (blackScore whiteScore : Z) (blackStrategy whiteStrategy : string)
  (stageConfig : option StageConfig) (moveLogArray : list string) :
  let out := GameLogger.saveGameWithLog lg blackScore whiteScore
               blackStrategy whiteStrategy stageConfig moveLogArray in
  let lg' := out.1 in
  let r := out.2 in
  GameLogger.getLogs lg'
  = GameLogger.mkLogs (GameLogger.moves lg) (GameLogger.boardStates lg)
      (GameLogger.currentPlayer lg) (GameLogger.capturedCounts lg)
  /\ GameLogger.moves lg' = [] /\ aligned lg'
  /\ GameLogger.gameResults lg' = GameLogger.gameResults lg ++ [r]
  /\ length (GameLogger.previousGames lg')
     = S (length (GameLogger.previousGames lg))
  /\ GameLogger.totalMoves r = Z.of_nat (length (GameLogger.moves lg))
  /\ GameLogger.blackScore r = blackScore
  /\ GameLogger.whiteScore r = whiteScore
  /\ (whiteScore < blackScore -> GameLogger.winner r = BLACK)
  /\ (blackScore < whiteScore -> GameLogger.winner r = WHITE)
  /\ (blackScore = whiteScore -> GameLogger.winner r = 0).
Proof.
  intros out lg' r.
  unfold lg', r, out, GameLogger.saveGameWithLog, GameLogger.reset,
    GameLogger.getLogs.
  cbn [fst snd GameLogger.moves GameLogger.boardStates
       GameLogger.currentPlayer GameLogger.capturedCounts
       GameLogger.gameResults GameLogger.previousGames length Nat.eqb negb
       GameLogger.totalMoves GameLogger.blackScore GameLogger.whiteScore
       GameLogger.winner].
  rewrite last_snoc_some. cbn [GameLogger.saved_logs].
  split; [done|]. split; [done|]. split; [done|]. split; [done|].
  split; [by rewrite length_app, Nat.add_1_r|].
  split; [done|]. split; [done|]. split; [done|].
  destruct (Z.ltb_spec whiteScore blackScore);
    destruct (Z.ltb_spec blackScore whiteScore);
    repeat split; intros; (done || lia).
Qed.

(** X26.  What a move leaves in the log.  When [makeMove] is given an
    Empty cell of the board it logs exactly one move, legal or not: the board
    logged is the engine's board after the move, the player logged is the
    mover, and the captured count logged is the number of discs the opponent
    has lost between the board before and the board logged.  When
    [makeMove] returns at its guard, nothing is logged. *)
Theorem makeMove_log_entry (lg : GameLogger.logger) (st : state)
  (row col player : Z) :
  let lg' := GameLogger.logMakeMove lg st row col player in
  let n := Z.of_nat (length (GameLogger.moves lg)) in
  let b' := board (mr_state (makeMove st row col player)) in
  aligned lg -> isSquare (BOARD_SIZE st) (board st) = true ->
  isPlayer player = true ->
  (isWithinBoard (BOARD_SIZE st) row col && cellIs (board st) row col EMPTY
   = false -> lg' = lg)
  /\ (isWithinBoard (BOARD_SIZE st) row col && cellIs (board st) row col EMPTY
      = true ->
      length (GameLogger.moves lg') = S (length (GameLogger.moves lg))
      /\ GameLogger.getBoardAtMove lg' n = Some b'
      /\ GameLogger.getPlayerAtMove lg' n = Some player
      /\ GameLogger.capturedCounts lg' !! length (GameLogger.moves lg)
         = Some (discs (otherPlayer player) (board st)
                 - discs (otherPlayer player) b')).
Proof.
  intros lg' n b' Ha Hsq Hpl. unfold lg', GameLogger.logMakeMove.
  rewrite <- negb_andb.
  destruct (isWithinBoard (BOARD_SIZE st) row col
            && cellIs (board st) row col EMPTY) eqn:Hg; cbn [negb].
  - split; [done|]. intros _.
    apply andb_true_iff in Hg as [Hin He%cellIs_true].
    destruct (makeMove_counts_all st row col player Hin He) as [_ Hd].
    specialize (Hd (otherPlayer player)). fold b' in Hd.
    destruct (logMove_last lg player (mkMove row col) b'
                (Z.of_nat (length (mr_captured (makeMove st row col player))))
                Ha) as (H1 & H2 & H3 & H4).
    split; [done|]. split; [done|]. split; [done|].
    etrans; [exact H4|]. f_equal.
    destruct (otherPlayer_cases player) as [Hopp Hne].
    rewrite Z.eqb_refl in Hd.
    destruct (Z.eqb_spec player (otherPlayer player)); [congruence|].
    destruct (Z.eqb_spec EMPTY (otherPlayer player)) as [E|_]; [|lia].
    destruct Hopp as [Ho|Ho]; rewrite Ho in E; discriminate.
  - split; [done|]. done.
Qed.

Lemma makeMove_log_entry_witness :
  let st := initializeBoard init (Some stage_standard) false in
  let lg' := GameLogger.logMakeMove GameLogger.create st 2 3 BLACK in
  GameLogger.getPlayerAtMove lg' 0 = Some BLACK.
Proof.
  intros st lg'.
  assert (Ha : aligned GameLogger.create) by (repeat split).
  destruct (makeMove_log_entry GameLogger.create st 2 3 BLACK Ha)
    as [_ H]; [reflexivity|reflexivity|].
  destruct H as (_ & _ & H & _); [reflexivity|exact H].
Defined.

(** X27.  A forfeit is saved with the right winner.  When [checkTimeLimit]
    finds Black or White over budget in a running game whose board has a cell
    that is not Blocked, the game it saves through [endGame] names the
    opponent as winner, although the logger decides the winner from the two
    scores alone: the repainted board gives the opponent every playable cell
    and the player none.  The saved result counts the moves logged so far and
    the current log is cleared. *)
Theorem forfeit_saved_for_opponent (lg : GameLogger.logger) (st : state)
  (player : Z) (t : Q) (blackName whiteName : string)
  (moveLog : list string) :
  gameRunning st = true -> isPlayer player = true ->
  (MAX_AI_TIME_PER_GAME < t)%Q ->
  discs BLOCKED (board st) < Z.of_nat (length (concat (board st))) ->
  let lg' := GameLogger.logCheckTimeLimit lg st player t blackName whiteName
               moveLog in
  exists r,
    GameLogger.gameResults lg' = GameLogger.gameResults lg ++ [r]
    /\ GameLogger.winner r = otherPlayer player
    /\ GameLogger.totalMoves r = Z.of_nat (length (GameLogger.moves lg))
    /\ GameLogger.moves lg' = [].
Proof.
  intros Hrun Hpl Ht Hplay lg'. apply overBudget_spec in Ht.
  unfold lg', GameLogger.logCheckTimeLimit. rewrite Ht.
  unfold GameLogger.logEndGame. cbn [gameRunning with_board board].
  rewrite Hrun. cbn [negb]. rewrite countDiscs_discs. cbn [black white].
  unfold GameLogger.saveGameWithLog, GameLogger.reset.
  cbn [fst GameLogger.gameResults GameLogger.previousGames GameLogger.moves].
  eexists. split; [reflexivity|].
  cbn [GameLogger.winner GameLogger.totalMoves]. split; [|done].
  apply isPlayer_cases in Hpl as [->| ->].
  - destruct (forfeitBoard_discs WHITE (board st)) as [H1 H2]; [done|].
    change (otherPlayer BLACK) with WHITE.
    rewrite H1, (H2 BLACK) by done.
    destruct (Z.ltb_spec (Z.of_nat (length (concat (board st)))
                          - discs BLOCKED (board st)) 0); [lia|].
    destruct (Z.ltb_spec 0 (Z.of_nat (length (concat (board st)))
                            - discs BLOCKED (board st))); [done|lia].
  - destruct (forfeitBoard_discs BLACK (board st)) as [H1 H2]; [done|].
    change (otherPlayer WHITE) with BLACK.
    rewrite H1, (H2 WHITE) by done.
    destruct (Z.ltb_spec 0 (Z.of_nat (length (concat (board st)))
                            - discs BLOCKED (board st))); [done|lia].
Qed.

Lemma forfeit_saved_for_opponent_witness :
  let st := mkState [[BLACK; BLOCKED]; [EMPTY; WHITE]] 2 None BLACK true false in
  exists r,
    GameLogger.gameResults
      (GameLogger.logCheckTimeLimit GameLogger.create st BLACK 10001
         "a" "b" [])
    = [r]
    /\ GameLogger.winner r = WHITE.
Proof.
  intros st.
  destruct (forfeit_saved_for_opponent GameLogger.create st BLACK 10001
              "a" "b" []) as (r & H1 & H2 & _);
    [reflexivity|reflexivity|reflexivity|reflexivity|].
  by exists r.
Defined.

(** ** The leaderboard *)

Lemma tallyOk_alter (f : Tournament.tally -> Tournament.tally)
  (r : gmap string Tournament.tally) name :
  (forall t, tallyOk t -> tallyOk (f t)) ->
  (forall n t, r !! n = Some t -> tallyOk t) ->
  forall n t, alter f name r !! n = Some t -> tallyOk t.
Proof.
  intros Hf Hr n t. destruct (decide (n = name)) as [->|Hne].
  - rewrite lookup_alter_eq.
    destruct (r !! name) as [t0|] eqn:E; simpl; [|done].
    intros [= <-]. apply Hf. by apply (Hr name).
  - rewrite lookup_alter_ne by done. apply Hr.
Qed.

Lemma ensureEntry_lookup (r : gmap string Tournament.tally) (name n : string) :
  Tournament.ensureEntry r name !! n
  = if decide (n = name)
    then match r !! name with
         | Some t => Some t
         | None => if JsObject.isInherited name then None
                   else Some (Tournament.mkTally 0 0 0 0)
         end
    else r !! n.
Proof.
  unfold Tournament.ensureEntry, JsObject.get, JsObject.getFrom.
  cbn [andb].
  destruct (decide (n = name)) as [->|Hne].
  - destruct (r !! name) as [t|] eqn:E; [done|].
    destruct (JsObject.isInherited name); [done|].
    by rewrite lookup_insert_eq.
  - destruct (r !! name) as [t|] eqn:E; [done|].
    destruct (JsObject.isInherited name); [done|].
    by rewrite lookup_insert_ne.
Qed.

(** X28.  The leaderboard adds up.  [recordGameResult] appends one match,
    changes no entry but those of the two names, and keeps every entry
    balanced: if total games equalled wins plus losses plus draws for every
    name before, it does for every name afterwards, whatever value the winner
    argument has and also when a strategy played against itself.  Each of
    the two names has an entry afterwards, unless it is a name every object
    inherits (such as 'constructor') that had no entry: such a name gets
    none, and the game is counted for the other name only. *)
Theorem recordGameResult_balanced (data : Tournament.leaderboardData)
  (blackName whiteName : string) (winner : Z) (scores : OthelloCore.scores) :
  (forall n t, Tournament.results data !! n = Some t -> tallyOk t) ->
  let data' := Tournament.recordGameResult data blackName whiteName winner
                 scores in
  (forall n t, Tournament.results data' !! n = Some t -> tallyOk t)
  /\ (forall name, name = blackName \/ name = whiteName ->
        if JsObject.isInherited name
           && negb (bool_decide (is_Some (Tournament.results data !! name)))
        then Tournament.results data' !! name = None
        else is_Some (Tournament.results data' !! name))
  /\ length (Tournament.matches data') = S (length (Tournament.matches data))
  /\ forall n, n <> blackName -> n <> whiteName ->
       Tournament.results data' !! n = Tournament.results data !! n.
Proof.
  intros Hok data'. unfold data', Tournament.recordGameResult.
  cbn [Tournament.results Tournament.matches].
  set (r := Tournament.results data) in *.
  set (r0 := Tournament.ensureEntry (Tournament.ensureEntry r blackName)
               whiteName).
  assert (Hr0 : forall n,
    r0 !! n = if decide (n = blackName \/ n = whiteName)
              then match r !! n with
                   | Some t => Some t
                   | None => if JsObject.isInherited n then None
                             else Some (Tournament.mkTally 0 0 0 0)
                   end
              else r !! n).
  { intros n. unfold r0. rewrite !ensureEntry_lookup.
    destruct (decide (n = blackName \/ n = whiteName)) as [Hd|Hd].
    - destruct (decide (n = whiteName)) as [->|Hnw].
      + destruct (decide (whiteName = blackName)) as [->|Hwb]; [|done].
        destruct (r !! blackName); [done|].
        by destruct (JsObject.isInherited blackName).
      + destruct (decide (n = blackName)) as [->|Hnb]; [done|tauto].
    - rewrite !decide_False by tauto. done. }
  assert (Hok0 : forall n t, r0 !! n = Some t -> tallyOk t).
  { intros n t. rewrite Hr0.
    destruct (decide (n = blackName \/ n = whiteName)); [|apply Hok].
    destruct (r !! n) as [t0|] eqn:E; [intros [= <-]; by apply (Hok n)|].
    destruct (JsObject.isInherited n); [done|]. by intros [= <-]. }
  set (f1 := if winner =? 1 then Tournament.addWin
             else if winner =? 2 then Tournament.addLoss
             else Tournament.addDraw).
  set (f2 := if winner =? 1 then Tournament.addLoss
             else if winner =? 2 then Tournament.addWin
             else Tournament.addDraw).
  assert (Hr1 : (if winner =? 1
                 then alter Tournament.addLoss whiteName
                        (alter Tournament.addWin blackName r0)
                 else if winner =? 2
                 then alter Tournament.addWin whiteName
                        (alter Tournament.addLoss blackName r0)
                 else alter Tournament.addDraw whiteName
                        (alter Tournament.addDraw blackName r0))
                = alter f2 whiteName (alter f1 blackName r0)).
  { unfold f1, f2. by destruct (winner =? 1), (winner =? 2). }
  rewrite Hr1.
  (* Each game adds one result and one to the total for both names: the
     two updates of a name keep its entry balanced together. *)
  assert (Hpair : forall g, (g = f1 \/ g = f2) ->
            forall t, tallyOk t -> tallyOk (Tournament.addGame (g t))).
  { intros g Hg t Ht. unfold tallyOk in *.
    destruct Hg as [-> | ->]; unfold f1, f2;
      destruct (winner =? 1), (winner =? 2); cbn; lia. }
  assert (Hself : forall t, tallyOk t ->
            tallyOk (Tournament.addGame (Tournament.addGame (f2 (f1 t))))).
  { intros t Ht. unfold tallyOk in *. unfold f1, f2.
    destruct (winner =? 1), (winner =? 2); cbn; lia. }
  assert (Hlook : forall n,
    alter Tournament.addGame whiteName
      (alter Tournament.addGame blackName
         (alter f2 whiteName (alter f1 blackName r0))) !! n
    = if decide (n = blackName) then
        if decide (n = whiteName)
        then (fun t => Tournament.addGame (Tournament.addGame (f2 (f1 t))))
               <$> r0 !! n
        else (fun t => Tournament.addGame (f1 t)) <$> r0 !! n
      else if decide (n = whiteName)
           then (fun t => Tournament.addGame (f2 t)) <$> r0 !! n
           else r0 !! n).
  { intros n.
    destruct (decide (n = blackName)) as [->|Hnb];
      destruct (decide (blackName = whiteName)) as [Hbw|Hbw];
      try destruct (decide (n = whiteName)) as [->|Hnw];
      subst;
      repeat (rewrite lookup_alter_eq || rewrite lookup_alter_ne by done);
      try done;
      match goal with |- context [r0 !! ?k] => by destruct (r0 !! k) end. }
  split; [|split; [|split]].
  - intros n t. rewrite Hlook.
    destruct (decide (n = blackName)), (decide (n = whiteName));
      destruct (r0 !! n) as [t0|] eqn:E; simpl; try done;
      intros [= <-].
    + apply Hself. by apply (Hok0 n).
    + apply (Hpair f1); [by left|]. by apply (Hok0 n).
    + apply (Hpair f2); [by right|]. by apply (Hok0 n).
    + by apply (Hok0 n).
  - intros name Hname. rewrite Hlook, Hr0.
    rewrite (decide_True _ _ Hname).
    destruct (r !! name) as [t0|] eqn:E.
    + rewrite bool_decide_eq_true_2 by (by eexists).
      rewrite andb_false_r. by repeat case_decide.
    + rewrite bool_decide_eq_false_2 by (by intros [? ?]).
      rewrite andb_true_r.
      destruct (JsObject.isInherited name); by repeat case_decide.
  - by rewrite length_app, Nat.add_1_r.
  - intros n Hnb Hnw. rewrite Hlook, !decide_False by done.
    rewrite Hr0. by rewrite decide_False by tauto.
Qed.

Lemma recordGameResult_balanced_witness :
  let data := Tournament.recordGameResult (Tournament.mkLeaderboard [] ∅)
                "constructor" "greedy" 1 (mkScores 40 24) in
  is_Some (Tournament.results data !! "greedy")
  /\ Tournament.results data !! "constructor" = None
  /\ length (Tournament.matches data) = 1%nat.
Proof.
  intros data.
  destruct (recordGameResult_balanced (Tournament.mkLeaderboard [] ∅)
              "constructor" "greedy" 1 (mkScores 40 24))
    as (_ & H1 & H2 & _).
  - intros n t Hn. cbn [Tournament.results] in Hn.
    rewrite lookup_empty in Hn. discriminate.
  - split; [exact (H1 "greedy" (or_intror eq_refl))|].
    split; [exact (H1 "constructor" (or_introl eq_refl))|exact H2].
Defined.
